(** * passivbot optimizer: a shallow embedding of [src/optimize.py]

    The development follows the Python module function by function; the
    last definitions cover [check_compilation_needed] of [src/main.py].

    Conventions of the embedding.
    - A Python [float] is an exact rational of [Q]; rounding, infinities and
      NaN are outside the model.  Results are compared with [==] (Qeq) where
      arithmetic is involved and with [=] where the code returns the very
      same value.
    - A Python [dict] with string keys read by key is a [gmap string _];
      the dict of seed individuals, whose insertion order is observable, is
      an association list.
    - A raised exception (KeyError, IndexError, ...) is [None].
    - Calls into other modules (DEAP operators, [calc_hash], [format_config],
      the backtest engine) are Section variables: every statement holds for
      whatever those calls return. *)

From Stdlib Require Import QArith Qminmax ZArith Lia Lqa.
From stdpp Require Import gmap strings list fin_maps sorting.

Open Scope string_scope.
Open Scope list_scope.

(** ** Python builtins on numbers *)

Definition Qltb (x y : Q) : bool := negb (Qle_bool y x).

(** [max(a, b)]: the first argument is kept unless the second is strictly
    greater. *)
Definition pymax (a b : Q) : Q := if Qltb a b then b else a.

(** [min(a, b)]: the first argument is kept unless the second is strictly
    smaller. *)
Definition pymin (a b : Q) : Q := if Qltb b a then b else a.

(** ** The run configuration

    Only the sections [optimize.py] reads are kept.  [bot] maps a position
    side ("long", "short") to its named parameters. *)

Record OptimizeConfig := {
  limits : gmap string Q;
  scoring : list string;
  population_size : nat;
  iters : Z
}.

Record Config := {
  bot : gmap string (gmap string Q);
  optimize : OptimizeConfig;
  results_filename : string
}.

(** ** Evaluator.calc_fitness *)

Module Evaluator.

(** The [(i, key)] pairs of the [for] loop. *)
Definition constrained : list (Z * string) :=
  [(4%Z, "drawdown_worst");
   (3%Z, "equity_balance_diff_mean");
   (2%Z, "loss_profit_ratio")].

(** f"lower_bound_{key}" *)
Definition lower_bound_key (key : string) : string := "lower_bound_" +:+ key.

(** One summand: [(max(limits[lb_key], analysis[key]) - limits[lb_key]) * 10**i]. *)
Definition violation (lims analysis : gmap string Q) (ik : Z * string) : option Q :=
  lb ← lims !! lower_bound_key ik.2;
  a ← analysis !! ik.2;
  Some ((pymax lb a - lb) * inject_Z (10 ^ ik.1))%Q.

(** The loop [modifier = 0.0; for i, key in [...]: modifier += ...]. *)
Definition calc_modifier (lims analysis : gmap string Q) : option Q :=
  foldl (fun acc ik => m ← acc; v ← violation lims analysis ik; Some (m + v)%Q)
        (Some 0%Q) constrained.

(** [analysis["drawdown_worst"] >= 1.0 or analysis["equity_balance_diff_max"] < 0.1];
    [or] does not read the second key when the first test holds. *)
Definition disqualified (analysis : gmap string Q) : option bool :=
  dd ← analysis !! "drawdown_worst";
  if Qle_bool 1 dd then Some true
  else ebd ← analysis !! "equity_balance_diff_max"; Some (Qltb ebd (1 # 10)).

Definition calc_fitness (config : Config) (analysis : gmap string Q) : option (Q * Q) :=
  modifier ← calc_modifier (limits (optimize config)) analysis;
  d ← disqualified analysis;
  if (d : bool) then Some (modifier, modifier)
  else
    s0 ← scoring (optimize config) !! 0%nat;
    v0 ← analysis !! s0;
    s1 ← scoring (optimize config) !! 1%nat;
    v1 ← analysis !! s1;
    Some (modifier - v0, modifier - v1)%Q.

(** By how much a constrained statistic exceeds its lower bound. *)
Definition margin (lims analysis : gmap string Q) (key : string) : option Q :=
  lb ← lims !! lower_bound_key key;
  a ← analysis !! key;
  Some (a - lb)%Q.

End Evaluator.

(** ** Genome codec on configuration values

    [sorted(d)] and [sorted(d.items())]: the keys of a dict are pairwise
    distinct, so the tuples of [d.items()] are ordered by their key alone. *)

Definition sorted_keys {A} (d : gmap string A) : list string :=
  merge_sort String.le (map_to_list d).*1.

Definition item_le {A} (x y : string * A) : Prop := String.le x.1 y.1.

Global Instance item_le_dec {A} : RelDecision (@item_le A).
Proof. intros x y. unfold item_le. apply _. Defined.

Definition sorted_items {A} (d : gmap string A) : list (string * A) :=
  merge_sort item_le (map_to_list d).

Module Codec.

(** [config_to_individual]: the values of side "long" then of side "short",
    each in the order of the sorted parameter names. *)
Definition config_to_individual (config : Config) : option (list Q) :=
  long ← bot config !! "long";
  short ← bot config !! "short";
  Some ((sorted_items long).*2 ++ (sorted_items short).*2).

(** [config["bot"][pside][key] = v] *)
Definition set_param (config : Config) (pside key : string) (v : Q) : option Config :=
  side ← bot config !! pside;
  Some {| bot := <[pside := <[key := v]> side]> (bot config);
          optimize := optimize config;
          results_filename := results_filename config |}.

(** Body of the inner loop; the state is the configuration under
    construction and the running index [i]. *)
Definition write_param (individual : list Q) (pside : string)
    (st : option (Config * nat)) (key : string) : option (Config * nat) :=
  ci ← st;
  v ← individual !! ci.2;
  config ← set_param ci.1 pside key v;
  Some (config, S ci.2).

Definition write_side (individual : list Q) (keys : list string)
    (st : option (Config * nat)) (pside : string) : option (Config * nat) :=
  foldl (write_param individual pside) st keys.

(** [individual_to_config]: on values, [deepcopy(template)] is the template.
    [get_template_live_config] stands for the call made when [template] is
    [None].  The same function on mutable objects is [Store.individual_to_config];
    [store_decode_refines] relates the two. *)
Definition individual_to_config (get_template_live_config : Config)
    (individual : list Q) (template : option Config) : option Config :=
  let config := default get_template_live_config template in
  long ← bot config !! "long";
  let keys := sorted_keys long in
  ci ← foldl (write_side individual keys) (Some (config, 0%nat)) ["long"; "short"];
  Some ci.1.

End Codec.

(** ** Bounded genetic operators *)

(** [l[i] = x] on a Python list: IndexError when [i] is out of range. *)
Definition setitem {A} (l : list A) (i : nat) (x : A) : option (list A) :=
  if decide (i < length l)%nat then Some (<[i := x]> l) else None.

Module Operators.

Definition eps : Q := 1 # 1000000.

(** [np.array(low) == np.array(up)], elementwise; arrays of different
    lengths do not give a mask the loops can use. *)
Definition equal_bounds_mask (low up : list Q) : option (list bool) :=
  if decide (length low = length up) then Some (zip_with Qeq_bool low up) else None.

(** Bounds handed to DEAP: each fixed dimension widened by [eps]. *)
Definition temp_low (mask : list bool) (low : list Q) : list Q :=
  zip_with (fun (equal : bool) x => if equal then (x - eps)%Q else x) mask low.

Definition temp_up (mask : list bool) (up : list Q) : list Q :=
  zip_with (fun (equal : bool) x => if equal then (x + eps)%Q else x) mask up.

(** [for i, equal in enumerate(mask): if equal: individual[i] = low[i]] *)
Definition reset1 (low : list Q) (acc : option (list Q)) (ie : nat * bool) : option (list Q) :=
  ind ← acc;
  if ie.2 then x ← low !! ie.1; setitem ind ie.1 x else Some ind.

Definition reset_fixed (mask : list bool) (low individual : list Q) : option (list Q) :=
  foldl (reset1 low) (Some individual) (imap pair mask).

(** The same loop over two individuals: [ind1[i] = low[i]; ind2[i] = low[i]]. *)
Definition reset2 (low : list Q) (acc : option (list Q * list Q)) (ie : nat * bool)
    : option (list Q * list Q) :=
  inds ← acc;
  if ie.2 then
    x ← low !! ie.1;
    ind1 ← setitem inds.1 ie.1 x;
    ind2 ← setitem inds.2 ie.1 x;
    Some (ind1, ind2)
  else Some inds.

Definition reset_fixed2 (mask : list bool) (low ind1 ind2 : list Q)
    : option (list Q * list Q) :=
  foldl (reset2 low) (Some (ind1, ind2)) (imap pair mask).

Section Wrappers.
(** DEAP's operators mutate their arguments in place; the variables give
    the contents of the individuals after the call ([None]: the call
    raised).  Their random draws are whatever these functions encode. *)
Variable mutPolynomialBounded :
  list Q -> Q -> list Q -> list Q -> Q -> option (list Q).
Variable cxSimulatedBinaryBounded :
  list Q -> list Q -> Q -> list Q -> list Q -> option (list Q * list Q).

Definition mutPolynomialBoundedWrapper
    (individual : list Q) (eta : Q) (low up : list Q) (indpb : Q) : option (list Q) :=
  mask ← equal_bounds_mask low up;
  mutated ← mutPolynomialBounded individual eta (temp_low mask low) (temp_up mask up) indpb;
  reset_fixed mask low mutated.

Definition cxSimulatedBinaryBoundedWrapper
    (ind1 ind2 : list Q) (eta : Q) (low up : list Q) : option (list Q * list Q) :=
  mask ← equal_bounds_mask low up;
  children ← cxSimulatedBinaryBounded ind1 ind2 eta (temp_low mask low) (temp_up mask up);
  reset_fixed2 mask low children.1 children.2.
End Wrappers.

End Operators.

(** ** Seed individuals and the initial population *)

Module Seeds.

Section Dedup.
Context {H : Type} `{EqDecision H}.
(** [calc_hash] and [format_config] live in other modules of the
    repository; [format_config] may raise. *)
Variable calc_hash : list Q -> H.
Variable format_config : Config -> option Config.

(** [inds[k] = v] on an insertion-ordered dict: an existing key keeps its
    place and takes the new value, a new key goes last. *)
Fixpoint dict_set (k : H) (v : list Q) (inds : list (H * list Q)) : list (H * list Q) :=
  match inds with
  | [] => [(k, v)]
  | (k', v') :: rest =>
      if decide (k' = k) then (k', v) :: rest else (k', v') :: dict_set k v rest
  end.

(** Loop body with its [try]/[except Exception]: a seed that fails to load
    is logged and skipped. *)
Definition add_seed (inds : list (H * list Q)) (cfg : Config) : list (H * list Q) :=
  match formatted ← format_config cfg; Codec.config_to_individual formatted with
  | Some individual => dict_set (calc_hash individual) individual inds
  | None => inds
  end.

Definition configs_to_individuals (cfgs : list Config) : list (list Q) :=
  (foldl add_seed [] cfgs).*2.
End Dedup.

(** [max(min(x, bounds[z][1]), bounds[z][0]) for z, x in enumerate(seed)] *)
Definition clamp (bounds : list (Q * Q)) (zx : nat * Q) : option Q :=
  b ← bounds !! zx.1;
  Some (pymax (pymin zx.2 b.2) b.1).

Definition adjust (bounds : list (Q * Q)) (seed : list Q) : option (list Q) :=
  mapM (clamp bounds) (imap pair seed).

Section Population.
(** [toolbox.population(n)] is [tools.initRepeat(list, toolbox.individual, n)]:
    [n] calls of [create_individual]; the variable gives the result of the
    k-th call. *)
Variable create_individual : nat -> list Q.

Definition toolbox_population (n : nat) : list (list Q) :=
  create_individual <$> seq 0 n.

(** [population[i] = creator.Individual(adjusted)] for one [i]. *)
Definition overwrite (bounds : list (Q * Q)) (starting_individuals : list (list Q))
    (acc : option (list (list Q))) (i : nat) : option (list (list Q)) :=
  population ← acc;
  seed ← starting_individuals !! i;
  adjusted ← adjust bounds seed;
  setitem population i adjusted.

(** Lines 352-367 of [main]: returns the population size written back to
    the configuration and the initial population. *)
Definition initial_population (population_size : nat)
    (starting_individuals : list (list Q)) (bounds : list (Q * Q))
    : option (nat * list (list Q)) :=
  let population_size :=
    if decide (population_size < length starting_individuals)%nat
    then length starting_individuals else population_size in
  let population := toolbox_population population_size in
  population ←
    match starting_individuals with
    | [] => Some population
    | _ => foldl (overwrite bounds starting_individuals) (Some population)
                 (seq 0 (length starting_individuals))
    end;
  Some (population_size, population).
End Population.

End Seeds.

(** ** Generation budget *)

Module Budget.

(** [max(1, int(iters / len(population)))]: [/] is true division, [int]
    truncates toward zero; an empty population raises ZeroDivisionError. *)
Definition ngen (iters : Z) (population_len : nat) : option Z :=
  if decide (population_len = 0%nat) then None
  else Some (Z.max 1 (Z.quot iters (Z.of_nat population_len))).

(** The budget as the specification words it: [ceil(iters / population_size)]. *)
Definition spec_ngen (iters : Z) (population_size : nat) : Z :=
  (- ((- iters) / Z.of_nat population_size))%Z.

End Budget.

(** ** Decoding on the object store

    Configurations are nested mutable dicts; whether decoding can change the
    template depends on which dict objects the copy shares with it.  Here a
    Python value is a number, a string or a reference to a dict or list
    object of the store. *)

Module Store.

Definition loc := positive.

Inductive val :=
  | VNum (q : Q)
  | VStr (s : string)
  | VRef (r : loc).

Inductive obj :=
  | ODict (d : gmap string val)
  | OList (l : list val).

Definition empty_like (o : obj) : obj :=
  match o with ODict _ => ODict ∅ | OList _ => OList [] end.

(** State threaded by [copy.deepcopy]: the store and the memo, which maps an
    object already copied to its copy. *)
Definition copy_state : Type := gmap loc obj * gmap loc loc.

(** Copy the values of a container one after the other. *)
Fixpoint copy_all (copy : val -> copy_state -> option (val * copy_state))
    (vs : list val) (st : copy_state) : option (list val * copy_state) :=
  match vs with
  | [] => Some ([], st)
  | v :: vs =>
      r ← copy v st;
      rs ← copy_all copy vs r.2;
      Some (r.1 :: rs.1, rs.2)
  end.

(** [copy.deepcopy(x, memo)] for numbers, strings, dicts and lists.  Numbers
    and strings are returned as they are.  A dict or list gets a new object
    [y], recorded in the memo before its items are copied; the items are
    then copied in turn and stored in [y].  [fuel] bounds the nesting depth. *)
Fixpoint deepcopy (fuel : nat) (x : val) (st : copy_state) : option (val * copy_state) :=
  match fuel with
  | O => None
  | S fuel =>
      match x with
      | VRef r =>
          match st.2 !! r with
          | Some y => Some (VRef y, st)
          | None =>
              o ← st.1 !! r;
              let y := fresh (dom st.1) in
              let st1 := (<[y := empty_like o]> st.1, <[r := y]> st.2) in
              match o with
              | ODict d =>
                  rs ← copy_all (deepcopy fuel) (map_to_list d).*2 st1;
                  Some (VRef y,
                        (<[y := ODict (list_to_map (zip (map_to_list d).*1 rs.1))]> rs.2.1,
                         rs.2.2))
              | OList l =>
                  rs ← copy_all (deepcopy fuel) l st1;
                  Some (VRef y, (<[y := OList rs.1]> rs.2.1, rs.2.2))
              end
          end
      | _ => Some (x, st)
      end
  end.

(** [d[k]] and [d[k] = x] through a reference. *)
Definition getitem (h : gmap loc obj) (d : val) (k : string) : option val :=
  match d with
  | VRef r => match h !! r with Some (ODict m) => m !! k | _ => None end
  | _ => None
  end.

Definition setitem (h : gmap loc obj) (d : val) (k : string) (x : val)
    : option (gmap loc obj) :=
  match d with
  | VRef r =>
      match h !! r with
      | Some (ODict m) => Some (<[r := ODict (<[k := x]> m)]> h)
      | _ => None
      end
  | _ => None
  end.

(** [sorted(d)] *)
Definition sorted (h : gmap loc obj) (d : val) : option (list string) :=
  match d with
  | VRef r => match h !! r with Some (ODict m) => Some (sorted_keys m) | _ => None end
  | _ => None
  end.

(** [config["bot"][pside][key] = individual[i]; i += 1] *)
Definition write_param (individual : list Q) (config : val) (pside : string)
    (st : option (gmap loc obj * nat)) (key : string) : option (gmap loc obj * nat) :=
  hi ← st;
  v ← individual !! hi.2;
  b ← getitem hi.1 config "bot";
  side ← getitem hi.1 b pside;
  h ← setitem hi.1 side key (VNum v);
  Some (h, S hi.2).

Definition write_side (individual : list Q) (config : val) (keys : list string)
    (st : option (gmap loc obj * nat)) (pside : string) : option (gmap loc obj * nat) :=
  foldl (write_param individual config pside) st keys.

(** [individual_to_config] with an explicit template object; returns the
    reference to the new configuration and the store after the call. *)
Definition individual_to_config (fuel : nat) (individual : list Q) (template : loc)
    (h : gmap loc obj) : option (val * gmap loc obj) :=
  cs ← deepcopy fuel (VRef template) (h, ∅);
  let config := cs.1 in
  b ← getitem cs.2.1 config "bot";
  long ← getitem cs.2.1 b "long";
  keys ← sorted cs.2.1 long;
  hi ← foldl (write_side individual config keys) (Some (cs.2.1, 0%nat)) ["long"; "short"];
  Some (config, hi.1).

(** The same function with [copy.copy] in place of [deepcopy]: only the
    outer dict is new. *)
Definition shallow_copy (x : val) (h : gmap loc obj) : option (val * gmap loc obj) :=
  match x with
  | VRef r =>
      o ← h !! r;
      let y := fresh (dom h) in
      Some (VRef y, <[y := o]> h)
  | _ => Some (x, h)
  end.

Definition individual_to_config_shallow (individual : list Q) (template : loc)
    (h : gmap loc obj) : option (val * gmap loc obj) :=
  cs ← shallow_copy (VRef template) h;
  let config := cs.1 in
  b ← getitem cs.2 config "bot";
  long ← getitem cs.2 b "long";
  keys ← sorted cs.2 long;
  hi ← foldl (write_side individual config keys) (Some (cs.2, 0%nat)) ["long"; "short"];
  Some (config, hi.1).

(** Every object of [h0] is still there, with the same contents, in [h]. *)
Definition unchanged (h0 h : gmap loc obj) : Prop :=
  forall l o, h0 !! l = Some o -> h !! l = Some o.

(** A value that is not a reference into [h0]. *)
Definition new_val (h0 : gmap loc obj) (v : val) : Prop :=
  match v with VRef r => h0 !! r = None | _ => True end.

Definition obj_Forall (P : val -> Prop) (o : obj) : Prop :=
  match o with
  | ODict d => map_Forall (fun _ v => P v) d
  | OList l => Forall P l
  end.

(** Invariant of a copy started on the store [h0]: the objects of [h0] are
    untouched, the objects added since refer to added objects only, and so
    does the memo. *)
Definition copy_inv (h0 : gmap loc obj) (st : copy_state) : Prop :=
  unchanged h0 st.1 /\
  (forall l o, h0 !! l = None -> st.1 !! l = Some o -> obj_Forall (new_val h0) o) /\
  (forall r y, st.2 !! r = Some y -> h0 !! y = None).

(** ** The copy as an image of the original *)

(** [v'] is the copy of [v]: the same number or string, or the reference the
    memo gives for a reference. *)
Definition copied (memo : gmap loc loc) (v v' : val) : Prop :=
  match v with
  | VRef r => exists y, v' = VRef y /\ memo !! r = Some y
  | _ => v' = v
  end.

Definition obj_copied (memo : gmap loc loc) (o o' : obj) : Prop :=
  match o, o' with
  | ODict d, ODict d' => forall k, option_Forall2 (copied memo) (d !! k) (d' !! k)
  | OList l, OList l' => Forall2 (copied memo) l l'
  | _, _ => False
  end.

(** A value that is not a dangling reference, and a store without dangling
    references. *)
Definition old_val (h : gmap loc obj) (v : val) : Prop :=
  match v with VRef r => is_Some (h !! r) | _ => True end.

Definition closed (h : gmap loc obj) : Prop :=
  forall l o, h !! l = Some o -> obj_Forall (old_val h) o.

(** Invariant of a copy started on [h0], with the objects in [pending]
    still being filled: the memo is injective and sends objects of [h0] to
    objects added since, and every finished copy is the image of its
    original. *)
Definition iso_inv (h0 : gmap loc obj) (pending : gset loc) (st : copy_state) : Prop :=
  unchanged h0 st.1 /\
  (forall r y, st.2 !! r = Some y ->
     is_Some (h0 !! r) /\ is_Some (st.1 !! y) /\ h0 !! y = None) /\
  (forall r1 r2 y, st.2 !! r1 = Some y -> st.2 !! r2 = Some y -> r1 = r2) /\
  (forall r y, st.2 !! r = Some y -> r ∉ pending ->
     exists o o', h0 !! r = Some o /\ st.1 !! y = Some o' /\ obj_copied st.2 o o').

(** [st'] extends [st]: no object of [st] was modified, the memo only grew,
    and the new memo entries point to objects that were not in [st]. *)
Definition extends (st st' : copy_state) : Prop :=
  (forall l, is_Some (st.1 !! l) -> st'.1 !! l = st.1 !! l) /\
  st.2 ⊆ st'.2 /\
  (forall r y, st'.2 !! r = Some y -> st.2 !! r = Some y \/ st.1 !! y = None).

(** Nesting depth of a value: references nest at most [n] objects deep. *)
Fixpoint depth_le (h : gmap loc obj) (n : nat) (v : val) : Prop :=
  match v with
  | VRef r =>
      match n with
      | O => False
      | S n => exists o, h !! r = Some o /\ obj_Forall (depth_le h n) o
      end
  | _ => True
  end.

(** Decision procedures, for checking the predicates on a concrete store. *)
Global Instance old_val_dec h v : Decision (old_val h v).
Proof. destruct v; cbn; apply _. Defined.

Global Instance obj_Forall_dec (P : val -> Prop) `{!forall v, Decision (P v)} o :
  Decision (obj_Forall P o).
Proof. destruct o; cbn; apply _. Defined.

Global Instance depth_le_dec h n v : Decision (depth_le h n v).
Proof.
  revert v. induction n as [|n IH]; intros [| | r]; cbn; try apply _.
  destruct (h !! r) as [o|].
  - destruct (decide (obj_Forall (depth_le h n) o)) as [Hyes | Hno].
    + left. by exists o.
    + right. intros (o' & [= <-] & Ho). done.
  - right. by intros (o & Ho & _).
Defined.

(** The dict behind a reference, and the two parameter dicts of a
    configuration object. *)
Definition dict_at (h : gmap loc obj) (v : val) : option (gmap string val) :=
  match v with
  | VRef r => match h !! r with Some (ODict m) => Some m | _ => None end
  | _ => None
  end.

Definition sides (h : gmap loc obj) (config : val)
    : option (gmap string val * gmap string val) :=
  b ← getitem h config "bot";
  l ← getitem h b "long";
  s ← getitem h b "short";
  long ← dict_at h l;
  short ← dict_at h s;
  Some (long, short).

End Store.

(** ** The run: construction, evolution and teardown of the Evaluator

    [main]'s [try]/[except Exception]/[finally] around the life of the two
    shared-memory segments.  What happens inside the calls to other
    libraries is a [scenario]: each may complete, raise, or be cut short by
    SIGINT, whose handler calls [sys.exit(0)]. *)

Module Run.

Inductive exn := Exception | UnboundLocalError | SystemExit.

(** [except Exception] catches every exception but SystemExit. *)
Definition is_Exception (e : exn) : bool :=
  match e with SystemExit => false | _ => true end.

Inductive result (A : Type) :=
  | Return (a : A)
  | Raise (e : exn).
Arguments Return {A} a.
Arguments Raise {A} e.

(** A shared-memory segment: whether it exists, and how often it has been
    closed and unlinked. *)
Record shm := { created : bool; closes : nat; unlinks : nat }.

Record world := {
  shared_hlcs : shm;
  shared_preferred_coins : shm;
  evaluator_bound : bool
}.

Definition no_shm : shm := {| created := false; closes := 0; unlinks := 0 |}.
Definition initial : world :=
  {| shared_hlcs := no_shm; shared_preferred_coins := no_shm; evaluator_bound := false |}.

Definition M (A : Type) : Type := world -> result A * world.

Definition ret {A} (a : A) : M A := fun w => (Return a, w).
Definition raise {A} (e : exn) : M A := fun w => (Raise e, w).
Definition bind {A B} (m : M A) (k : A -> M B) : M B :=
  fun w => match m w with
           | (Return a, w1) => k a w1
           | (Raise e, w1) => (Raise e, w1)
           end.
Definition modify (f : world -> world) : M unit := fun w => (Return tt, f w).

Notation "m >> k" := (bind m (fun _ => k)) (at level 65, right associativity).

(** [try: body except Exception: handler] *)
Definition try_except {A} (body : M A) (handler : M A) : M A :=
  fun w => match body w with
           | (Raise e, w1) => if is_Exception e then handler w1 else (Raise e, w1)
           | r => r
           end.

(** [try: body finally: final]: an exception leaving [final] replaces the
    outcome of [body]. *)
Definition try_finally {A} (body : M A) (final : M unit) : M A :=
  fun w => match body w with
           | (r, w1) => match final w1 with
                        | (Return _, w2) => (r, w2)
                        | (Raise e, w2) => (Raise e, w2)
                        end
           end.

Inductive outcome := Completes | Fails | Interrupted.

Definition external (o : outcome) : M unit :=
  match o with
  | Completes => ret tt
  | Fails => raise Exception
  | Interrupted => raise SystemExit
  end.

Record scenario := {
  alloc_hlcs : outcome;
  alloc_preferred_coins : outcome;
  prep_backtest_args : outcome;
  evolve : outcome
}.

Definition create (s : shm) : shm :=
  {| created := true; closes := closes s; unlinks := unlinks s |}.
Definition close (s : shm) : shm :=
  {| created := created s; closes := S (closes s); unlinks := unlinks s |}.
Definition unlink (s : shm) : shm :=
  {| created := created s; closes := closes s; unlinks := S (unlinks s) |}.

Definition on_hlcs (f : shm -> shm) : M unit :=
  modify (fun w => {| shared_hlcs := f (shared_hlcs w);
                      shared_preferred_coins := shared_preferred_coins w;
                      evaluator_bound := evaluator_bound w |}).
Definition on_preferred_coins (f : shm -> shm) : M unit :=
  modify (fun w => {| shared_hlcs := shared_hlcs w;
                      shared_preferred_coins := f (shared_preferred_coins w);
                      evaluator_bound := evaluator_bound w |}).
Definition bind_evaluator : M unit :=
  modify (fun w => {| shared_hlcs := shared_hlcs w;
                      shared_preferred_coins := shared_preferred_coins w;
                      evaluator_bound := true |}).

(** [Evaluator.__init__]: both segments are created, then
    [prep_backtest_args] is called. *)
Definition Evaluator_init (sc : scenario) : M unit :=
  external (alloc_hlcs sc) >> on_hlcs create >>
  external (alloc_preferred_coins sc) >> on_preferred_coins create >>
  external (prep_backtest_args sc).

(** [Evaluator.cleanup] *)
Definition cleanup : M unit :=
  on_hlcs close >> on_hlcs unlink >>
  on_preferred_coins close >> on_preferred_coins unlink.

(** Reading the local variable [evaluator] in the [finally] block. *)
Definition evaluator : M unit :=
  fun w => if evaluator_bound w then (Return tt, w) else (Raise UnboundLocalError, w).

(** [main] from the [try] on: line 303 binds [evaluator] once the
    constructor has returned, lines 304-411 are [evolve]. *)
Definition main (sc : scenario) : M unit :=
  try_finally
    (try_except
       (Evaluator_init sc >> bind_evaluator >> external (evolve sc))
       (ret tt))
    (evaluator >> cleanup >> raise SystemExit).

(** A segment is released exactly once: it exists, was closed once and
    unlinked once. *)
Definition released_once (s : shm) : Prop :=
  created s = true /\ closes s = 1%nat /\ unlinks s = 1%nat.

(** A segment is leaked: it exists and was never unlinked. *)
Definition leaked (s : shm) : Prop :=
  created s = true /\ unlinks s = 0%nat.

End Run.

(** ** Concrete inputs used by the examples below *)

Module Ex.

Definition lims : gmap string Q :=
  list_to_map [("lower_bound_drawdown_worst", 1 # 4);
               ("lower_bound_equity_balance_diff_mean", 1 # 10);
               ("lower_bound_loss_profit_ratio", 1 # 2)].

Definition opt : OptimizeConfig :=
  {| limits := lims; scoring := ["mdg"; "sharpe_ratio"];
     population_size := 1; iters := 10 |}.

(** The run's configuration, used as the template. *)
Definition template : Config :=
  {| bot := list_to_map [("long", list_to_map [("n_positions", 1%Q); ("wallet_exposure", 2%Q)]);
                         ("short", list_to_map [("n_positions", 3%Q); ("wallet_exposure", 4%Q)])];
     optimize := opt;
     results_filename := "optimize_results/run.txt" |}.

(** A seed configuration with the template's parameter names, loaded from a
    file: it carries no results file name. *)
Definition seed : Config :=
  {| bot := list_to_map [("long", list_to_map [("wallet_exposure", 6%Q); ("n_positions", 5%Q)]);
                         ("short", list_to_map [("wallet_exposure", 8%Q); ("n_positions", 7%Q)])];
     optimize := opt;
     results_filename := "" |}.

(** The seed's parameters on the template's other fields. *)
Definition seeded_run : Config :=
  {| bot := bot seed; optimize := opt; results_filename := "optimize_results/run.txt" |}.

(** Worst drawdown 1.0: a disqualified record. *)
Definition ruined : gmap string Q :=
  list_to_map [("drawdown_worst", 1%Q); ("equity_balance_diff_mean", 1 # 5);
               ("equity_balance_diff_max", 1 # 2); ("loss_profit_ratio", 3 # 4);
               ("mdg", 1 # 100); ("sharpe_ratio", 2%Q)].

Definition healthy : gmap string Q :=
  list_to_map [("drawdown_worst", 1 # 2); ("equity_balance_diff_mean", 1 # 5);
               ("equity_balance_diff_max", 1 # 2); ("loss_profit_ratio", 3 # 4);
               ("mdg", 1 # 100); ("sharpe_ratio", 2%Q)].

(** A record within every bound. *)
Definition compliant : gmap string Q :=
  list_to_map [("drawdown_worst", 1 # 5); ("equity_balance_diff_mean", 1 # 20);
               ("equity_balance_diff_max", 1 # 20); ("loss_profit_ratio", 1 # 4)].

Definition zero_limits : gmap string Q :=
  list_to_map [("lower_bound_drawdown_worst", 0%Q);
               ("lower_bound_equity_balance_diff_mean", 0%Q);
               ("lower_bound_loss_profit_ratio", 0%Q)].

(** Worst drawdown above its bound by 0.001, nothing else violated. *)
Definition small_drawdown : gmap string Q :=
  list_to_map [("drawdown_worst", 1 # 1000); ("equity_balance_diff_mean", 0%Q);
               ("loss_profit_ratio", 0%Q)].

(** Loss/profit ratio above its bound by 1, nothing else violated. *)
Definition large_loss : gmap string Q :=
  list_to_map [("drawdown_worst", 0%Q); ("equity_balance_diff_mean", 0%Q);
               ("loss_profit_ratio", 1%Q)].

(** Loss/profit ratio above its bound by 0.05. *)
Definition small_loss : gmap string Q :=
  list_to_map [("drawdown_worst", 0%Q); ("equity_balance_diff_mean", 0%Q);
               ("loss_profit_ratio", 1 # 20)].

(** Operators that change every dimension: mutation adds 1 everywhere,
    crossover exchanges the parents and adds 1 everywhere. *)
Definition shift_all (individual : list Q) (eta : Q) (low up : list Q) (indpb : Q)
    : option (list Q) :=
  Some ((fun x => x + 1)%Q <$> individual).

Definition swap_all (ind1 ind2 : list Q) (eta : Q) (low up : list Q)
    : option (list Q * list Q) :=
  Some ((fun x => x + 1)%Q <$> ind2, (fun x => x + 1)%Q <$> ind1).

(** Bounds [{a: (0, 0), b: (1, 5)}]. *)
Definition low : list Q := [0%Q; 1%Q].
Definition up : list Q := [0%Q; 5%Q].
Definition bounds : list (Q * Q) := [(0%Q, 0%Q); (1%Q, 5%Q)].

(** A hash with collisions: the length of the genome. *)
Definition length_hash (individual : list Q) : nat := length individual.

Definition random_individual (k : nat) : list Q := [0%Q; inject_Z (Z.of_nat k)].

(** A store holding one configuration: object 1 is the template, object 2
    its "bot" dict, objects 3 and 4 the two sides. *)
Definition store : gmap Store.loc Store.obj :=
  list_to_map
    [(1%positive, Store.ODict (list_to_map [("bot", Store.VRef 2%positive);
                                            ("results_filename", Store.VStr "run.txt")]));
     (2%positive, Store.ODict (list_to_map [("long", Store.VRef 3%positive); ("short", Store.VRef 4%positive)]));
     (3%positive, Store.ODict (list_to_map [("n_positions", Store.VNum 1);
                                            ("wallet_exposure", Store.VNum 2)]));
     (4%positive, Store.ODict (list_to_map [("n_positions", Store.VNum 3);
                                            ("wallet_exposure", Store.VNum 4)]))].

(** [prep_backtest_args] raises inside [Evaluator.__init__], after both
    segments have been created. *)
Definition prep_fails : Run.scenario :=
  {| Run.alloc_hlcs := Run.Completes; Run.alloc_preferred_coins := Run.Completes;
     Run.prep_backtest_args := Run.Fails; Run.evolve := Run.Completes |}.

(** The evolution is interrupted by SIGINT. *)
Definition interrupted : Run.scenario :=
  {| Run.alloc_hlcs := Run.Completes; Run.alloc_preferred_coins := Run.Completes;
     Run.prep_backtest_args := Run.Completes; Run.evolve := Run.Interrupted |}.

End Ex.

(** ** Bounds *)

(** An individual lies within the bounds, dimension by dimension. *)
Definition within (lows ups individual : list Q) : Prop :=
  forall i a b x, lows !! i = Some a -> ups !! i = Some b -> individual !! i = Some x ->
    (a <= x <= b)%Q.

(** ** Starting configurations and random individuals *)

(** [config_to_individual(format_config(cfg, verbose=False))], the genome a
    seed configuration contributes; [None] when either call raises. *)
Definition seed_individual (format_config : Config -> option Config) (cfg : Config)
    : option (list Q) :=
  formatted ← format_config cfg; Codec.config_to_individual formatted.

Module Start.

(** [os.path.join(a, b)] on POSIX: an absolute [b] replaces [a]; otherwise
    [b] is appended, after a "/" unless [a] is empty or ends with one. *)
Definition slash : Ascii.ascii := Ascii.ascii_of_nat 47.

Definition starts_with_slash (b : string) : bool :=
  match b with
  | String c _ => bool_decide (c = slash)
  | EmptyString => false
  end.

Definition ends_with_slash (a : string) : bool :=
  match last (String.list_ascii_of_string a) with
  | Some c => bool_decide (c = slash)
  | None => false
  end.

Definition path_join (a b : string) : string :=
  if starts_with_slash b then b
  else if bool_decide (a = "") || ends_with_slash a then a +:+ b
  else a +:+ "/" +:+ b.

Section StartingConfigs.
(** The file system and the loader: [os.path.isdir], [os.listdir] and
    [load_hjson_config], which may raise. *)
Variable isdir : string -> bool.
Variable listdir : string -> list string.
Variable load_hjson_config : string -> option Config.

(** Loop body with its [try]/[except Exception]: a file that fails to load
    is logged and skipped. *)
Definition load_into (cfgs : list Config) (path : string) : list Config :=
  match load_hjson_config path with
  | Some cfg => cfgs ++ [cfg]
  | None => cfgs
  end.

Definition filenames (starting_configs : string) : list string :=
  if isdir starting_configs
  then path_join starting_configs <$> listdir starting_configs
  else [starting_configs].

Definition get_starting_configs (starting_configs : option string) : list Config :=
  match starting_configs with
  | None => []
  | Some path => foldl load_into [] (filenames path)
  end.
End StartingConfigs.

Section RandomIndividuals.
(** [np.random.uniform(low, high)]; the first argument numbers the draws in
    the order they are made. *)
Variable uniform : nat -> Q -> Q -> Q.

(** [create_individual]: one draw per dimension, [attr_i] drawing between the
    bounds of dimension [i].  The [k]-th individual uses the draws from
    [k * len(param_bounds)] on. *)
Definition create_individual (bounds : list (Q * Q)) (k : nat) : list Q :=
  imap (fun i (b : Q * Q) => uniform (k * length bounds + i) b.1 b.2) bounds.
End RandomIndividuals.

End Start.

(** ** Evaluator.evaluate *)

Module Evaluation.

Section Evaluate.
(** [get_template_live_config], as in [individual_to_config]. *)
Variable get_template_live_config : Config.
(** [prep_backtest_args] followed by [pbr.run_backtest] on the shared
    arrays, which are fixed once the evaluator is built: the analysis of a
    configuration, [None] when either call raises. *)
Variable run_backtest : Config -> option (gmap string Q).

(** The results file: the lines appended so far, each one an analysis and
    the configuration that gave it. *)
Definition results_file : Type := list (gmap string Q * Config).

(** [evaluate] decodes the individual over the evaluator's own
    configuration, backtests it, scores it and appends one line to the
    results file.  An exception before the write leaves the file as it was. *)
Definition evaluate (self_config : Config) (individual : list Q) (file : results_file)
    : option (Q * Q) * results_file :=
  match
    config ← Codec.individual_to_config get_template_live_config individual
               (Some self_config);
    analysis ← run_backtest config;
    w ← Evaluator.calc_fitness self_config analysis;
    Some (config, analysis, w)
  with
  | Some (config, analysis, (w_0, w_1)) =>
      let analysis := <["w_1" := w_1]> (<["w_0" := w_0]> analysis) in
      (Some (w_0, w_1), file ++ [(analysis, config)])
  | None => (None, file)
  end.

End Evaluate.

End Evaluation.

(** ** main: the template of the command line options *)

Module Options.

Section Template.
Context {V : Type}.

(** [del d[key]]: raises [KeyError] when the key is missing. *)
Definition del {A : Type} (key : string) (d : gmap string A) : option (gmap string A) :=
  match d !! key with
  | Some _ => Some (delete key d)
  | None => None
  end.

Definition keep_live_keys : list string :=
  ["approved_coins"; "minimum_coin_age_days"; "ohlcv_rolling_window";
   "relative_volume_filter_clip_pct"].

(** The loop over [sorted(template_config["live"])]: the list of keys is
    taken before the loop, the deletions act on the dictionary. *)
Definition strip_step (live : option (gmap string V)) (key : string)
    : option (gmap string V) :=
  live ← live;
  if bool_decide (key ∈ keep_live_keys) then Some live else del key live.

Definition strip_live (live : gmap string V) : option (gmap string V) :=
  foldl strip_step (Some live) (sorted_keys live).

(** Lines 262-272 of [main], on the template's sections. *)
Definition strip_template (template_config : gmap string (gmap string V))
    : option (gmap string (gmap string V)) :=
  template_config ← del "bot" template_config;
  live ← template_config !! "live";
  live ← strip_live live;
  Some (<["live" := live]> template_config).
End Template.

End Options.

(** ** main.py: is the Rust extension up to date? *)

Module Build.

Definition RUST_SOURCE_DIR : string := "passivbot-rust/".
Definition COMPILED_EXTENSION_NAME : string := "libpassivbot_rust".

Definition get_compiled_extension_paths : list string :=
  let possible_extensions := ["so"; "dylib"; "dll"; "pyd"; ""; "bundle"; "sl"] in
  (fun ext =>
     Start.path_join (Start.path_join (Start.path_join RUST_SOURCE_DIR "target") "release")
       (COMPILED_EXTENSION_NAME +:+ "." +:+ ext)) <$> possible_extensions.

Definition COMPILED_EXTENSION_PATHS : list string := get_compiled_extension_paths.

(** [s.endswith(suffix)]. *)
Definition endswith (s suffix : string) : bool :=
  bool_decide (String.list_ascii_of_string suffix `suffix_of` String.list_ascii_of_string s).

(** [max] of a non-empty sequence; [None] for the [ValueError] on an empty one. *)
Definition pymax_list (l : list Q) : option Q :=
  match l with
  | [] => None
  | x :: l => Some (foldl pymax x l)
  end.

Section Check.
(** [os.path.exists]; [os.path.getmtime], which raises [OSError] ([None]);
    [os.walk], of which the loop uses the root and the files. *)
Variable path_exists : string -> bool.
Variable getmtime : string -> option Q.
Variable walk : string -> list (string * list string).

(** The two nested loops, in the order they visit the files. *)
Definition source_files : list string :=
  '(root, files) ← walk RUST_SOURCE_DIR;
  file ← files;
  if endswith file ".rs" then [Start.path_join root file] else [].

(** The scan of the sources: [Some true] at the first file newer than the
    extension, [None] when [getmtime] raises before that. *)
Fixpoint newer_source (compiled_time : Q) (paths : list string) : option bool :=
  match paths with
  | [] => Some false
  | file_path :: paths =>
      t ← getmtime file_path;
      if Qltb compiled_time t then Some true else newer_source compiled_time paths
  end.

(** The body of the [try]. *)
Definition check_body : option bool :=
  let compiled_files := filter (fun path => Is_true (path_exists path)) COMPILED_EXTENSION_PATHS in
  match compiled_files with
  | [] => Some true
  | _ =>
      times ← mapM getmtime compiled_files;
      compiled_time ← pymax_list times;
      newer_source compiled_time source_files
  end.

(** [except Exception: return True]. *)
Definition check_compilation_needed : bool := default true check_body.

End Check.

End Build.

(** ** More example data *)

Module Sample.

(** A record within every bound that is not disqualified. *)
Definition sound : gmap string Q :=
  list_to_map [("drawdown_worst", 1 # 5); ("equity_balance_diff_mean", 1 # 20);
               ("equity_balance_diff_max", 1 # 2); ("loss_profit_ratio", 1 # 4);
               ("mdg", 1 # 100); ("sharpe_ratio", 2%Q)].

(** The parameters of [Ex.seed], written in the other order. *)
Definition seed_sorted : Config :=
  {| bot := list_to_map [("short", list_to_map [("n_positions", 7%Q); ("wallet_exposure", 8%Q)]);
                         ("long", list_to_map [("n_positions", 5%Q); ("wallet_exposure", 6%Q)])];
     optimize := Ex.opt;
     results_filename := "optimize_results/other.txt" |}.

(** The two sides of [Ex.template], and what decoding [9; 8; 7; 6] against
    it gives. *)
Definition long_side : gmap string Q :=
  list_to_map [("n_positions", 1%Q); ("wallet_exposure", 2%Q)].
Definition short_side : gmap string Q :=
  list_to_map [("n_positions", 3%Q); ("wallet_exposure", 4%Q)].

Definition decoded : Config :=
  {| bot := list_to_map [("long", list_to_map [("n_positions", 9%Q); ("wallet_exposure", 8%Q)]);
                         ("short", list_to_map [("n_positions", 7%Q); ("wallet_exposure", 6%Q)])];
     optimize := Ex.opt;
     results_filename := "optimize_results/run.txt" |}.




(** A sampler that always draws the lower end. *)
Definition lower_draw (d : nat) (low high : Q) : Q := low.

(** A backtest with the same analysis for every configuration, its scores
    under [Ex.template] (2624.99 and 2623, as the fractions the arithmetic
    leaves) and the analysis [evaluate] logs. *)
Definition backtest (config : Config) : option (gmap string Q) := Some Ex.healthy.

Definition w_0 : Q := 839996800 # 320000.
Definition w_1 : Q := 8393600 # 3200.

Definition logged : gmap string Q := <["w_1" := w_1]> (<["w_0" := w_0]> Ex.healthy).

End Sample.

(** * Properties *)

(** ** Python builtins on numbers *)

Lemma Qltb_lt x y : Qltb x y = true <-> (x < y)%Q.
Proof.
  unfold Qltb. rewrite negb_true_iff, <- not_true_iff_false, Qle_bool_iff.
  split; [apply Qnot_le_lt | apply Qlt_not_le].
Qed.

Lemma Qltb_ge x y : Qltb x y = false <-> (y <= x)%Q.
Proof.
  unfold Qltb. rewrite negb_false_iff. apply Qle_bool_iff.
Qed.

Lemma pymax_ge_l a b : (a <= pymax a b)%Q.
Proof.
  unfold pymax. destruct (Qltb a b) eqn:E.
  - apply Qlt_le_weak, Qltb_lt, E.
  - apply Qle_refl.
Qed.

Lemma pymax_ge_r a b : (b <= pymax a b)%Q.
Proof.
  unfold pymax. destruct (Qltb a b) eqn:E.
  - apply Qle_refl.
  - apply Qltb_ge, E.
Qed.

Lemma pymax_le_id a b : (b <= a)%Q -> pymax a b = a.
Proof.
  intros H. unfold pymax. apply Qltb_ge in H. now rewrite H.
Qed.

Lemma pymax_lt_id a b : (a < b)%Q -> pymax a b = b.
Proof.
  intros H. unfold pymax. apply Qltb_lt in H. now rewrite H.
Qed.

Lemma pymin_le_l a b : (pymin a b <= a)%Q.
Proof.
  unfold pymin. destruct (Qltb b a) eqn:E.
  - apply Qlt_le_weak, Qltb_lt, E.
  - apply Qle_refl.
Qed.

Lemma pymin_le_r a b : (pymin a b <= b)%Q.
Proof.
  unfold pymin. destruct (Qltb b a) eqn:E.
  - apply Qle_refl.
  - apply Qltb_ge, E.
Qed.

(** ** calc_fitness *)

Section CalcFitnessFacts.
Import Evaluator.

Lemma calc_modifier_Some lims analysis m :
  calc_modifier lims analysis = Some m <->
  exists v4 v3 v2,
    violation lims analysis (4%Z, "drawdown_worst") = Some v4 /\
    violation lims analysis (3%Z, "equity_balance_diff_mean") = Some v3 /\
    violation lims analysis (2%Z, "loss_profit_ratio") = Some v2 /\
    m = (0 + v4 + v3 + v2)%Q.
Proof.
  unfold calc_modifier, constrained. cbn [foldl].
  destruct (violation lims analysis (4%Z, "drawdown_worst")) as [v4|];
  destruct (violation lims analysis (3%Z, "equity_balance_diff_mean")) as [v3|];
  destruct (violation lims analysis (2%Z, "loss_profit_ratio")) as [v2|];
  cbn; split; try (intros [=]; subst; eauto 10); try (intros (?&?&?&?&?&?&?); congruence).
Qed.

Lemma violation_Some lims analysis ik v :
  violation lims analysis ik = Some v <->
  exists lb a, lims !! lower_bound_key ik.2 = Some lb /\ analysis !! ik.2 = Some a /\
    v = ((pymax lb a - lb) * inject_Z (10 ^ ik.1))%Q.
Proof.
  unfold violation.
  destruct (lims !! lower_bound_key ik.2) as [lb|]; cbn;
  [destruct (analysis !! ik.2) as [a|]; cbn|]; split;
  try (intros [=]; subst; eauto 10); try (intros (?&?&?&?&?); congruence).
Qed.

Lemma constrained_drawdown : (4%Z, "drawdown_worst") ∈ constrained.
Proof. unfold constrained. rewrite !elem_of_cons. auto. Qed.

Lemma constrained_diff_mean : (3%Z, "equity_balance_diff_mean") ∈ constrained.
Proof. unfold constrained. rewrite !elem_of_cons. auto. Qed.

Lemma constrained_loss_profit : (2%Z, "loss_profit_ratio") ∈ constrained.
Proof. unfold constrained. rewrite !elem_of_cons. auto. Qed.

Lemma excess_nonneg lb a : (0 <= pymax lb a - lb)%Q.
Proof. pose proof (pymax_ge_l lb a). lra. Qed.

Lemma excess_zero lb a : (a <= lb)%Q -> (pymax lb a - lb == 0)%Q.
Proof. intros H. rewrite (pymax_le_id _ _ H). lra. Qed.

Lemma excess_margin lb a : (lb < a)%Q -> (pymax lb a - lb == a - lb)%Q.
Proof. intros H. rewrite (pymax_lt_id _ _ H). lra. Qed.

Lemma violation_nonneg lims analysis ik v :
  ik ∈ constrained -> violation lims analysis ik = Some v -> (0 <= v)%Q.
Proof.
  intros Hin (lb & a & _ & _ & ->)%violation_Some.
  pose proof (excess_nonneg lb a) as Hx.
  unfold constrained in Hin.
  repeat (apply elem_of_cons in Hin as [-> | Hin]); [ | | | by apply elem_of_nil in Hin];
    cbn [fst]; apply Qmult_le_0_compat; try exact Hx; by vm_compute.
Qed.

(** The modifier does not read the scoring metrics: it is a function of the
    limits and of the three constrained statistics. *)
Lemma calc_modifier_total lims analysis :
  (forall ik, ik ∈ constrained ->
     is_Some (lims !! lower_bound_key ik.2) /\ is_Some (analysis !! ik.2)) ->
  is_Some (calc_modifier lims analysis).
Proof.
  intros Hk.
  assert (forall ik, ik ∈ constrained -> is_Some (violation lims analysis ik)) as Hv.
  { intros ik Hik. destruct (Hk ik Hik) as [[lb Hlb] [a Ha]].
    unfold violation. rewrite Hlb, Ha. by eexists. }
  destruct (Hv _ constrained_drawdown) as [v4 H4].
  destruct (Hv _ constrained_diff_mean) as [v3 H3].
  destruct (Hv _ constrained_loss_profit) as [v2 H2].
  eexists. apply calc_modifier_Some. eauto 10.
Qed.

Lemma disqualified_true analysis :
  disqualified analysis = Some true <->
  exists dd, analysis !! "drawdown_worst" = Some dd /\
    ((1 <= dd)%Q \/
     exists ebd, analysis !! "equity_balance_diff_max" = Some ebd /\ (ebd < 1 # 10)%Q).
Proof.
  unfold disqualified.
  destruct (analysis !! "drawdown_worst") as [dd|]; cbn.
  2: { split; [done | by intros (? & ? & _)]. }
  destruct (Qle_bool 1 dd) eqn:E.
  - split; [|done]. intros _. exists dd. split; [done|]. left. by apply Qle_bool_iff.
  - assert (~ (1 <= dd)%Q) as Hn.
    { intros ?%Qle_bool_iff. congruence. }
    destruct (analysis !! "equity_balance_diff_max") as [ebd|]; cbn.
    + split.
      * intros [= ?%Qltb_lt]. exists dd. split; [done|]. right. eauto.
      * intros (? & [= <-] & [? | (? & [= <-] & ?%Qltb_lt)]); [done|]. congruence.
    + split; [done|]. intros (? & [= <-] & [? | (? & ? & _)]); done.
Qed.

Lemma disqualified_false analysis :
  disqualified analysis = Some false <->
  exists dd ebd, analysis !! "drawdown_worst" = Some dd /\
    analysis !! "equity_balance_diff_max" = Some ebd /\
    (dd < 1)%Q /\ (1 # 10 <= ebd)%Q.
Proof.
  unfold disqualified.
  destruct (analysis !! "drawdown_worst") as [dd|]; cbn.
  2: { split; [done | by intros (? & ? & ? & _)]. }
  destruct (Qle_bool 1 dd) eqn:E.
  - split; [done|]. intros (? & ? & [= <-] & _ & Hlt & _).
    apply Qle_bool_iff in E. lra.
  - assert (dd < 1)%Q as Hn.
    { apply Qnot_le_lt. intros ?%Qle_bool_iff. congruence. }
    destruct (analysis !! "equity_balance_diff_max") as [ebd|]; cbn.
    + split.
      * intros [= ?%Qltb_ge]. eauto 10.
      * intros (? & ? & _ & [= <-] & _ & ?%Qltb_ge). congruence.
    + split; [done|]. by intros (? & ? & _ & ? & _).
Qed.

(** C1.  With [modifier] the constraint modifier of the record: when worst
    drawdown is at least 1.0, or maximum equity/balance divergence is below
    0.1, [calc_fitness] returns [(modifier, modifier)], whatever the scoring
    metrics are; otherwise it returns [modifier] minus the value of the first
    configured metric and [modifier] minus the value of the second. *)
Theorem calc_fitness_scores config analysis modifier dd :
  calc_modifier (limits (optimize config)) analysis = Some modifier ->
  analysis !! "drawdown_worst" = Some dd ->
  ((1 <= dd)%Q -> calc_fitness config analysis = Some (modifier, modifier)) /\
  (forall ebd, analysis !! "equity_balance_diff_max" = Some ebd -> (ebd < 1 # 10)%Q ->
     calc_fitness config analysis = Some (modifier, modifier)) /\
  (forall ebd s0 s1 v0 v1,
     analysis !! "equity_balance_diff_max" = Some ebd ->
     ~ ((1 <= dd)%Q \/ (ebd < 1 # 10)%Q) ->
     scoring (optimize config) !! 0%nat = Some s0 -> analysis !! s0 = Some v0 ->
     scoring (optimize config) !! 1%nat = Some s1 -> analysis !! s1 = Some v1 ->
     calc_fitness config analysis = Some (modifier - v0, modifier - v1)%Q).
Proof.
  intros Hm Hdd. unfold calc_fitness. rewrite Hm. cbn.
  split; [|split].
  - intros Hle.
    assert (disqualified analysis = Some true) as ->; [|done].
    apply disqualified_true. eauto.
  - intros ebd Hebd Hlt.
    assert (disqualified analysis = Some true) as ->; [|done].
    apply disqualified_true. eauto 10.
  - intros ebd s0 s1 v0 v1 Hebd Hnot Hs0 Hv0 Hs1 Hv1.
    assert (disqualified analysis = Some false) as ->.
    { apply disqualified_false. exists dd, ebd. repeat split; try done.
      - apply Qnot_le_lt. tauto.
      - apply Qnot_lt_le. tauto. }
    cbn. rewrite Hs0. cbn. rewrite Hv0. cbn. rewrite Hs1. cbn. by rewrite Hv1.
Qed.

(** C10.  The modifier is never negative; it is zero when no constrained
    statistic exceeds its lower bound; both scores of a disqualified
    evaluation are therefore non-negative. *)
Theorem modifier_nonneg lims analysis m :
  calc_modifier lims analysis = Some m ->
  (0 <= m)%Q /\
  ((forall ik lb a, ik ∈ constrained ->
      lims !! lower_bound_key ik.2 = Some lb -> analysis !! ik.2 = Some a -> (a <= lb)%Q) ->
   (m == 0)%Q) /\
  (forall config w0 w1,
     limits (optimize config) = lims ->
     disqualified analysis = Some true ->
     calc_fitness config analysis = Some (w0, w1) -> (0 <= w0)%Q /\ (0 <= w1)%Q).
Proof.
  intros Hm.
  pose proof Hm as (v4 & v3 & v2 & H4 & H3 & H2 & ->)%calc_modifier_Some.
  assert (0 <= 0 + v4 + v3 + v2)%Q as Hnn.
  { apply violation_nonneg in H4, H3, H2;
      auto using constrained_drawdown, constrained_diff_mean, constrained_loss_profit.
    lra. }
  split; [exact Hnn|]. split.
  - intros Hle.
    apply violation_Some in H4 as (lb4 & a4 & Hl4 & Ha4 & ->).
    apply violation_Some in H3 as (lb3 & a3 & Hl3 & Ha3 & ->).
    apply violation_Some in H2 as (lb2 & a2 & Hl2 & Ha2 & ->).
    rewrite (excess_zero lb4 a4), (excess_zero lb3 a3), (excess_zero lb2 a2).
    + lra.
    + by apply (Hle _ lb2 a2 constrained_loss_profit).
    + by apply (Hle _ lb3 a3 constrained_diff_mean).
    + by apply (Hle _ lb4 a4 constrained_drawdown).
  - intros config w0 w1 <- Hd. unfold calc_fitness. rewrite Hm, Hd. cbn.
    by intros [= <- <-].
Qed.

Lemma margin_Some lims analysis key d :
  margin lims analysis key = Some d <->
  exists lb a, lims !! lower_bound_key key = Some lb /\ analysis !! key = Some a /\
    d = (a - lb)%Q.
Proof.
  unfold margin.
  destruct (lims !! lower_bound_key key) as [lb|]; cbn;
  [destruct (analysis !! key) as [a|]; cbn|]; split;
  try (intros [=]; subst; eauto 10); try (intros (?&?&?&?&?); congruence).
Qed.

(** A statistic at or below its bound contributes nothing; one above its
    bound contributes its margin times its weight. *)
Lemma violation_margin lims analysis ik v d :
  violation lims analysis ik = Some v -> margin lims analysis ik.2 = Some d ->
  ((d <= 0)%Q -> (v == 0)%Q) /\
  ((0 < d)%Q -> (v == d * inject_Z (10 ^ ik.1))%Q).
Proof.
  intros (lb & a & Hlb & Ha & ->)%violation_Some (lb' & a' & Hlb' & Ha' & ->)%margin_Some.
  rewrite Hlb in Hlb'. rewrite Ha in Ha'. injection Hlb' as <-. injection Ha' as <-.
  split; intros Hd.
  - rewrite excess_zero by lra. lra.
  - rewrite excess_margin by lra. done.
Qed.

(** C4, as the code has it.  The modifier is a weighted sum, so a violation
    of the worst-drawdown bound by a margin [d] outweighs a record that
    exceeds only the loss/profit bound, by a margin [e], as far as the
    weights reach: whenever [100 * e < 10000 * d]. *)
Theorem drawdown_outweighs_loss_profit lims A B mA mB d e x y :
  calc_modifier lims A = Some mA ->
  calc_modifier lims B = Some mB ->
  margin lims A "drawdown_worst" = Some d -> (0 < d)%Q ->
  margin lims B "loss_profit_ratio" = Some e ->
  margin lims B "drawdown_worst" = Some x -> (x <= 0)%Q ->
  margin lims B "equity_balance_diff_mean" = Some y -> (y <= 0)%Q ->
  (100 * e < 10000 * d)%Q ->
  (mB < mA)%Q.
Proof.
  intros HA HB Hd Hdpos He Hx Hxle Hy Hyle Hw.
  apply calc_modifier_Some in HA as (a4 & a3 & a2 & HA4 & HA3 & HA2 & ->).
  apply calc_modifier_Some in HB as (b4 & b3 & b2 & HB4 & HB3 & HB2 & ->).
  pose proof (violation_nonneg _ _ _ _ constrained_diff_mean HA3) as Ha3.
  pose proof (violation_nonneg _ _ _ _ constrained_loss_profit HA2) as Ha2.
  destruct (violation_margin _ _ _ _ _ HA4 Hd) as [_ Ha4]. specialize (Ha4 Hdpos).
  destruct (violation_margin _ _ _ _ _ HB4 Hx) as [Hb4 _]. specialize (Hb4 Hxle).
  destruct (violation_margin _ _ _ _ _ HB3 Hy) as [Hb3 _]. specialize (Hb3 Hyle).
  destruct (violation_margin _ _ _ _ _ HB2 He) as [Hb2z Hb2].
  cbn [fst] in Ha4, Hb2.
  change (inject_Z (10 ^ 4)) with (10000 # 1) in Ha4.
  change (inject_Z (10 ^ 2)) with (100 # 1) in Hb2.
  rewrite Ha4, Hb4, Hb3.
  destruct (Qlt_le_dec 0 e) as [Hpos | Hneg].
  - rewrite (Hb2 Hpos). lra.
  - rewrite (Hb2z Hneg). lra.
Qed.

End CalcFitnessFacts.

(** ** Generation budget *)

Section BudgetFacts.
Import Budget.

Lemma quot_floor (a b : Z) : (0 <= a -> 0 < b -> a ÷ b = a / b)%Z.
Proof. intros. by apply Z.quot_div_nonneg. Qed.

Lemma quot_nonpos (a b : Z) : (a <= 0 -> 0 < b -> a ÷ b <= 0)%Z.
Proof.
  intros Ha Hb.
  replace a with (- - a)%Z by lia.
  rewrite Z.quot_opp_l by lia.
  assert (0 <= (- a) ÷ b)%Z; [|lia].
  apply Z.quot_pos; lia.
Qed.

Lemma ngen_Some iters n :
  n <> 0%nat -> ngen iters n = Some (Z.max 1 (iters ÷ Z.of_nat n)).
Proof. intros Hn. unfold ngen. by rewrite decide_False. Qed.

(** C5, as the code has it.  The budget handed to the evolutionary loop is
    computed once, from the iteration count and the length of the initial
    population: it is [floor(iters / n)], and 1 when that is smaller.  It
    coincides with [ceil(iters / n)] exactly when [iters] is positive and
    either below [n] or a multiple of [n]. *)
Theorem ngen_is_floor_at_least_one iters n :
  n <> 0%nat ->
  exists g, ngen iters n = Some g /\
    (1 <= g)%Z /\
    (iters < Z.of_nat n -> g = 1)%Z /\
    (Z.of_nat n <= iters -> g * Z.of_nat n <= iters < (g + 1) * Z.of_nat n)%Z /\
    (g = spec_ngen iters n <->
       (0 < iters /\ (iters < Z.of_nat n \/ iters mod Z.of_nat n = 0))%Z).
Proof.
  intros Hn. exists (Z.max 1 (iters ÷ Z.of_nat n)).
  split; [by apply ngen_Some|].
  set (b := Z.of_nat n). assert (0 < b)%Z as Hb by (unfold b; lia).
  unfold spec_ngen. fold b.
  destruct (Z.le_gt_cases iters 0) as [Hneg | Hpos].
  - pose proof (quot_nonpos iters b Hneg Hb) as Hq.
    rewrite Z.max_l by lia.
    split; [lia|]. split; [done|]. split; [lia|].
    assert (0 <= (- iters) / b)%Z by (apply Z.div_pos; lia).
    split; lia.
  - rewrite quot_floor by lia.
    pose proof (Z.div_mod iters b ltac:(lia)) as Hdm.
    pose proof (Z.mod_pos_bound iters b Hb) as Hmod.
    pose proof (Z.div_pos iters b ltac:(lia) Hb) as Hq0.
    destruct (Z.lt_ge_cases iters b) as [Hlt | Hge].
    + rewrite (Z.div_small iters b) by lia.
      rewrite Z.max_l by lia.
      split; [lia|]. split; [done|]. split; [lia|].
      assert ((- iters) / b = -1)%Z as ->; [|split; lia].
      symmetry. apply (Z.div_unique_pos (- iters) b (-1) (b - iters)); lia.
    + assert (1 <= iters / b)%Z as Hq1.
      { apply Z.div_le_lower_bound; lia. }
      rewrite Z.max_r by lia.
      split; [lia|]. split; [lia|]. split; [nia|].
      destruct (Z.eq_dec (iters mod b)%Z 0%Z) as [Hz | Hnz].
      * assert ((- iters) / b = - (iters / b))%Z as ->.
        { symmetry. apply (Z.div_unique_pos (- iters) b (- (iters / b)) 0); lia. }
        split; lia.
      * assert ((- iters) / b = - (iters / b) - 1)%Z as ->.
        { symmetry.
          apply (Z.div_unique_pos (- iters) b (- (iters / b) - 1)%Z (b - iters mod b)%Z); lia. }
        split; lia.
Qed.

End BudgetFacts.

(** ** Teardown of the shared-memory segments *)

Section RunFacts.
Import Run.

(** Once the Evaluator has been constructed, [main] releases each segment
    exactly once and leaves through [sys.exit(0)], whether the evolution
    completes, raises or is interrupted. *)
Lemma released_once_after_construction sc :
  alloc_hlcs sc = Completes ->
  alloc_preferred_coins sc = Completes ->
  prep_backtest_args sc = Completes ->
  (main sc initial).1 = Raise SystemExit /\
  released_once (shared_hlcs (main sc initial).2) /\
  released_once (shared_preferred_coins (main sc initial).2).
Proof.
  destruct sc as [a1 a2 p e]. cbn [alloc_hlcs alloc_preferred_coins prep_backtest_args].
  intros -> -> ->. destruct e; vm_compute; auto.
Qed.

(** No run releases a segment twice. *)
Lemma never_released_twice sc :
  (closes (shared_hlcs (main sc initial).2) <= 1)%nat /\
  (unlinks (shared_hlcs (main sc initial).2) <= 1)%nat /\
  (closes (shared_preferred_coins (main sc initial).2) <= 1)%nat /\
  (unlinks (shared_preferred_coins (main sc initial).2) <= 1)%nat.
Proof.
  destruct sc as [[] [] [] []]; vm_compute; auto.
Qed.

(** A constructor that does not return leaves [evaluator] unbound: the
    [finally] block then raises instead of cleaning up, and every segment
    created so far stays. *)
Lemma leak_when_constructor_fails sc :
  alloc_hlcs sc = Completes ->
  (alloc_preferred_coins sc <> Completes \/ prep_backtest_args sc <> Completes) ->
  (main sc initial).1 = Raise UnboundLocalError /\
  leaked (shared_hlcs (main sc initial).2).
Proof.
  destruct sc as [a1 a2 p e]. cbn [alloc_hlcs alloc_preferred_coins prep_backtest_args].
  intros -> [Hne | Hne]; destruct a2, p, e; try done; vm_compute; auto.
Qed.

End RunFacts.

(** ** Seed deduplication *)

Section DedupFacts.
Import Seeds.
Context {H : Type} `{EqDecision H}.
Variable calc_hash : list Q -> H.
Variable format_config : Config -> option Config.

Lemma dict_set_keys k v (inds : list (H * list Q)) :
  (dict_set k v inds).*1 = if decide (k ∈ inds.*1) then inds.*1 else inds.*1 ++ [k].
Proof.
  induction inds as [|[k' v'] inds IH]; cbn; [done|].
  destruct (decide (k' = k)) as [-> | Hne]; cbn.
  - rewrite decide_True; [done | by left].
  - rewrite IH. destruct (decide (k ∈ inds.*1)) as [Hin | Hnin].
    + rewrite decide_True; [done | by right].
    + rewrite decide_False; [done|]. intros [-> | ?]%elem_of_cons; done.
Qed.

Lemma dict_set_NoDup k v (inds : list (H * list Q)) :
  NoDup inds.*1 -> NoDup (dict_set k v inds).*1.
Proof.
  intros Hnd. rewrite dict_set_keys. case_decide; [done|].
  apply NoDup_app. split; [done|]. split; [|apply NoDup_singleton].
  intros x Hx ->%list_elem_of_singleton. done.
Qed.

Lemma dict_set_key_in k v (inds : list (H * list Q)) : k ∈ (dict_set k v inds).*1.
Proof.
  rewrite dict_set_keys. case_decide; [done|]. apply elem_of_app. right. by left.
Qed.

Lemma dict_set_keys_mono k v k0 (inds : list (H * list Q)) :
  k0 ∈ inds.*1 -> k0 ∈ (dict_set k v inds).*1.
Proof.
  intros Hin. rewrite dict_set_keys. case_decide; [done|]. apply elem_of_app. by left.
Qed.

Lemma dict_set_hashed k v (inds : list (H * list Q)) :
  k = calc_hash v ->
  Forall (fun kv => kv.1 = calc_hash kv.2) inds ->
  Forall (fun kv => kv.1 = calc_hash kv.2) (dict_set k v inds).
Proof.
  intros Hk. induction 1 as [|[k' v'] inds Hkv Hall IH]; cbn.
  - by repeat constructor.
  - destruct (decide (k' = k)) as [-> | Hne]; constructor; auto.
Qed.

(** Invariant of the loop: keys are pairwise distinct and each key is the
    hash of the individual stored under it. *)
Lemma add_seed_inv (inds : list (H * list Q)) cfg :
  NoDup inds.*1 /\ Forall (fun kv => kv.1 = calc_hash kv.2) inds ->
  NoDup (add_seed calc_hash format_config inds cfg).*1 /\
  Forall (fun kv => kv.1 = calc_hash kv.2) (add_seed calc_hash format_config inds cfg).
Proof.
  intros [Hnd Hh]. unfold add_seed.
  destruct (formatted ← format_config cfg; Codec.config_to_individual formatted); [|done].
  split; [by apply dict_set_NoDup | by apply dict_set_hashed].
Qed.

Lemma add_seed_keys_mono inds cfg k :
  k ∈ inds.*1 -> k ∈ (add_seed calc_hash format_config inds cfg).*1.
Proof.
  intros Hin. unfold add_seed.
  destruct (formatted ← format_config cfg; Codec.config_to_individual formatted); [|done].
  by apply dict_set_keys_mono.
Qed.

Lemma foldl_add_seed_inv cfgs (inds : list (H * list Q)) :
  NoDup inds.*1 /\ Forall (fun kv => kv.1 = calc_hash kv.2) inds ->
  NoDup (foldl (add_seed calc_hash format_config) inds cfgs).*1 /\
  Forall (fun kv => kv.1 = calc_hash kv.2)
         (foldl (add_seed calc_hash format_config) inds cfgs).
Proof.
  revert inds. induction cfgs as [|cfg cfgs IH]; intros inds Hinv; cbn; [done|].
  by apply IH, add_seed_inv.
Qed.

Lemma foldl_add_seed_keys_mono cfgs inds k :
  k ∈ inds.*1 -> k ∈ (foldl (add_seed calc_hash format_config) inds cfgs).*1.
Proof.
  revert inds. induction cfgs as [|cfg cfgs IH]; intros inds Hin; cbn; [done|].
  by apply IH, add_seed_keys_mono.
Qed.

Lemma foldl_add_seed_covers cfgs inds cfg formatted individual :
  cfg ∈ cfgs ->
  format_config cfg = Some formatted ->
  Codec.config_to_individual formatted = Some individual ->
  calc_hash individual ∈ (foldl (add_seed calc_hash format_config) inds cfgs).*1.
Proof.
  intros Hin Hf Hc. revert inds.
  induction cfgs as [|c cfgs IH]; intros inds; [by apply elem_of_nil in Hin|].
  cbn. apply elem_of_cons in Hin as [<- | Hin]; [|by apply IH].
  apply foldl_add_seed_keys_mono. unfold add_seed. rewrite Hf. cbn. rewrite Hc.
  apply dict_set_key_in.
Qed.

Lemma hashes_are_keys (inds : list (H * list Q)) :
  Forall (fun kv => kv.1 = calc_hash kv.2) inds -> calc_hash <$> inds.*2 = inds.*1.
Proof.
  induction 1 as [|[k v] inds Hkv Hall IH]; cbn in *; [done|]. by rewrite IH, Hkv.
Qed.

Lemma NoDup_count_one (h : H) (hs : list H) :
  NoDup hs -> h ∈ hs -> length (filter (fun x => x = h) hs) = 1%nat.
Proof.
  induction 1 as [|x hs Hx Hnd IH]; [by intros ?%elem_of_nil|].
  intros [-> | Hin]%elem_of_cons.
  - rewrite filter_cons_True by done. cbn. f_equal.
    apply length_zero_iff_nil, elem_of_nil_inv.
    intros y Hy. apply list_elem_of_filter in Hy as [-> Hy]. done.
  - rewrite filter_cons_False; [by apply IH|]. intros ->. done.
Qed.

(** C8.  The hashes of the individuals returned by [configs_to_individuals]
    are pairwise distinct, and every seed that loads is represented: for
    each such seed exactly one returned individual has its hash.  Seeds with
    equal hashes therefore yield a single individual. *)
Theorem seeds_deduplicated cfgs :
  NoDup (calc_hash <$> configs_to_individuals calc_hash format_config cfgs) /\
  forall cfg formatted individual,
    cfg ∈ cfgs ->
    format_config cfg = Some formatted ->
    Codec.config_to_individual formatted = Some individual ->
    length (filter (fun h => h = calc_hash individual)
              (calc_hash <$> configs_to_individuals calc_hash format_config cfgs)) = 1%nat.
Proof.
  unfold configs_to_individuals.
  destruct (foldl_add_seed_inv cfgs []) as [Hnd Hh].
  { split; [apply NoDup_nil_2 | constructor]. }
  rewrite (hashes_are_keys _ Hh). split; [done|].
  intros cfg formatted individual Hin Hf Hc.
  apply NoDup_count_one; [done|]. by eapply foldl_add_seed_covers.
Qed.

End DedupFacts.

(** ** Initial population *)

Section PopulationFacts.
Import Seeds.
Variable create_individual : nat -> list Q.

Lemma setitem_Some {A} (l : list A) i x :
  (i < length l)%nat -> setitem l i x = Some (<[i := x]> l).
Proof. intros Hi. unfold setitem. by rewrite decide_True. Qed.

Lemma setitem_inv {A} (l l' : list A) i x :
  setitem l i x = Some l' -> (i < length l)%nat /\ l' = <[i := x]> l.
Proof. unfold setitem. case_decide; [|done]. by intros [= <-]. Qed.

Lemma clamp_in_bounds x lo hi :
  (lo <= hi)%Q -> (lo <= pymax (pymin x hi) lo <= hi)%Q.
Proof.
  intros Hle. split; [apply pymax_ge_r|].
  unfold pymax. destruct (Qltb (pymin x hi) lo); [done | apply pymin_le_r].
Qed.

Lemma adjust_spec bounds seed :
  (length seed <= length bounds)%nat ->
  exists adjusted, adjust bounds seed = Some adjusted /\
    length adjusted = length seed /\
    forall z x lo hi, seed !! z = Some x -> bounds !! z = Some (lo, hi) ->
      adjusted !! z = Some (pymax (pymin x hi) lo).
Proof.
  intros Hlen. unfold adjust.
  destruct (mapM (clamp bounds) (imap pair seed)) as [adjusted|] eqn:E.
  - exists adjusted. split; [done|].
    apply mapM_Some in E. pose proof (Forall2_length _ _ _ E) as Hl.
    rewrite length_imap in Hl. split; [done|].
    intros z x lo hi Hx Hb.
    destruct (Forall2_lookup_l _ _ _ z (z, x) E) as (y & Hy & Hc).
    { rewrite list_lookup_imap, Hx. done. }
    unfold clamp in Hc. cbn in Hc. rewrite Hb in Hc. cbn in Hc. congruence.
  - exfalso. apply mapM_None in E. apply Exists_exists in E as ([z x] & Hin & Hc).
    apply list_elem_of_lookup in Hin as [i Hi].
    rewrite list_lookup_imap in Hi.
    destruct (seed !! i) as [x'|] eqn:Hx; [|done]. cbn in Hi. injection Hi as <- <-.
    apply lookup_lt_Some in Hx.
    destruct (lookup_lt_is_Some_2 bounds i ltac:(lia)) as [b Hb].
    unfold clamp in Hc. cbn in Hc. rewrite Hb in Hc. done.
Qed.

(** State of the population after the first [k] rounds of the overwrite
    loop: slots below [k] hold the adjusted seeds, the others are as
    sampled. *)
Lemma overwrite_prefix bounds seeds population k :
  Forall (fun seed => (length seed <= length bounds)%nat) seeds ->
  (k <= length seeds)%nat -> (length seeds <= length population)%nat ->
  exists population',
    foldl (overwrite bounds seeds) (Some population) (seq 0 k) = Some population' /\
    length population' = length population /\
    (forall i seed, (i < k)%nat -> seeds !! i = Some seed ->
       exists adjusted, adjust bounds seed = Some adjusted /\
         population' !! i = Some adjusted) /\
    (forall i, (k <= i)%nat -> population' !! i = population !! i).
Proof.
  intros Hall. induction k as [|k IH]; intros Hk Hlen.
  - exists population. cbn. split; [done|]. split; [done|]. split; [intros; lia | done].
  - destruct IH as (pop & Hfold & Hl & Hlow & Hhigh); [lia | done |].
    rewrite seq_S, foldl_app, Hfold. cbn.
    destruct (lookup_lt_is_Some_2 seeds k ltac:(lia)) as [seed Hseed].
    rewrite Hseed. cbn.
    destruct (adjust_spec bounds seed) as (adjusted & Hadj & _).
    { rewrite Forall_forall in Hall. apply Hall. by eapply list_elem_of_lookup_2. }
    rewrite Hadj. cbn. rewrite setitem_Some by lia.
    eexists. split; [done|]. split; [by rewrite length_insert|]. split.
    + intros i s Hi Hs. destruct (decide (i = k)) as [-> | Hne].
      * exists adjusted. rewrite Hseed in Hs. injection Hs as <-.
        split; [done|]. apply list_lookup_insert_eq. lia.
      * rewrite list_lookup_insert_ne by done. apply Hlow; [lia | done].
    + intros i Hi. rewrite list_lookup_insert_ne by lia. apply Hhigh. lia.
Qed.

Lemma length_toolbox_population n : length (toolbox_population create_individual n) = n.
Proof. unfold toolbox_population. by rewrite length_fmap, length_seq. Qed.

(** C7.  When there are more seeds than the configured population size, the
    size written back is the number of seeds, the population is created with
    that size, and slot [i] of the initial population is seed [i] with each
    value [x] of dimension [z] replaced by [max(min(x, high_z), low_z)],
    which lies within the bounds of that dimension. *)
Theorem seeds_fill_population population_size seeds bounds :
  (population_size < length seeds)%nat ->
  Forall (fun seed => (length seed <= length bounds)%nat) seeds ->
  exists population,
    initial_population create_individual population_size seeds bounds
      = Some (length seeds, population) /\
    length population = length seeds /\
    forall i seed, seeds !! i = Some seed ->
      exists adjusted, population !! i = Some adjusted /\
        length adjusted = length seed /\
        forall z x lo hi, seed !! z = Some x -> bounds !! z = Some (lo, hi) ->
          adjusted !! z = Some (pymax (pymin x hi) lo) /\
          ((lo <= hi)%Q -> (lo <= pymax (pymin x hi) lo <= hi)%Q).
Proof.
  intros Hmore Hall. unfold initial_population.
  rewrite decide_True by done.
  destruct (overwrite_prefix bounds seeds
              (toolbox_population create_individual (length seeds)) (length seeds))
    as (pop & Hfold & Hl & Hlow & _); [done | lia | by rewrite length_toolbox_population |].
  rewrite length_toolbox_population in Hl.
  exists pop. split.
  - destruct seeds as [|s0 seeds']; [cbn in Hmore; lia|]. by rewrite Hfold.
  - split; [done|]. intros i seed Hseed.
    destruct (Hlow i seed) as (adjusted & Hadj & Hpop); [by eapply lookup_lt_Some | done |].
    exists adjusted. split; [done|].
    destruct (adjust_spec bounds seed) as (adj' & Hadj' & Hlen & Hval).
    { rewrite Forall_forall in Hall. apply Hall. by eapply list_elem_of_lookup_2. }
    rewrite Hadj in Hadj'. injection Hadj' as <-.
    split; [done|]. intros z x lo hi Hx Hb. split; [by eapply Hval|].
    apply clamp_in_bounds.
Qed.

End PopulationFacts.

(** ** Bounded genetic operators *)

Section OperatorFacts.
Import Operators.

Lemma imap_pair_snoc (mask : list bool) b :
  imap pair (mask ++ [b]) = imap pair mask ++ [(length mask, b)].
Proof. rewrite imap_app. cbn. by rewrite Nat.add_0_r. Qed.

Lemma mask_lookup low up mask i lo hi :
  equal_bounds_mask low up = Some mask ->
  low !! i = Some lo -> up !! i = Some hi -> mask !! i = Some (Qeq_bool lo hi).
Proof.
  unfold equal_bounds_mask. case_decide; [|done]. intros [= <-] Hlo Hhi.
  rewrite lookup_zip_with, Hlo. cbn. by rewrite Hhi.
Qed.

Lemma mask_length low up mask :
  equal_bounds_mask low up = Some mask ->
  length low = length up /\ length mask = length low.
Proof.
  unfold equal_bounds_mask. case_decide; [|done]. intros [= <-].
  split; [done|]. rewrite length_zip_with. lia.
Qed.

(** What the reset loop leaves: a masked slot holds the lower bound, every
    other slot is as the loop found it. *)
Lemma reset_fixed_inv mask low individual individual' :
  reset_fixed mask low individual = Some individual' ->
  length individual' = length individual /\
  forall i, individual' !! i =
            match mask !! i with Some true => low !! i | _ => individual !! i end.
Proof.
  unfold reset_fixed. revert individual'.
  induction mask as [|b mask IH] using rev_ind; intros ind'.
  - cbn. intros [= <-]. split; [done|]. intros i. by rewrite lookup_nil.
  - rewrite imap_pair_snoc, foldl_app. cbn [foldl].
    destruct (foldl (reset1 low) (Some individual) (imap pair mask)) as [ind1|]; [|done].
    destruct (IH ind1 eq_refl) as [Hlen Hval]. unfold reset1. cbn.
    destruct b.
    + destruct (low !! length mask) as [x|] eqn:Hx; [|done]. cbn.
      intros [Hi ->]%setitem_inv. split; [by rewrite length_insert|].
      intros i. destruct (decide (i = length mask)) as [-> | Hne].
      * rewrite list_lookup_insert_eq by done.
        by rewrite lookup_app_r, Nat.sub_diag by done.
      * rewrite list_lookup_insert_ne by done. rewrite Hval.
        destruct (decide (i < length mask)%nat) as [Hlt | Hge].
        -- by rewrite lookup_app_l.
        -- rewrite (lookup_ge_None_2 mask) by lia.
           rewrite (lookup_ge_None_2 (mask ++ [true])); [done|].
           rewrite length_app. cbn. lia.
    + intros [= <-]. split; [done|]. intros i. rewrite Hval.
      destruct (decide (i < length mask)%nat) as [Hlt | Hge].
      * by rewrite lookup_app_l.
      * rewrite (lookup_ge_None_2 mask) by lia.
        destruct (decide (i = length mask)) as [-> | Hne].
        -- by rewrite lookup_app_r, Nat.sub_diag by done.
        -- rewrite (lookup_ge_None_2 (mask ++ [false])); [done|].
           rewrite length_app. cbn. lia.
Qed.

(** The reset loop completes when every masked index exists in both lists. *)
Lemma reset_fixed_total mask low individual :
  (length mask <= length low)%nat -> (length mask <= length individual)%nat ->
  is_Some (reset_fixed mask low individual).
Proof.
  unfold reset_fixed.
  induction mask as [|b mask IH] using rev_ind; intros Hl Hi; [by eexists|].
  rewrite length_app in Hl, Hi. cbn in Hl, Hi.
  rewrite imap_pair_snoc, foldl_app. cbn [foldl].
  destruct IH as [ind1 Hind1]; [lia..|].
  pose proof (reset_fixed_inv mask low individual ind1 Hind1) as [Hlen _].
  unfold reset_fixed in Hind1. rewrite Hind1. unfold reset1. cbn.
  destruct b; [|by eexists].
  destruct (lookup_lt_is_Some_2 low (length mask) ltac:(lia)) as [x ->]. cbn.
  rewrite setitem_Some by lia. by eexists.
Qed.

(** The two-individual loop is the one-individual loop run on each. *)
Lemma foldl_reset2 low ies (a b : option (list Q)) :
  foldl (reset2 low) (x ← a; y ← b; Some (x, y)) ies =
  x ← foldl (reset1 low) a ies; y ← foldl (reset1 low) b ies; Some (x, y).
Proof.
  revert a b. induction ies as [|[i e] ies IH]; intros a b; [done|].
  cbn [foldl]. rewrite <- IH. f_equal.
  unfold reset2, reset1. destruct a as [x|], b as [y|]; cbn; try done.
  - destruct e; [|done]. destruct (low !! i) as [v|]; [|done]. cbn.
    destruct (setitem x i v), (setitem y i v); done.
  - destruct e; [|done]. destruct (low !! i) as [v|]; [|done]. cbn.
    destruct (setitem x i v); done.
Qed.

Lemma reset_fixed2_split mask low ind1 ind2 :
  reset_fixed2 mask low ind1 ind2 =
  x ← reset_fixed mask low ind1; y ← reset_fixed mask low ind2; Some (x, y).
Proof. unfold reset_fixed2, reset_fixed. by rewrite <- foldl_reset2. Qed.

Section Wrapped.
Variable mutPolynomialBounded :
  list Q -> Q -> list Q -> list Q -> Q -> option (list Q).
Variable cxSimulatedBinaryBounded :
  list Q -> list Q -> Q -> list Q -> list Q -> option (list Q * list Q).

Lemma reset_fixed_dimension mask low up individual individual' :
  equal_bounds_mask low up = Some mask ->
  reset_fixed mask low individual = Some individual' ->
  length individual' = length individual /\
  (forall i lo hi, low !! i = Some lo -> up !! i = Some hi ->
     ((lo == hi)%Q -> individual' !! i = Some lo) /\
     (~ (lo == hi)%Q -> individual' !! i = individual !! i)) /\
  (forall i, (length low <= i)%nat -> individual' !! i = individual !! i).
Proof.
  intros Hmask [Hlen Hval]%reset_fixed_inv. split; [done|]. split.
  - intros i lo hi Hlo Hhi. rewrite Hval, (mask_lookup _ _ _ _ _ _ Hmask Hlo Hhi).
    split.
    + intros ->%Qeq_bool_iff. done.
    + intros Hne. destruct (Qeq_bool lo hi) eqn:E; [|done].
      by apply Qeq_bool_iff in E.
  - intros i Hi. rewrite Hval. apply mask_length in Hmask as [_ Hm].
    by rewrite (lookup_ge_None_2 mask) by lia.
Qed.

(** C3.  Whatever the DEAP operators compute, an offspring returned by a
    wrapper holds exactly [low[i]] in every dimension whose bounds are equal,
    and exactly what the operator produced in every other dimension. *)
Theorem fixed_dimensions_preserved eta low up :
  (forall individual indpb offspring,
     mutPolynomialBoundedWrapper mutPolynomialBounded individual eta low up indpb
       = Some offspring ->
     exists mask mutated,
       equal_bounds_mask low up = Some mask /\
       mutPolynomialBounded individual eta (temp_low mask low) (temp_up mask up) indpb
         = Some mutated /\
       length offspring = length mutated /\
       forall i lo hi, low !! i = Some lo -> up !! i = Some hi ->
         ((lo == hi)%Q -> offspring !! i = Some lo) /\
         (~ (lo == hi)%Q -> offspring !! i = mutated !! i)) /\
  (forall ind1 ind2 child1 child2,
     cxSimulatedBinaryBoundedWrapper cxSimulatedBinaryBounded ind1 ind2 eta low up
       = Some (child1, child2) ->
     exists mask crossed1 crossed2,
       equal_bounds_mask low up = Some mask /\
       cxSimulatedBinaryBounded ind1 ind2 eta (temp_low mask low) (temp_up mask up)
         = Some (crossed1, crossed2) /\
       length child1 = length crossed1 /\ length child2 = length crossed2 /\
       forall i lo hi, low !! i = Some lo -> up !! i = Some hi ->
         ((lo == hi)%Q -> child1 !! i = Some lo /\ child2 !! i = Some lo) /\
         (~ (lo == hi)%Q ->
            child1 !! i = crossed1 !! i /\ child2 !! i = crossed2 !! i)).
Proof.
  split.
  - intros individual indpb offspring. unfold mutPolynomialBoundedWrapper.
    destruct (equal_bounds_mask low up) as [mask|] eqn:Hmask; [|done]. cbn.
    destruct (mutPolynomialBounded _ _ _ _ _) as [mutated|] eqn:Hop; [|done]. cbn.
    intros Hreset. exists mask, mutated.
    destruct (reset_fixed_dimension _ _ _ _ _ Hmask Hreset) as (Hlen & Hdim & _).
    auto.
  - intros ind1 ind2 child1 child2. unfold cxSimulatedBinaryBoundedWrapper.
    destruct (equal_bounds_mask low up) as [mask|] eqn:Hmask; [|done]. cbn.
    destruct (cxSimulatedBinaryBounded _ _ _ _ _) as [[crossed1 crossed2]|] eqn:Hop;
      [|done]. cbn.
    rewrite reset_fixed2_split.
    destruct (reset_fixed mask low crossed1) as [c1|] eqn:H1; [|done]. cbn.
    destruct (reset_fixed mask low crossed2) as [c2|] eqn:H2; [|done]. cbn.
    intros [= <- <-]. exists mask, crossed1, crossed2.
    destruct (reset_fixed_dimension _ _ _ _ _ Hmask H1) as (Hl1 & Hd1 & _).
    destruct (reset_fixed_dimension _ _ _ _ _ Hmask H2) as (Hl2 & Hd2 & _).
    repeat split; try done.
    + by apply (Hd1 i lo hi).
    + by apply (Hd2 i lo hi).
    + by apply (Hd1 i lo hi).
    + by apply (Hd2 i lo hi).
Qed.

(** The wrappers return whenever the bounds have one length and the operator
    returns individuals at least that long. *)
Lemma mutation_wrapper_returns individual eta low up indpb :
  length low = length up ->
  (forall tl tu mutated,
     mutPolynomialBounded individual eta tl tu indpb = Some mutated ->
     (length low <= length mutated)%nat) ->
  is_Some (mutPolynomialBounded individual eta
             (temp_low (zip_with Qeq_bool low up) low)
             (temp_up (zip_with Qeq_bool low up) up) indpb) ->
  is_Some (mutPolynomialBoundedWrapper mutPolynomialBounded individual eta low up indpb).
Proof.
  intros Hlen Hlong [mutated Hop]. unfold mutPolynomialBoundedWrapper, equal_bounds_mask.
  rewrite decide_True by done. cbn. rewrite Hop. cbn.
  apply reset_fixed_total; rewrite length_zip_with; [lia|].
  pose proof (Hlong _ _ _ Hop). lia.
Qed.

Lemma crossover_wrapper_returns ind1 ind2 eta low up :
  length low = length up ->
  (forall tl tu crossed1 crossed2,
     cxSimulatedBinaryBounded ind1 ind2 eta tl tu = Some (crossed1, crossed2) ->
     (length low <= length crossed1)%nat /\ (length low <= length crossed2)%nat) ->
  is_Some (cxSimulatedBinaryBounded ind1 ind2 eta
             (temp_low (zip_with Qeq_bool low up) low)
             (temp_up (zip_with Qeq_bool low up) up)) ->
  is_Some (cxSimulatedBinaryBoundedWrapper cxSimulatedBinaryBounded ind1 ind2 eta low up).
Proof.
  intros Hlen Hlong [[crossed1 crossed2] Hop].
  unfold cxSimulatedBinaryBoundedWrapper, equal_bounds_mask.
  rewrite decide_True by done. cbn. rewrite Hop. cbn.
  destruct (Hlong _ _ _ _ Hop) as [Hl1 Hl2].
  rewrite reset_fixed2_split.
  destruct (reset_fixed_total (zip_with Qeq_bool low up) low crossed1) as [c1 ->];
    [rewrite length_zip_with; lia..|].
  destruct (reset_fixed_total (zip_with Qeq_bool low up) low crossed2) as [c2 ->];
    [rewrite length_zip_with; lia..|].
  by eexists.
Qed.

End Wrapped.
End OperatorFacts.

(** ** Genome codec *)

Section CodecFacts.
Import Codec.

Global Instance item_le_total {A} : Total (@item_le A).
Proof. intros x y. unfold item_le. apply (total String.le). Qed.

Lemma sorted_keys_perm {A} (d : gmap string A) : sorted_keys d ≡ₚ (map_to_list d).*1.
Proof. apply merge_sort_Permutation. Qed.

Lemma sorted_items_perm {A} (d : gmap string A) : sorted_items d ≡ₚ map_to_list d.
Proof. apply merge_sort_Permutation. Qed.

Lemma sorted_keys_Sorted {A} (d : gmap string A) : Sorted String.le (sorted_keys d).
Proof. apply Sorted_merge_sort. apply _. Qed.

Lemma sorted_keys_NoDup {A} (d : gmap string A) : NoDup (sorted_keys d).
Proof. rewrite sorted_keys_perm. apply NoDup_fst_map_to_list. Qed.

Lemma elem_of_sorted_keys {A} (d : gmap string A) k : k ∈ sorted_keys d <-> k ∈ dom d.
Proof.
  rewrite sorted_keys_perm, elem_of_dom, list_elem_of_fmap. split.
  - intros ([k' v] & -> & Hin%elem_of_map_to_list). by eexists.
  - intros [v Hv]. exists (k, v). split; [done|]. by apply elem_of_map_to_list.
Qed.

Lemma elem_of_sorted_items {A} (d : gmap string A) k v :
  (k, v) ∈ sorted_items d <-> d !! k = Some v.
Proof. rewrite sorted_items_perm. apply elem_of_map_to_list. Qed.

(** The keys of the sorted items are the sorted keys. *)
Lemma sorted_items_keys {A} (d : gmap string A) : (sorted_items d).*1 = sorted_keys d.
Proof.
  apply (Sorted_unique String.le).
  - apply (Sorted_fmap fst item_le String.le); [done|].
    apply Sorted_merge_sort. apply _.
  - apply sorted_keys_Sorted.
  - by rewrite sorted_items_perm, sorted_keys_perm.
Qed.

(** Dicts with the same keys list them in the same order. *)
Lemma sorted_keys_dom {A B} (d1 : gmap string A) (d2 : gmap string B) :
  dom d1 = dom d2 -> sorted_keys d1 = sorted_keys d2.
Proof.
  intros Hdom. apply (Sorted_unique String.le); try apply sorted_keys_Sorted.
  apply NoDup_Permutation; try apply sorted_keys_NoDup.
  intros k. by rewrite !elem_of_sorted_keys, Hdom.
Qed.

(** Assigning a list of items to a dict. *)
Lemma lookup_foldl_insert {A} (kvs : list (string * A)) (m : gmap string A) k :
  NoDup kvs.*1 ->
  foldl (fun m kv => <[kv.1 := kv.2]> m) m kvs !! k =
  match list_find (fun kv => kv.1 = k) kvs with
  | Some (_, kv) => Some kv.2
  | None => m !! k
  end.
Proof.
  revert m. induction kvs as [|[k' v'] kvs IH]; intros m Hnd; [done|].
  apply NoDup_cons in Hnd as [Hk' Hnd]. cbn [foldl]. rewrite IH by done.
  cbn. destruct (decide (k' = k)) as [-> | Hne].
  - cbn. destruct (list_find _ kvs) as [[j [k2 v2]]|] eqn:E.
    + apply list_find_Some in E as (Hj & Hk2 & _). cbn in Hk2. subst k2.
      exfalso. apply Hk'. apply list_elem_of_fmap. exists (k, v2).
      split; [done|]. by eapply list_elem_of_lookup_2.
    + cbn. apply lookup_insert_eq.
  - destruct (list_find _ kvs) as [[j [k2 v2]]|]; cbn; [done|].
    by apply lookup_insert_ne.
Qed.

Lemma foldl_insert_items {A} (d m : gmap string A) :
  dom m = dom d ->
  foldl (fun m kv => <[kv.1 := kv.2]> m) m (sorted_items d) = d.
Proof.
  intros Hdom. apply map_eq. intros k.
  rewrite lookup_foldl_insert by (rewrite sorted_items_keys; apply sorted_keys_NoDup).
  destruct (list_find _ (sorted_items d)) as [[j [k2 v2]]|] eqn:E.
  - apply list_find_Some in E as (Hj & Hk2 & _). cbn in Hk2. subst k2. cbn.
    symmetry. apply elem_of_sorted_items. by eapply list_elem_of_lookup_2.
  - destruct (d !! k) as [v|] eqn:Hv.
    + exfalso. apply list_find_None in E. rewrite Forall_forall in E.
      apply (E (k, v)); [|done]. by apply elem_of_sorted_items.
    + apply not_elem_of_dom. rewrite Hdom. by apply not_elem_of_dom.
Qed.

(** The inner loop over one side: the items written are the keys paired with
    the slice of the genome that starts at [i]. *)
Lemma write_side_spec individual keys config i pside side :
  bot config !! pside = Some side ->
  (i + length keys <= length individual)%nat ->
  write_side individual keys (Some (config, i)) pside =
  Some ({| bot := <[pside := foldl (fun m kv => <[kv.1 := kv.2]> m) side
                               (zip keys (drop i individual))]> (bot config);
           optimize := optimize config;
           results_filename := results_filename config |},
        (i + length keys)%nat).
Proof.
  unfold write_side. revert config i side.
  induction keys as [|k keys IH]; intros config i side Hside Hlen.
  - cbn. rewrite insert_id by done. rewrite Nat.add_0_r. by destruct config.
  - cbn [foldl length] in *. unfold write_param at 2. cbn.
    destruct (lookup_lt_is_Some_2 individual i ltac:(lia)) as [v Hv].
    rewrite Hv. cbn. unfold set_param. rewrite Hside. cbn.
    rewrite (IH _ (S i) (<[k := v]> side)); cbn.
    + rewrite insert_insert_eq. rewrite (drop_S _ _ _ Hv). cbn.
      do 2 f_equal. lia.
    + apply lookup_insert_eq.
    + lia.
Qed.

Lemma zip_keys_values_app {A} (xs : list (string * A)) keys (rest : list A) :
  keys = xs.*1 -> zip keys (xs.*2 ++ rest) = xs.
Proof. intros ->. induction xs as [|[k v] xs IH]; cbn; [done|]. by rewrite IH. Qed.

Lemma zip_keys_values {A} (xs : list (string * A)) keys :
  keys = xs.*1 -> zip keys xs.*2 = xs.
Proof. intros Hk. rewrite <- (app_nil_r xs.*2). by apply zip_keys_values_app. Qed.

(** What decoding the encoding of [config] against [template] returns: the
    template with the values of its two sides replaced by those of [config]. *)
Lemma decode_encode_overlay get_template config template cl cs tl ts :
  bot config !! "long" = Some cl -> bot config !! "short" = Some cs ->
  bot template !! "long" = Some tl -> bot template !! "short" = Some ts ->
  dom cl = dom tl -> dom cs = dom ts -> dom tl = dom ts ->
  exists individual,
    config_to_individual config = Some individual /\
    individual_to_config get_template individual (Some template) =
    Some {| bot := <["short" := cs]> (<["long" := cl]> (bot template));
            optimize := optimize template;
            results_filename := results_filename template |}.
Proof.
  intros Hcl Hcs Htl Hts Hdl Hds Hdt.
  exists ((sorted_items cl).*2 ++ (sorted_items cs).*2).
  unfold config_to_individual. rewrite Hcl, Hcs. cbn. split; [done|].
  unfold individual_to_config. cbn [default from_option id]. rewrite Htl. cbn.
  assert (sorted_keys tl = (sorted_items cl).*1) as Hkl.
  { rewrite sorted_items_keys. by apply sorted_keys_dom. }
  assert (sorted_keys tl = (sorted_items cs).*1) as Hks.
  { rewrite sorted_items_keys. apply sorted_keys_dom. congruence. }
  assert (length (sorted_keys tl) = length (sorted_items cl).*2) as Hlen.
  { by rewrite Hkl, !length_fmap. }
  rewrite (write_side_spec _ _ _ _ _ tl Htl).
  2: { rewrite length_app, <- Hlen. lia. }
  rewrite drop_0, (zip_keys_values_app (sorted_items cl) _ _ Hkl).
  rewrite foldl_insert_items by done.
  rewrite (write_side_spec _ _ _ _ _ ts).
  2: { cbn. by rewrite lookup_insert_ne. }
  2: { rewrite length_app, <- Hlen. cbn. rewrite Hks at 2. rewrite !length_fmap. lia. }
  cbn [Nat.add bot optimize results_filename]. rewrite Hlen, drop_app_length.
  rewrite (zip_keys_values (sorted_items cs) _ Hks).
  rewrite foldl_insert_items by congruence. done.
Qed.

(** C2, as the code has it.  Decoding writes the genome into a copy of the
    template, so everything outside the two parameter dicts comes from the
    template: the round trip returns [config] when, besides the parameter
    names matching, [config] and the template agree on those other fields. *)
Theorem decode_encode_roundtrip get_template config template cl cs tl ts :
  bot config !! "long" = Some cl -> bot config !! "short" = Some cs ->
  bot template !! "long" = Some tl -> bot template !! "short" = Some ts ->
  dom cl = dom tl -> dom cs = dom ts -> dom tl = dom ts ->
  (forall side, side <> "long" -> side <> "short" ->
     bot config !! side = bot template !! side) ->
  optimize config = optimize template ->
  results_filename config = results_filename template ->
  exists individual,
    config_to_individual config = Some individual /\
    individual_to_config get_template individual (Some template) = Some config.
Proof.
  intros Hcl Hcs Htl Hts Hdl Hds Hdt Hother Hopt Hres.
  destruct (decode_encode_overlay get_template config template cl cs tl ts)
    as (individual & Henc & Hdec); try done.
  exists individual. split; [done|]. rewrite Hdec. f_equal.
  destruct config as [b o r]. cbn in *. subst o r. f_equal.
  apply map_eq. intros side.
  destruct (decide (side = "short")) as [-> | Hns].
  { by rewrite lookup_insert_eq. }
  rewrite lookup_insert_ne by done.
  destruct (decide (side = "long")) as [-> | Hnl].
  { by rewrite lookup_insert_eq. }
  rewrite lookup_insert_ne by done. symmetry. by apply Hother.
Qed.

End CodecFacts.

(** ** Decoding leaves the template alone *)

Section StoreFacts.
Import Store.

Lemma copy_inv_start h : copy_inv h (h, ∅).
Proof.
  split; [by intros l o | split].
  - intros l o Hnone Hsome. cbn in Hsome. congruence.
  - intros r y Hm. cbn in Hm. by rewrite lookup_empty in Hm.
Qed.

Lemma fresh_loc_new (h0 h : gmap loc obj) :
  unchanged h0 h -> h0 !! fresh (dom h) = None.
Proof.
  intros Hun. destruct (h0 !! fresh (dom h)) as [o|] eqn:E; [|done].
  apply Hun in E. exfalso. apply (is_fresh (dom h)). apply elem_of_dom. by eexists.
Qed.

(** Storing an object made of new values at a new location. *)
Lemma copy_inv_store h0 st y o :
  copy_inv h0 st -> h0 !! y = None -> obj_Forall (new_val h0) o ->
  copy_inv h0 (<[y := o]> st.1, st.2).
Proof.
  intros (Hun & Hcl & Hmemo) Hy Ho. split; [|split]; cbn.
  - intros l o' Hl. rewrite lookup_insert_ne by congruence. by apply Hun.
  - intros l o' Hl. destruct (decide (y = l)) as [-> | Hne].
    + rewrite lookup_insert_eq. by intros [= <-].
    + rewrite lookup_insert_ne by done. by apply Hcl.
  - done.
Qed.

Lemma copy_all_inv h0 copy :
  (forall x st x' st', copy_inv h0 st -> copy x st = Some (x', st') ->
     copy_inv h0 st' /\ new_val h0 x') ->
  forall vs st vs' st', copy_inv h0 st -> copy_all copy vs st = Some (vs', st') ->
    copy_inv h0 st' /\ Forall (new_val h0) vs'.
Proof.
  intros Hcopy. induction vs as [|v vs IH]; intros st vs' st' Hinv; cbn.
  - intros [= <- <-]. by split.
  - destruct (copy v st) as [[x1 st1]|] eqn:E1; [|done]. cbn.
    destruct (copy_all copy vs st1) as [[xs st2]|] eqn:E2; [|done]. cbn.
    intros [= <- <-].
    destruct (Hcopy _ _ _ _ Hinv E1) as [Hinv1 Hx1].
    destruct (IH _ _ _ Hinv1 E2) as [Hinv2 Hxs].
    split; [done | by constructor].
Qed.

Lemma list_to_map_zip_Forall (P : val -> Prop) (ks : list string) (vs : list val) :
  Forall P vs -> map_Forall (fun _ v => P v) (list_to_map (zip ks vs) : gmap string val).
Proof.
  intros Hvs k v Hkv. apply elem_of_list_to_map_2 in Hkv.
  apply elem_of_zip_r in Hkv. rewrite Forall_forall in Hvs. by apply Hvs.
Qed.

(** [deepcopy] only adds objects, and its result refers to none of the
    objects that were there when the copy started. *)
Lemma deepcopy_inv h0 fuel :
  forall x st x' st', copy_inv h0 st -> deepcopy fuel x st = Some (x', st') ->
    copy_inv h0 st' /\ new_val h0 x'.
Proof.
  induction fuel as [|fuel IH]; intros x st x' st' Hinv; [done|].
  cbn [deepcopy]. destruct x as [q | s | r]; try (intros [= <- <-]; by split).
  destruct (st.2 !! r) as [y|] eqn:Hmemo.
  { intros [= <- <-]. split; [done|]. destruct Hinv as (_ & _ & Hm). by eapply Hm. }
  destruct (st.1 !! r) as [o|] eqn:Ho; [|done]. cbn.
  set (y := fresh (dom st.1)).
  assert (h0 !! y = None) as Hy by (apply fresh_loc_new, Hinv).
  assert (copy_inv h0 (<[y := empty_like o]> st.1, <[r := y]> st.2)) as Hinv1.
  { destruct (copy_inv_store h0 st y (empty_like o) Hinv Hy) as (Hun & Hcl & Hm).
    - destruct o; cbn; [apply map_Forall_empty | constructor].
    - split; [done | split; [done|]]. cbn. intros r' y' Hr'.
      destruct (decide (r = r')) as [-> | Hne].
      + rewrite lookup_insert_eq in Hr'. by injection Hr' as <-.
      + rewrite lookup_insert_ne in Hr' by done. destruct Hinv as (_ & _ & Hm0).
        by eapply Hm0. }
  destruct o as [d | l].
  - destruct (copy_all _ _ _) as [[vs st2]|] eqn:E; [|done]. cbn.
    intros [= <- <-].
    destruct (copy_all_inv h0 _ IH _ _ _ _ Hinv1 E) as [Hinv2 Hvs].
    split; [|done]. apply (copy_inv_store h0 st2); [done..|].
    cbn. by apply list_to_map_zip_Forall.
  - destruct (copy_all _ _ _) as [[vs st2]|] eqn:E; [|done]. cbn.
    intros [= <- <-].
    destruct (copy_all_inv h0 _ IH _ _ _ _ Hinv1 E) as [Hinv2 Hvs].
    split; [|done]. by apply (copy_inv_store h0 st2).
Qed.

(** Reading through a new reference gives a new value. *)
Lemma getitem_new h0 st d k v :
  copy_inv h0 st -> new_val h0 d -> getitem st.1 d k = Some v -> new_val h0 v.
Proof.
  intros (_ & Hcl & _) Hd. unfold getitem. destruct d as [| | r]; try done.
  destruct (st.1 !! r) as [[m | ?]|] eqn:Hr; try done.
  intros Hk. cbn in Hd. by apply (Hcl r (ODict m) Hd Hr k v).
Qed.

(** Assigning a number through a new reference keeps the invariant. *)
Lemma setitem_inv_new h0 st d k q h' :
  copy_inv h0 st -> new_val h0 d -> setitem st.1 d k (VNum q) = Some h' ->
  copy_inv h0 (h', st.2).
Proof.
  intros Hinv Hd. unfold setitem. destruct d as [| | r]; try done.
  destruct (st.1 !! r) as [[m | ?]|] eqn:Hr; try done.
  intros [= <-]. cbn in Hd. apply copy_inv_store; [done..|].
  cbn. apply map_Forall_insert_2; [done|].
  destruct Hinv as (_ & Hcl & _). apply (Hcl r (ODict m) Hd Hr).
Qed.

Lemma write_param_inv h0 memo individual config pside key h i h' i' :
  new_val h0 config -> copy_inv h0 (h, memo) ->
  write_param individual config pside (Some (h, i)) key = Some (h', i') ->
  copy_inv h0 (h', memo).
Proof.
  intros Hc Hinv. unfold write_param. cbn.
  destruct (individual !! i) as [q|]; [|done]. cbn.
  destruct (getitem h config "bot") as [b|] eqn:Hb; [|done]. cbn.
  destruct (getitem h b pside) as [side|] eqn:Hs; [|done]. cbn.
  destruct (setitem h side key (VNum q)) as [h1|] eqn:Hw; [|done]. cbn.
  intros [= <- <-].
  pose proof (getitem_new h0 (h, memo) _ _ _ Hinv Hc Hb) as Hbn.
  pose proof (getitem_new h0 (h, memo) _ _ _ Hinv Hbn Hs) as Hsn.
  apply (setitem_inv_new h0 (h, memo) _ _ _ _ Hinv Hsn Hw).
Qed.

Lemma write_side_inv h0 memo individual config keys pside :
  new_val h0 config ->
  forall h i h' i', copy_inv h0 (h, memo) ->
    write_side individual config keys (Some (h, i)) pside = Some (h', i') ->
    copy_inv h0 (h', memo).
Proof.
  intros Hc. unfold write_side.
  induction keys as [|k keys IH] using rev_ind; intros h i h' i' Hinv.
  - cbn. by intros [= <- <-].
  - rewrite foldl_app. cbn [foldl].
    destruct (foldl _ (Some (h, i)) keys) as [[h1 i1]|] eqn:E; [|done].
    intros Hw. eapply write_param_inv; [done | | exact Hw]. by eapply IH.
Qed.

Lemma write_side_None individual config keys pside :
  write_side individual config keys None pside = None.
Proof. unfold write_side. by induction keys. Qed.

(** C9.  Every object in the store before [individual_to_config] is called
    is in the store afterwards with the same contents, so the template and
    all dicts reachable from it are as they were; the configuration returned
    is an object that did not exist before. *)
Theorem decode_preserves_template fuel individual template h config h' :
  individual_to_config fuel individual template h = Some (config, h') ->
  unchanged h h' /\ exists c, config = VRef c /\ h !! c = None.
Proof.
  unfold individual_to_config.
  destruct (deepcopy fuel (VRef template) (h, ∅)) as [[cfg [h1 memo]]|] eqn:Hcopy; [|done].
  cbn.
  destruct (deepcopy_inv h fuel _ _ _ _ (copy_inv_start h) Hcopy) as [Hinv Hnew].
  destruct (getitem h1 cfg "bot") as [b|] eqn:Hb; [|done]. cbn.
  destruct (getitem h1 b "long") as [long|]; [|done]. cbn.
  destruct (sorted h1 long) as [keys|]; [|done]. cbn.
  destruct (write_side individual cfg keys (Some (h1, 0%nat)) "long")
    as [[h2 i2]|] eqn:Hlong; [|by rewrite write_side_None].
  destruct (write_side individual cfg keys (Some (h2, i2)) "short")
    as [[h3 i3]|] eqn:Hshort; [|done].
  cbn. intros [= <- <-].
  pose proof (write_side_inv h memo _ _ _ _ Hnew _ _ _ _ Hinv Hlong) as Hinv2.
  pose proof (write_side_inv h memo _ _ _ _ Hnew _ _ _ _ Hinv2 Hshort) as Hinv3.
  split; [apply Hinv3|].
  destruct cfg as [| | c]; try done. by exists c.
Qed.

End StoreFacts.

(** ** The deep copy is an image of the template *)

Section CopyFacts.
Import Store.

Lemma copied_mono memo memo' v v' :
  memo ⊆ memo' -> copied memo v v' -> copied memo' v v'.
Proof.
  intros Hsub. destruct v as [| | r]; cbn; try done.
  intros (y & -> & Hy). exists y. split; [done|]. by eapply lookup_weaken.
Qed.

Lemma obj_copied_mono memo memo' o o' :
  memo ⊆ memo' -> obj_copied memo o o' -> obj_copied memo' o o'.
Proof.
  intros Hsub. destruct o as [d | l], o' as [d' | l']; cbn; try done.
  - intros Hd k. specialize (Hd k).
    destruct Hd; constructor. by eapply copied_mono.
  - intros Hl. eapply Forall2_impl; [exact Hl|]. intros. by eapply copied_mono.
Qed.

(** A dict rebuilt from its keys and the copies of its values. *)
Lemma list_to_map_zip_copied memo (d : gmap string val) (vs' : list val) :
  Forall2 (copied memo) (map_to_list d).*2 vs' ->
  forall k, option_Forall2 (copied memo) (d !! k)
              ((list_to_map (zip (map_to_list d).*1 vs') : gmap string val) !! k).
Proof.
  intros Hvs k.
  rewrite <- (list_to_map_to_list d) at 1.
  pose proof (NoDup_fst_map_to_list d) as Hnd.
  rewrite <- (zip_fst_snd (map_to_list d)) at 1.
  revert Hnd Hvs. generalize (map_to_list d).*1 as ks, (map_to_list d).*2 as vs.
  intros ks vs Hnd Hvs. revert ks Hnd.
  induction Hvs as [|v v' vs vs' Hv Hvs IH]; intros ks Hnd.
  - destruct ks; cbn; rewrite lookup_empty; constructor.
  - destruct ks as [|k0 ks]; cbn; [rewrite lookup_empty; constructor|].
    apply NoDup_cons in Hnd as [_ Hnd].
    destruct (decide (k0 = k)) as [-> | Hne].
    + rewrite !lookup_insert_eq. by constructor.
    + rewrite !lookup_insert_ne by done. by apply IH.
Qed.

Lemma extends_refl st : extends st st.
Proof. split; [done | split; [done | auto]]. Qed.

Lemma extends_trans st1 st2 st3 : extends st1 st2 -> extends st2 st3 -> extends st1 st3.
Proof.
  intros (Ha1 & Hb1 & Hc1) (Ha2 & Hb2 & Hc2). split; [|split].
  - intros l Hl. rewrite Ha2; [by apply Ha1|]. by rewrite Ha1.
  - by etrans.
  - intros r y Hy. destruct (Hc2 r y Hy) as [Hm | Hn]; [by apply Hc1|].
    right. destruct (st1.1 !! y) as [o|] eqn:E; [|done].
    rewrite Ha1 in Hn by (by eexists). congruence.
Qed.

Lemma copy_all_iso h0 pending copy :
  (forall x st x' st', old_val h0 x -> iso_inv h0 pending st ->
     copy x st = Some (x', st') ->
     extends st st' /\ iso_inv h0 pending st' /\ copied st'.2 x x') ->
  forall vs st vs' st', Forall (old_val h0) vs -> iso_inv h0 pending st ->
    copy_all copy vs st = Some (vs', st') ->
    extends st st' /\ iso_inv h0 pending st' /\ Forall2 (copied st'.2) vs vs'.
Proof.
  intros Hcopy. induction vs as [|v vs IH]; intros st vs' st' Hold Hinv; cbn.
  - intros [= <- <-]. split; [apply extends_refl|]. split; [done | constructor].
  - apply Forall_cons in Hold as [Hv Hvs].
    destruct (copy v st) as [[x1 st1]|] eqn:E1; [|done]. cbn.
    destruct (copy_all copy vs st1) as [[xs st2]|] eqn:E2; [|done]. cbn.
    intros [= <- <-].
    destruct (Hcopy _ _ _ _ Hv Hinv E1) as (Hext1 & Hinv1 & Hx1).
    destruct (IH _ _ _ Hvs Hinv1 E2) as (Hext2 & Hinv2 & Hxs).
    split; [by eapply extends_trans|]. split; [done|].
    constructor; [|done]. eapply copied_mono; [|exact Hx1]. apply Hext2.
Qed.

(** Registering the object under copy: a new, still empty object for [r]. *)
Lemma iso_inv_register h0 pending st r o :
  iso_inv h0 pending st -> st.2 !! r = None -> is_Some (h0 !! r) ->
  let y := fresh (dom st.1) in
  extends st (<[y := empty_like o]> st.1, <[r := y]> st.2) /\
  iso_inv h0 (pending ∪ {[r]}) (<[y := empty_like o]> st.1, <[r := y]> st.2) /\
  h0 !! y = None /\ st.1 !! y = None.
Proof.
  intros (Hun & Htgt & Hinj & Hdone) Hr Hr0 y.
  assert (st.1 !! y = None) as Hy.
  { apply not_elem_of_dom. apply is_fresh. }
  assert (h0 !! y = None) as Hy0 by (by apply fresh_loc_new).
  assert (st.2 ⊆ <[r := y]> st.2) as Hsub by (by apply insert_subseteq).
  split; [|split; [|done]].
  - split; [|split]; cbn.
    + intros l [o' Hl]. rewrite lookup_insert_ne; [done|]. congruence.
    + done.
    + intros r' y' Hr'. destruct (decide (r = r')) as [<- | Hne].
      * rewrite lookup_insert_eq in Hr'. injection Hr' as <-. by right.
      * rewrite lookup_insert_ne in Hr' by done. by left.
  - split; [|split; [|split]]; cbn.
    + intros l o' Hl. rewrite lookup_insert_ne by congruence. by apply Hun.
    + intros r' y' Hr'. destruct (decide (r = r')) as [<- | Hne].
      * rewrite lookup_insert_eq in Hr'. injection Hr' as <-.
        rewrite lookup_insert_eq. split; [done|]. split; [by eexists | done].
      * rewrite lookup_insert_ne in Hr' by done.
        destruct (Htgt _ _ Hr') as (? & [o' Ho'] & ?).
        split; [done|]. split; [|done].
        rewrite lookup_insert_ne by congruence. by eexists.
    + intros r1 r2 y' H1 H2.
      destruct (decide (r = r1)) as [<- | Hne1], (decide (r = r2)) as [<- | Hne2];
        try done.
      * rewrite lookup_insert_eq in H1. injection H1 as <-.
        rewrite lookup_insert_ne in H2 by done.
        destruct (Htgt _ _ H2) as (_ & [? ?] & _). congruence.
      * rewrite lookup_insert_eq in H2. injection H2 as <-.
        rewrite lookup_insert_ne in H1 by done.
        destruct (Htgt _ _ H1) as (_ & [? ?] & _). congruence.
      * rewrite lookup_insert_ne in H1, H2 by done. by eapply Hinj.
    + intros r' y' Hr' Hnp.
      assert (r <> r') as Hne.
      { intros <-. apply Hnp, elem_of_union. right. by apply elem_of_singleton. }
      rewrite lookup_insert_ne in Hr' by done.
      destruct (Hdone r' y' Hr') as (o1 & o2 & Ho1 & Ho2 & Hrel).
      { intros Hin. apply Hnp, elem_of_union. by left. }
      exists o1, o2. split; [done|]. split.
      * rewrite lookup_insert_ne by congruence. done.
      * by eapply obj_copied_mono.
Qed.

(** Storing the finished copy of [r]. *)
Lemma iso_inv_finish h0 pending st r y o o' :
  iso_inv h0 (pending ∪ {[r]}) st -> st.2 !! r = Some y ->
  h0 !! r = Some o -> obj_copied st.2 o o' ->
  iso_inv h0 pending (<[y := o']> st.1, st.2).
Proof.
  intros (Hun & Htgt & Hinj & Hdone) Hr Ho Hrel.
  destruct (Htgt _ _ Hr) as (_ & _ & Hy0).
  split; [|split; [|split]]; cbn.
  - intros l o1 Hl. rewrite lookup_insert_ne by congruence. by apply Hun.
  - intros r' y' Hr'. destruct (Htgt _ _ Hr') as (? & [o1 Ho1] & ?).
    split; [done|]. split; [|done].
    destruct (decide (y = y')) as [<- | Hne].
    + rewrite lookup_insert_eq. by eexists.
    + rewrite lookup_insert_ne by done. by eexists.
  - done.
  - intros r' y' Hr' Hnp. destruct (decide (r = r')) as [<- | Hne].
    + rewrite Hr in Hr'. injection Hr' as <-.
      exists o, o'. split; [done|]. split; [apply lookup_insert_eq | done].
    + destruct (Hdone r' y' Hr') as (o1 & o2 & Ho1 & Ho2 & Hrel').
      { intros [Hin | Hin%elem_of_singleton]%elem_of_union; [done | congruence]. }
      exists o1, o2. split; [done|]. split; [|done].
      rewrite lookup_insert_ne; [done|]. intros <-. apply Hne. by eapply Hinj.
Qed.

Lemma extends_finish st st' y o :
  extends st st' -> st.1 !! y = None -> extends st (<[y := o]> st'.1, st'.2).
Proof.
  intros (Ha & Hb & Hc) Hy. split; [|split]; cbn; [|done..].
  intros l [o' Hl]. rewrite lookup_insert_ne by congruence. apply Ha. by eexists.
Qed.

Lemma closed_values h0 r o :
  closed h0 -> h0 !! r = Some o ->
  Forall (old_val h0)
    (match o with ODict d => (map_to_list d).*2 | OList l => l end).
Proof.
  intros Hcl Ho. specialize (Hcl r o Ho). destruct o as [d | l]; cbn in *; [|done].
  apply Forall_forall. intros v ([k v'] & -> & Hin%elem_of_map_to_list)%list_elem_of_fmap.
  by eapply Hcl.
Qed.

(** On a store without dangling references, [deepcopy] extends the state it
    starts from and returns the image of its argument. *)
Lemma deepcopy_iso h0 fuel :
  closed h0 ->
  forall pending x st x' st', old_val h0 x -> iso_inv h0 pending st ->
    deepcopy fuel x st = Some (x', st') ->
    extends st st' /\ iso_inv h0 pending st' /\ copied st'.2 x x'.
Proof.
  intros Hclosed.
  induction fuel as [|fuel IH]; intros pending x st x' st' Hold Hinv; [done|].
  cbn [deepcopy].
  destruct x as [q | s | r];
    try (intros [= <- <-]; split; [apply extends_refl | by split]).
  destruct (st.2 !! r) as [y|] eqn:Hmemo.
  { intros [= <- <-]. split; [apply extends_refl|]. split; [done|]. by exists y. }
  destruct Hold as [o0 Ho0].
  assert (st.1 !! r = Some o0) as Ho by (by apply Hinv).
  rewrite Ho. cbn.
  destruct (iso_inv_register h0 pending st r o0 Hinv Hmemo ltac:(by eexists))
    as (Hext1 & Hinv1 & Hy0 & Hy).
  set (y := fresh (dom st.1)) in *.
  pose proof (closed_values h0 r o0 Hclosed Ho0) as Hvals.
  destruct o0 as [d | l].
  - destruct (copy_all _ _ _) as [[vs st2]|] eqn:E; [|done]. cbn.
    intros [= <- <-].
    destruct (copy_all_iso h0 _ _ (IH _) _ _ _ _ Hvals Hinv1 E) as (Hext2 & Hinv2 & Hvs).
    assert (st2.2 !! r = Some y) as Hry.
    { eapply lookup_weaken; [|apply Hext2]. apply lookup_insert_eq. }
    split; [|split].
    + apply extends_finish; [|done]. by eapply extends_trans.
    + eapply iso_inv_finish; [done.. |]. cbn. by apply list_to_map_zip_copied.
    + by exists y.
  - destruct (copy_all _ _ _) as [[vs st2]|] eqn:E; [|done]. cbn.
    intros [= <- <-].
    destruct (copy_all_iso h0 _ _ (IH _) _ _ _ _ Hvals Hinv1 E) as (Hext2 & Hinv2 & Hvs).
    assert (st2.2 !! r = Some y) as Hry.
    { eapply lookup_weaken; [|apply Hext2]. apply lookup_insert_eq. }
    split; [|split].
    + apply extends_finish; [|done]. by eapply extends_trans.
    + by eapply iso_inv_finish.
    + by exists y.
Qed.

Lemma iso_inv_start h : iso_inv h ∅ (h, ∅).
Proof.
  split; [by intros l o|]. cbn.
  split; [|split]; intros *; rewrite lookup_empty; done.
Qed.

(** The copy of an object of a store without dangling references: a new
    reference, recorded in the memo, in a store where every memo entry
    relates an original to its finished image. *)
Lemma deepcopy_image h fuel t x' st' :
  closed h -> is_Some (h !! t) ->
  deepcopy fuel (VRef t) (h, ∅) = Some (x', st') ->
  iso_inv h ∅ st' /\ exists c, x' = VRef c /\ st'.2 !! t = Some c.
Proof.
  intros Hclosed Ht Hcopy.
  destruct (deepcopy_iso h fuel Hclosed ∅ (VRef t) _ _ _ Ht (iso_inv_start h) Hcopy)
    as (_ & Hinv & (c & -> & Hc)).
  split; [done|]. by exists c.
Qed.

Lemma obj_Forall_impl (P R : val -> Prop) o :
  (forall v, P v -> R v) -> obj_Forall P o -> obj_Forall R o.
Proof.
  intros HPR. destruct o as [d | l]; cbn.
  - intros Hd k v Hkv. apply HPR. by eapply Hd.
  - intros Hl. eapply Forall_impl; [exact Hl | exact HPR].
Qed.

Lemma depth_le_S h n v : depth_le h n v -> depth_le h (S n) v.
Proof.
  revert v. induction n as [|n IH]; intros [| | r]; cbn; try done.
  intros (o & Ho & Hvs). exists o. split; [done|]. by eapply obj_Forall_impl.
Qed.

Lemma depth_le_mono h n m v : (n <= m)%nat -> depth_le h n v -> depth_le h m v.
Proof. induction 1; [done|]. intros. by apply depth_le_S, IHle. Qed.

Lemma depth_le_old h n v : depth_le h n v -> old_val h v.
Proof. destruct v as [| | r], n; cbn; try done. intros (o & Ho & _). by eexists. Qed.

Lemma copy_all_total h0 pending copy :
  (forall x st x' st', old_val h0 x -> iso_inv h0 pending st ->
     copy x st = Some (x', st') ->
     extends st st' /\ iso_inv h0 pending st' /\ copied st'.2 x x') ->
  forall (P : val -> Prop),
  (forall x, P x -> old_val h0 x) ->
  (forall x st, P x -> iso_inv h0 pending st -> is_Some (copy x st)) ->
  forall vs st, Forall P vs -> iso_inv h0 pending st -> is_Some (copy_all copy vs st).
Proof.
  intros Hiso P Hold Htot. induction vs as [|v vs IH]; intros st HP Hinv; cbn.
  - by eexists.
  - apply Forall_cons in HP as [Hv Hvs].
    destruct (Htot v st Hv Hinv) as [[x1 st1] E1]. rewrite E1. cbn.
    destruct (Hiso _ _ _ _ (Hold _ Hv) Hinv E1) as (_ & Hinv1 & _).
    destruct (IH st1 Hvs Hinv1) as [[xs st2] E2]. rewrite E2. cbn. by eexists.
Qed.

Lemma deepcopy_unfold fuel x st :
  deepcopy (S fuel) x st =
  match x with
  | VRef r =>
      match st.2 !! r with
      | Some y => Some (VRef y, st)
      | None =>
          o ← st.1 !! r;
          let y := fresh (dom st.1) in
          let st1 := (<[y := empty_like o]> st.1, <[r := y]> st.2) in
          match o with
          | ODict d =>
              rs ← copy_all (deepcopy fuel) (map_to_list d).*2 st1;
              Some (VRef y,
                    (<[y := ODict (list_to_map (zip (map_to_list d).*1 rs.1))]> rs.2.1,
                     rs.2.2))
          | OList l =>
              rs ← copy_all (deepcopy fuel) l st1;
              Some (VRef y, (<[y := OList rs.1]> rs.2.1, rs.2.2))
          end
      end
  | _ => Some (x, st)
  end.
Proof. done. Qed.

(** Enough fuel: a value nesting at most [n] objects deep is copied with
    fuel [n + 1]. *)
Lemma deepcopy_total h0 :
  closed h0 ->
  forall n pending x st, depth_le h0 n x -> iso_inv h0 pending st ->
    is_Some (deepcopy (S n) x st).
Proof.
  intros Hclosed. induction n as [|n IH]; intros pending x st Hdepth Hinv.
  - destruct x; cbn in *; [by eexists.. | done].
  - rewrite deepcopy_unfold. destruct x as [q | s | r]; [by eexists..|].
    destruct (st.2 !! r) as [y|] eqn:Hmemo; [by eexists|].
    cbn in Hdepth. destruct Hdepth as (o & Ho0 & Hvs).
    assert (st.1 !! r = Some o) as Ho by (by apply Hinv).
    rewrite Ho. cbn [mbind option_bind].
    destruct (iso_inv_register h0 pending st r o Hinv Hmemo ltac:(by eexists))
      as (_ & Hinv1 & _ & _).
    assert (forall vs st1, Forall (depth_le h0 n) vs ->
              iso_inv h0 (pending ∪ {[r]}) st1 ->
              is_Some (copy_all (deepcopy (S n)) vs st1)) as Hall.
    { intros vs st1. apply (copy_all_total h0 (pending ∪ {[r]})).
      - intros. by eapply deepcopy_iso.
      - intros. by eapply depth_le_old.
      - intros. by eapply IH. }
    destruct o as [d | l]; cbn in Hvs.
    + assert (Forall (depth_le h0 n) (map_to_list d).*2) as Hvs'.
      { apply Forall_forall.
        intros v ([k v'] & -> & Hin%elem_of_map_to_list)%list_elem_of_fmap.
        by eapply Hvs. }
      destruct (Hall _ _ Hvs' Hinv1) as [rs ->]. by eexists.
    + destruct (Hall l _ Hvs Hinv1) as [rs ->]. by eexists.
Qed.

(** *** The two decoders agree *)

Lemma fmap_foldl_insert {A B} (f : A -> B) (ks : list string) (vs : list A)
    (m : gmap string A) :
  foldl (fun m kv => <[kv.1 := kv.2]> m) (f <$> m) (zip ks (f <$> vs)) =
  f <$> foldl (fun m kv => <[kv.1 := kv.2]> m) m (zip ks vs).
Proof.
  revert vs m. induction ks as [|k ks IH]; intros [|v vs] m; cbn; try done.
  by rewrite <- fmap_insert, IH.
Qed.

(** The inner loop on the store, for a configuration object [c] whose
    "bot" dict [b] has the dict [p] as side [pside]. *)
Lemma store_write_side_spec individual c b p pside keys :
  p <> c -> p <> b ->
  forall h i dc db d,
    h !! c = Some (ODict dc) -> dc !! "bot" = Some (VRef b) ->
    h !! b = Some (ODict db) -> db !! pside = Some (VRef p) ->
    h !! p = Some (ODict d) ->
    (i + length keys <= length individual)%nat ->
    Store.write_side individual (VRef c) keys (Some (h, i)) pside =
    Some (<[p := ODict (foldl (fun m kv => <[kv.1 := kv.2]> m) d
                          (zip keys (VNum <$> drop i individual)))]> h,
          (i + length keys)%nat).
Proof.
  intros Hpc Hpb. unfold Store.write_side.
  induction keys as [|k keys IH]; intros h i dc db d Hc Hbot Hb Hside Hp Hlen.
  - cbn. rewrite insert_id by done. by rewrite Nat.add_0_r.
  - cbn [foldl length] in *. unfold Store.write_param at 2. cbn.
    destruct (lookup_lt_is_Some_2 individual i ltac:(lia)) as [v Hv].
    rewrite Hv. cbn. rewrite Hc, Hbot. cbn. rewrite Hb, Hside. cbn. rewrite Hp. cbn.
    rewrite (IH _ (S i) dc db (<[k := VNum v]> d)).
    + rewrite insert_insert_eq, (drop_S _ _ _ Hv). cbn. do 2 f_equal. lia.
    + by rewrite lookup_insert_ne.
    + done.
    + by rewrite lookup_insert_ne.
    + done.
    + apply lookup_insert_eq.
    + lia.
Qed.

(** Reading the image of a dict of numbers gives the same dict. *)
Lemma obj_copied_numbers memo (m : gmap string Q) o' :
  obj_copied memo (ODict (VNum <$> m)) o' -> o' = ODict (VNum <$> m).
Proof.
  destruct o' as [d' | l']; cbn; [|done]. intros Hd. f_equal.
  apply map_eq. intros k. specialize (Hd k). rewrite lookup_fmap in *.
  destruct (m !! k) as [q|]; cbn in *; inversion Hd as [v v' Hv |]; [|done].
  cbn in Hv. by rewrite Hv.
Qed.

(** Reading a reference field of an image gives the image of the field. *)
Lemma obj_copied_field memo d o' k r :
  obj_copied memo (ODict d) o' -> d !! k = Some (VRef r) ->
  exists d' y, o' = ODict d' /\ d' !! k = Some (VRef y) /\ memo !! r = Some y.
Proof.
  destruct o' as [d' | l']; cbn; [|done]. intros Hd Hk. specialize (Hd k).
  rewrite Hk in Hd. inversion Hd as [v v' Hv Hv1 Hv2 |].
  destruct Hv as (y & -> & Hy). exists d', y. by split.
Qed.

Lemma length_sorted_keys {A} (d : gmap string A) : length (sorted_keys d) = size d.
Proof. by rewrite sorted_keys_perm, length_fmap, length_map_to_list. Qed.

(** On a template of the expected shape, in a store without dangling
    references, with fuel beyond the nesting depth and a genome long enough:
    both decoders return, and the two parameter dicts of the configuration
    object built on the store are those of the configuration value. *)
Theorem store_decode_refines get_template template h t b l s dt db ml ms
    individual n fuel :
  closed h ->
  h !! t = Some (ODict dt) -> dt !! "bot" = Some (VRef b) ->
  h !! b = Some (ODict db) ->
  db !! "long" = Some (VRef l) -> db !! "short" = Some (VRef s) ->
  h !! l = Some (ODict (VNum <$> ml)) -> h !! s = Some (ODict (VNum <$> ms)) ->
  l <> s ->
  depth_le h n (VRef t) -> (n < fuel)%nat ->
  bot template !! "long" = Some ml -> bot template !! "short" = Some ms ->
  (2 * size ml <= length individual)%nat ->
  exists c h' config long short,
    Store.individual_to_config fuel individual t h = Some (VRef c, h') /\
    Codec.individual_to_config get_template individual (Some template) = Some config /\
    bot config !! "long" = Some long /\ bot config !! "short" = Some short /\
    sides h' (VRef c) = Some (VNum <$> long, VNum <$> short).
Proof.
  intros Hclosed Ht Hbot Hb Hlong Hshort Hl Hs Hls Hdepth Hfuel Hml Hms Hlen.
  destruct fuel as [|fuel]; [lia|].
  destruct (deepcopy_total h Hclosed fuel ∅ (VRef t) (h, ∅)) as [[x' [h1 memo]] Hcopy].
  { eapply depth_le_mono; [|exact Hdepth]. lia. }
  { apply iso_inv_start. }
  destruct (deepcopy_image h _ t _ _ Hclosed ltac:(by eexists) Hcopy)
    as (Hinv & c & -> & Hc).
  destruct Hinv as (Hun & Htgt & Hinj & Hdone). cbn in *.
  (* the images of the template, of its "bot" dict and of the two sides *)
  destruct (Hdone t c Hc ltac:(set_solver)) as (? & oc & Ht' & Hoc & Hrelc).
  rewrite Ht in Ht'. injection Ht' as <-.
  destruct (obj_copied_field _ _ _ _ _ Hrelc Hbot) as (dc & b' & -> & Hbot' & Hb').
  destruct (Hdone b b' Hb' ltac:(set_solver)) as (? & ob & Hb0 & Hob & Hrelb).
  rewrite Hb in Hb0. injection Hb0 as <-.
  destruct (obj_copied_field _ _ _ _ _ Hrelb Hlong) as (db' & l' & -> & Hlong' & Hl').
  destruct (obj_copied_field _ _ _ _ _ Hrelb Hshort) as (db'' & s' & [= <-] & Hshort' & Hs').
  destruct (Hdone l l' Hl' ltac:(set_solver)) as (? & ol & Hl0 & Hol & Hrell).
  rewrite Hl in Hl0. injection Hl0 as <-. apply obj_copied_numbers in Hrell as ->.
  destruct (Hdone s s' Hs' ltac:(set_solver)) as (? & os & Hs0 & Hos & Hrels).
  rewrite Hs in Hs0. injection Hs0 as <-. apply obj_copied_numbers in Hrels as ->.
  (* the four objects involved are pairwise distinct where it matters *)
  assert (forall m : gmap string Q, forall k r, (VNum <$> m) !! k <> Some (VRef r)) as Hnum.
  { intros m k r. rewrite lookup_fmap. by destruct (m !! k). }
  assert (l' <> s') as Hls'.
  { intros <-. apply Hls. by eapply Hinj. }
  assert (l' <> c) as Hlc.
  { intros ->. assert (l = t) as -> by (by eapply Hinj).
    rewrite Ht in Hl. injection Hl as ->. by eapply Hnum. }
  assert (s' <> c) as Hsc.
  { intros ->. assert (s = t) as -> by (by eapply Hinj).
    rewrite Ht in Hs. injection Hs as ->. by eapply Hnum. }
  assert (l' <> b') as Hlb.
  { intros ->. assert (l = b) as -> by (by eapply Hinj).
    rewrite Hb in Hl. injection Hl as ->. by eapply Hnum. }
  assert (s' <> b') as Hsb.
  { intros ->. assert (s = b) as -> by (by eapply Hinj).
    rewrite Hb in Hs. injection Hs as ->. by eapply Hnum. }
  (* the run on the store *)
  set (keys := sorted_keys ml).
  assert (length keys = size ml) as Hkeys by apply length_sorted_keys.
  set (long' := foldl (fun m kv => <[kv.1 := kv.2]> m) ml (zip keys (drop 0 individual))).
  set (short' := foldl (fun m kv => <[kv.1 := kv.2]> m) ms
                   (zip keys (drop (0 + length keys) individual))).
  exists c. eexists. 
  exists {| bot := <["short" := short']> (<["long" := long']> (bot template));
            optimize := optimize template;
            results_filename := results_filename template |}, long', short'.
  split; [|split; [|split; [|split]]].
  - unfold Store.individual_to_config. rewrite Hcopy. cbn.
    rewrite Hoc, Hbot'. cbn. rewrite Hob, Hlong'. cbn. rewrite Hol. cbn.
    assert (sorted_keys (VNum <$> ml) = keys) as ->.
    { apply sorted_keys_dom. apply dom_fmap_L. }
    rewrite (store_write_side_spec _ c b' l' "long" keys Hlc Hlb h1 0 dc db' (VNum <$> ml));
      try done; try lia.
    rewrite (store_write_side_spec _ c b' s' "short" keys Hsc Hsb _ _ dc db' (VNum <$> ms));
      try (by rewrite lookup_insert_ne); try done; try lia.
  - unfold Codec.individual_to_config. cbn [default from_option id]. rewrite Hml. cbn.
    fold keys.
    rewrite (write_side_spec _ _ _ _ _ ml Hml) by lia.
    rewrite (write_side_spec _ _ _ _ _ ms); [done | | cbn; lia].
    cbn. by rewrite lookup_insert_ne.
  - cbn. rewrite lookup_insert_ne by done. apply lookup_insert_eq.
  - cbn. apply lookup_insert_eq.
  - unfold sides, getitem, dict_at. cbn [fst snd].
    rewrite (lookup_insert_ne _ s' c) by done. rewrite (lookup_insert_ne _ l' c) by done.
    rewrite Hoc, Hbot'. cbn.
    rewrite (lookup_insert_ne _ s' b') by done. rewrite (lookup_insert_ne _ l' b') by done.
    rewrite Hob, Hlong'. cbn. rewrite Hshort'. cbn.
    rewrite (lookup_insert_ne _ s' l') by done. rewrite lookup_insert_eq. cbn.
    rewrite lookup_insert_eq. cbn.
    by rewrite !fmap_foldl_insert.
Qed.

End CopyFacts.

(** ** The statements at concrete inputs *)

Section Examples.

(** A disqualified record scores its modifier twice: 7625 = 0.75 * 10^4 +
    0.1 * 10^3 + 0.25 * 10^2. *)
Lemma calc_fitness_scores_witness :
  exists modifier,
    Evaluator.calc_modifier Ex.lims Ex.ruined = Some modifier /\
    (modifier == 7625)%Q /\
    Evaluator.calc_fitness Ex.template Ex.ruined = Some (modifier, modifier).
Proof.
  eexists. split; [vm_compute; reflexivity|]. split; [vm_compute; reflexivity|].
  refine (proj1 (calc_fitness_scores Ex.template Ex.ruined _ 1 _ _) _).
  - vm_compute; reflexivity.
  - reflexivity.
  - apply Qle_refl.
Defined.

(** A record that is not disqualified scores modifier minus metric:
    2625 - 0.01 and 2625 - 2. *)
Lemma calc_fitness_scores_healthy :
  exists w0 w1,
    Evaluator.calc_fitness Ex.template Ex.healthy = Some (w0, w1) /\
    (w0 == 262499 # 100)%Q /\ (w1 == 2623)%Q.
Proof.
  eexists _, _. split; [vm_compute; reflexivity|].
  split; vm_compute; reflexivity.
Qed.

(** The modifier of a record within every bound is zero. *)
Lemma modifier_nonneg_witness :
  exists m, Evaluator.calc_modifier Ex.lims Ex.compliant = Some m /\ (0 <= m)%Q /\ (m == 0)%Q.
Proof.
  eexists. split; [vm_compute; reflexivity|].
  destruct (modifier_nonneg Ex.lims Ex.compliant _ ltac:(vm_compute; reflexivity))
    as (Hnn & Hzero & _).
  split; [exact Hnn|]. apply Hzero.
  intros ik lb a Hin. unfold Evaluator.constrained in Hin.
  repeat (apply elem_of_cons in Hin as [-> | Hin]); [ | | | by apply elem_of_nil in Hin];
    vm_compute; intros [= <-] [= <-]; discriminate.
Defined.

(** C4, as stated, fails: a drawdown violation by 0.001 gives modifier 10,
    a loss/profit violation by 1 and nothing else gives modifier 100. *)
Lemma dominance_counterexample :
  exists mA mB d x y e,
    Evaluator.calc_modifier Ex.zero_limits Ex.small_drawdown = Some mA /\
    Evaluator.calc_modifier Ex.zero_limits Ex.large_loss = Some mB /\
    Evaluator.margin Ex.zero_limits Ex.small_drawdown "drawdown_worst" = Some d /\
    (0 < d)%Q /\
    Evaluator.margin Ex.zero_limits Ex.large_loss "drawdown_worst" = Some x /\
    (x <= 0)%Q /\
    Evaluator.margin Ex.zero_limits Ex.large_loss "equity_balance_diff_mean" = Some y /\
    (y <= 0)%Q /\
    Evaluator.margin Ex.zero_limits Ex.large_loss "loss_profit_ratio" = Some e /\
    (0 < e)%Q /\
    (mA == 10)%Q /\ (mB == 100)%Q /\ ~ (mB < mA)%Q.
Proof.
  eexists _, _, _, _, _, _.
  repeat (split; [vm_compute; first [reflexivity | discriminate]|]).
  vm_compute. discriminate.
Qed.

(** With a loss/profit margin of 0.05 against a drawdown margin of 0.001 the
    weights do reach: 5 < 10. *)
Lemma drawdown_outweighs_loss_profit_witness :
  exists mA mB,
    Evaluator.calc_modifier Ex.zero_limits Ex.small_drawdown = Some mA /\
    Evaluator.calc_modifier Ex.zero_limits Ex.small_loss = Some mB /\
    (mB < mA)%Q.
Proof.
  eexists _, _. split; [vm_compute; reflexivity|]. split; [vm_compute; reflexivity|].
  eapply (drawdown_outweighs_loss_profit Ex.zero_limits Ex.small_drawdown Ex.small_loss);
    try (vm_compute; reflexivity); vm_compute; first [reflexivity | discriminate].
Defined.

(** C5, as stated, fails: 10 iterations over a population of 4 run for 2
    generations, not ceil(10 / 4) = 3. *)
Lemma ngen_counterexample :
  Budget.ngen 10 4 = Some 2%Z /\ Budget.spec_ngen 10 4 = 3%Z.
Proof. split; reflexivity. Qed.

Lemma ngen_is_floor_at_least_one_witness :
  exists g, Budget.ngen 10 4 = Some g /\
    (1 <= g)%Z /\
    (10 < Z.of_nat 4 -> g = 1)%Z /\
    (Z.of_nat 4 <= 10 -> g * Z.of_nat 4 <= 10 < (g + 1) * Z.of_nat 4)%Z /\
    (g = Budget.spec_ngen 10 4 <->
       (0 < 10 /\ (10 < Z.of_nat 4 \/ 10 mod Z.of_nat 4 = 0))%Z).
Proof. apply (ngen_is_floor_at_least_one 10 4). discriminate. Defined.

(** C2, as stated, fails: the seed and the template have the same parameter
    names, yet decoding the seed's genome against the template gives the
    template's results file name, not the seed's. *)
Lemma decode_encode_counterexample :
  dom <$> bot Ex.seed = dom <$> bot Ex.template /\
  Codec.config_to_individual Ex.seed = Some [5%Q; 6%Q; 7%Q; 8%Q] /\
  Codec.individual_to_config Ex.template [5%Q; 6%Q; 7%Q; 8%Q] (Some Ex.template)
    = Some Ex.seeded_run /\
  Ex.seeded_run <> Ex.seed.
Proof.
  split; [vm_compute; reflexivity|]. split; [vm_compute; reflexivity|].
  split; [vm_compute; reflexivity|].
  intros Heq. apply (f_equal results_filename) in Heq. discriminate.
Qed.

(** The seed's parameters on the template's other fields do make the round
    trip. *)
Lemma decode_encode_roundtrip_witness :
  exists individual,
    Codec.config_to_individual Ex.seeded_run = Some individual /\
    Codec.individual_to_config Ex.template individual (Some Ex.template)
      = Some Ex.seeded_run.
Proof.
  eapply (decode_encode_roundtrip Ex.template Ex.seeded_run Ex.template);
    try (vm_compute; reflexivity).
  intros side Hl Hs. cbn. by rewrite !lookup_insert_ne.
Defined.

(** Two seeds for a population of one, bounds [{a: (0, 0), b: (1, 5)}]. *)
Lemma initial_population_example :
  Seeds.initial_population Ex.random_individual 1 [[-1; 9]; [0; 3]]%Q Ex.bounds
    = Some (2%nat, [[0; 5]; [0; 3]]%Q).
Proof. vm_compute. reflexivity. Qed.

Lemma seeds_fill_population_witness :
  exists population,
    Seeds.initial_population Ex.random_individual 1 [[-1; 9]; [0; 3]]%Q Ex.bounds
      = Some (2%nat, population) /\
    length population = 2%nat /\
    population !! 0%nat = Some [0; 5]%Q.
Proof.
  destruct (seeds_fill_population Ex.random_individual 1 [[-1; 9]; [0; 3]]%Q Ex.bounds)
    as (population & Hinit & Hlen & Hseeds).
  - cbn. lia.
  - repeat constructor.
  - exists population. split; [exact Hinit|]. split; [exact Hlen|].
    rewrite initial_population_example in Hinit. by injection Hinit as <-.
Defined.

(** Operators that change every dimension; dimension 0 is fixed at 0. *)
Lemma wrappers_example :
  Operators.mutPolynomialBoundedWrapper Ex.shift_all [0; 3]%Q 20 Ex.low Ex.up (1 # 2)
    = Some [0; 4]%Q /\
  Operators.cxSimulatedBinaryBoundedWrapper Ex.swap_all [0; 3]%Q [0; 2]%Q 20 Ex.low Ex.up
    = Some ([0; 3]%Q, [0; 4]%Q).
Proof. split; vm_compute; reflexivity. Qed.

Lemma fixed_dimensions_preserved_witness :
  exists offspring child1 child2,
    Operators.mutPolynomialBoundedWrapper Ex.shift_all [0; 3]%Q 20 Ex.low Ex.up (1 # 2)
      = Some offspring /\
    Operators.cxSimulatedBinaryBoundedWrapper Ex.swap_all [0; 3]%Q [0; 2]%Q 20 Ex.low Ex.up
      = Some (child1, child2) /\
    offspring !! 0%nat = Some 0%Q /\ child1 !! 0%nat = Some 0%Q /\ child2 !! 0%nat = Some 0%Q.
Proof.
  destruct wrappers_example as [Hmut Hcx].
  eexists _, _, _. split; [exact Hmut|]. split; [exact Hcx|].
  destruct (fixed_dimensions_preserved Ex.shift_all Ex.swap_all 20 Ex.low Ex.up)
    as [Hm Hc].
  destruct (Hm _ _ _ Hmut) as (mask & mutated & _ & _ & _ & Hdim).
  destruct (Hc _ _ _ _ Hcx) as (mask' & c1 & c2 & _ & _ & _ & _ & Hdim').
  destruct (Hdim 0%nat 0%Q 0%Q eq_refl eq_refl) as [Hfix _].
  destruct (Hdim' 0%nat 0%Q 0%Q eq_refl eq_refl) as [Hfix' _].
  split; [by apply Hfix|]. by apply Hfix'.
Defined.

(** Two seeds whose genomes have the same hash leave one individual. *)
Lemma configs_to_individuals_example :
  Seeds.configs_to_individuals Ex.length_hash Some [Ex.seed; Ex.template]
    = [[1; 2; 3; 4]%Q].
Proof. vm_compute. reflexivity. Qed.

Lemma seeds_deduplicated_witness :
  length (filter (fun h => h = Ex.length_hash [5; 6; 7; 8]%Q)
            (Ex.length_hash <$>
               Seeds.configs_to_individuals Ex.length_hash Some [Ex.seed; Ex.template]))
    = 1%nat.
Proof.
  destruct (seeds_deduplicated Ex.length_hash Some [Ex.seed; Ex.template]) as [_ Hone].
  apply (Hone Ex.seed Ex.seed).
  - by left.
  - reflexivity.
  - vm_compute. reflexivity.
Defined.

(** Decoding in the example store: the new configuration is object 5, and
    the template's "long" dict, object 3, keeps its values. *)
Lemma decode_preserves_template_witness :
  exists config h',
    Store.individual_to_config 4 [9; 8; 7; 6]%Q 1%positive Ex.store = Some (config, h') /\
    Store.unchanged Ex.store h' /\
    exists c, config = Store.VRef c /\ Ex.store !! c = None.
Proof.
  eexists _, _. split; [vm_compute; reflexivity|].
  eapply (decode_preserves_template 4 [9; 8; 7; 6]%Q 1%positive Ex.store).
  vm_compute. reflexivity.
Defined.

Lemma decode_example :
  exists config h',
    Store.individual_to_config 4 [9; 8; 7; 6]%Q 1%positive Ex.store = Some (config, h') /\
    (b ← Store.getitem h' config "bot"; long ← Store.getitem h' b "long";
     Store.getitem h' long "n_positions") = Some (Store.VNum 9) /\
    Store.getitem h' (Store.VRef 3%positive) "n_positions" = Some (Store.VNum 1).
Proof.
  eexists _, _. split; [vm_compute; reflexivity|]. split; vm_compute; reflexivity.
Qed.

(** With a shallow copy in place of [deepcopy] the same call does overwrite
    the template's "long" dict. *)
Lemma shallow_decode_example :
  exists config h',
    Store.individual_to_config_shallow [9; 8; 7; 6]%Q 1%positive Ex.store
      = Some (config, h') /\
    Store.getitem h' (Store.VRef 3%positive) "n_positions" = Some (Store.VNum 9).
Proof.
  eexists _, _. split; [vm_compute; reflexivity|]. vm_compute. reflexivity.
Qed.

(** C6 at a run whose Evaluator constructor raises in [prep_backtest_args]:
    the [finally] block fails on the unbound [evaluator], [cleanup] never
    runs and both segments are left behind. *)
Theorem constructor_failure_leaks_segments :
  (Run.main Ex.prep_fails Run.initial).1 = Run.Raise Run.UnboundLocalError /\
  Run.leaked (Run.shared_hlcs (Run.main Ex.prep_fails Run.initial).2) /\
  Run.leaked (Run.shared_preferred_coins (Run.main Ex.prep_fails Run.initial).2) /\
  ~ Run.released_once (Run.shared_hlcs (Run.main Ex.prep_fails Run.initial).2).
Proof.
  vm_compute. repeat split; try reflexivity. intros (_ & Hc & _). discriminate.
Qed.

(** An interrupted evolution still releases both segments once. *)
Lemma interrupted_run_example :
  (Run.main Ex.interrupted Run.initial).1 = Run.Raise Run.SystemExit /\
  Run.released_once (Run.shared_hlcs (Run.main Ex.interrupted Run.initial).2) /\
  Run.released_once (Run.shared_preferred_coins (Run.main Ex.interrupted Run.initial).2).
Proof. by apply released_once_after_construction. Qed.

End Examples.

Section CopyExample.
Import Store.

Lemma closed_map_Forall h :
  map_Forall (fun _ o => obj_Forall (old_val h) o) h -> closed h.
Proof. intros Hall l o Hl. by apply (Hall l o). Qed.

Lemma example_store_closed : closed Ex.store.
Proof. apply closed_map_Forall. apply (bool_decide_unpack _). vm_compute. reflexivity. Qed.

(** Both decoders on the example template. *)
Lemma store_decode_refines_example :
  exists c h' config long short,
    Store.individual_to_config 4 [9; 8; 7; 6]%Q 1%positive Ex.store = Some (VRef c, h') /\
    Codec.individual_to_config Ex.template [9; 8; 7; 6]%Q (Some Ex.template) = Some config /\
    bot config !! "long" = Some long /\ bot config !! "short" = Some short /\
    sides h' (VRef c) = Some (VNum <$> long, VNum <$> short).
Proof.
  eapply (store_decode_refines Ex.template Ex.template Ex.store
            1%positive 2%positive 3%positive 4%positive _ _
            (list_to_map [("n_positions", 1%Q); ("wallet_exposure", 2%Q)])
            (list_to_map [("n_positions", 3%Q); ("wallet_exposure", 4%Q)])
            _ 3 4);
    try (vm_compute; reflexivity); try apply example_store_closed; try done;
    try (apply (bool_decide_unpack _); vm_compute; reflexivity).
Qed.

End CopyExample.

(** ** More on calc_fitness *)

Section FitnessMore.
Import Evaluator.

Lemma pymax_mono lb a b : (a <= b)%Q -> (pymax lb a <= pymax lb b)%Q.
Proof.
  intros Hab. unfold pymax.
  destruct (Qltb lb a) eqn:Ea, (Qltb lb b) eqn:Eb;
    try apply Qltb_lt in Ea; try apply Qltb_lt in Eb;
    try apply Qltb_ge in Ea; try apply Qltb_ge in Eb; lra.
Qed.

Lemma weight_pos ik : ik ∈ constrained -> (0 < inject_Z (10 ^ ik.1))%Q.
Proof.
  unfold constrained. intros Hin.
  repeat (apply elem_of_cons in Hin as [-> | Hin]); [ | | | by apply elem_of_nil in Hin];
    by vm_compute.
Qed.

Lemma violation_mono lims A B ik va vb :
  ik ∈ constrained ->
  violation lims A ik = Some va -> violation lims B ik = Some vb ->
  (forall a b, A !! ik.2 = Some a -> B !! ik.2 = Some b -> (a <= b)%Q) ->
  (va <= vb)%Q.
Proof.
  intros Hin (lb & a & Hlb & Ha & ->)%violation_Some
             (lb' & b & Hlb' & Hb & ->)%violation_Some Hle.
  rewrite Hlb in Hlb'. injection Hlb' as <-.
  pose proof (pymax_mono lb a b (Hle _ _ Ha Hb)).
  pose proof (weight_pos ik Hin).
  apply Qmult_le_compat_r; lra.
Qed.

(** X1.  The modifier is monotone: a record that is at least as large in
    each constrained statistic has a modifier at least as large. *)
Theorem modifier_monotone lims A B mA mB :
  calc_modifier lims A = Some mA ->
  calc_modifier lims B = Some mB ->
  (forall ik a b, ik ∈ constrained ->
     A !! ik.2 = Some a -> B !! ik.2 = Some b -> (a <= b)%Q) ->
  (mA <= mB)%Q.
Proof.
  intros (a4 & a3 & a2 & HA4 & HA3 & HA2 & ->)%calc_modifier_Some
         (b4 & b3 & b2 & HB4 & HB3 & HB2 & ->)%calc_modifier_Some Hle.
  pose proof (violation_mono _ _ _ _ _ _ constrained_drawdown HA4 HB4
                (fun a b => Hle _ a b constrained_drawdown)).
  pose proof (violation_mono _ _ _ _ _ _ constrained_diff_mean HA3 HB3
                (fun a b => Hle _ a b constrained_diff_mean)).
  pose proof (violation_mono _ _ _ _ _ _ constrained_loss_profit HA2 HB2
                (fun a b => Hle _ a b constrained_loss_profit)).
  lra.
Qed.

Lemma violation_pos_iff lims analysis ik v :
  ik ∈ constrained -> violation lims analysis ik = Some v ->
  ((0 < v)%Q <->
   exists lb a, lims !! lower_bound_key ik.2 = Some lb /\ analysis !! ik.2 = Some a /\
     (lb < a)%Q).
Proof.
  intros Hin Hv. pose proof (weight_pos ik Hin) as Hw.
  pose proof Hv as (lb & a & Hlb & Ha & ->)%violation_Some.
  split.
  - intros Hpos. exists lb, a. split; [done|]. split; [done|].
    apply Qnot_le_lt. intros Hle. rewrite (excess_zero lb a Hle) in Hpos. lra.
  - intros (lb' & a' & Hlb' & Ha' & Hlt).
    rewrite Hlb in Hlb'. rewrite Ha in Ha'. injection Hlb' as <-. injection Ha' as <-.
    rewrite (excess_margin lb a Hlt). apply Qmult_lt_0_compat; lra.
Qed.

(** X2.  The modifier is positive exactly when some constrained statistic
    exceeds its lower bound. *)
Theorem modifier_positive_iff lims analysis m :
  calc_modifier lims analysis = Some m ->
  ((0 < m)%Q <->
   exists ik lb a, ik ∈ constrained /\
     lims !! lower_bound_key ik.2 = Some lb /\ analysis !! ik.2 = Some a /\ (lb < a)%Q).
Proof.
  intros (v4 & v3 & v2 & H4 & H3 & H2 & ->)%calc_modifier_Some.
  pose proof (violation_nonneg _ _ _ _ constrained_drawdown H4) as N4.
  pose proof (violation_nonneg _ _ _ _ constrained_diff_mean H3) as N3.
  pose proof (violation_nonneg _ _ _ _ constrained_loss_profit H2) as N2.
  pose proof (violation_pos_iff _ _ _ _ constrained_drawdown H4) as P4.
  pose proof (violation_pos_iff _ _ _ _ constrained_diff_mean H3) as P3.
  pose proof (violation_pos_iff _ _ _ _ constrained_loss_profit H2) as P2.
  split.
  - intros Hpos.
    destruct (Qlt_le_dec 0 v4) as [H | H4z].
    { apply P4 in H as (lb & a & ?). exists (4%Z, "drawdown_worst"), lb, a.
      split; [apply constrained_drawdown | done]. }
    destruct (Qlt_le_dec 0 v3) as [H | H3z].
    { apply P3 in H as (lb & a & ?). exists (3%Z, "equity_balance_diff_mean"), lb, a.
      split; [apply constrained_diff_mean | done]. }
    destruct (Qlt_le_dec 0 v2) as [H | H2z].
    { apply P2 in H as (lb & a & ?). exists (2%Z, "loss_profit_ratio"), lb, a.
      split; [apply constrained_loss_profit | done]. }
    lra.
  - intros (ik & lb & a & Hin & Hrest). unfold constrained in Hin.
    repeat (apply elem_of_cons in Hin as [-> | Hin]); [ | | | by apply elem_of_nil in Hin].
    + assert (0 < v4)%Q by (apply P4; eauto). lra.
    + assert (0 < v3)%Q by (apply P3; eauto). lra.
    + assert (0 < v2)%Q by (apply P2; eauto). lra.
Qed.

Lemma calc_modifier_is_Some lims analysis :
  is_Some (calc_modifier lims analysis) <->
  (forall ik, ik ∈ constrained ->
     is_Some (lims !! lower_bound_key ik.2) /\ is_Some (analysis !! ik.2)).
Proof.
  split; [|apply calc_modifier_total].
  intros [m (v4 & v3 & v2 & H4 & H3 & H2 & _)%calc_modifier_Some] ik Hin.
  unfold constrained in Hin.
  repeat (apply elem_of_cons in Hin as [-> | Hin]); [ | | | by apply elem_of_nil in Hin].
  - apply violation_Some in H4 as (? & ? & -> & -> & _). by split; eexists.
  - apply violation_Some in H3 as (? & ? & -> & -> & _). by split; eexists.
  - apply violation_Some in H2 as (? & ? & -> & -> & _). by split; eexists.
Qed.

(** X3.  When [calc_fitness] returns rather than raising KeyError or
    IndexError: the three limits and the three constrained statistics must
    be there; the maximum divergence is read only when worst drawdown is
    below 1; the scoring metrics are read only when the record is not
    disqualified. *)
Theorem calc_fitness_returns_iff config analysis :
  is_Some (calc_fitness config analysis) <->
  (forall ik, ik ∈ constrained ->
     is_Some (limits (optimize config) !! lower_bound_key ik.2) /\
     is_Some (analysis !! ik.2)) /\
  exists dd, analysis !! "drawdown_worst" = Some dd /\
    ((1 <= dd)%Q \/
     exists ebd, analysis !! "equity_balance_diff_max" = Some ebd /\
       ((ebd < 1 # 10)%Q \/
        exists s0 s1, scoring (optimize config) !! 0%nat = Some s0 /\
          scoring (optimize config) !! 1%nat = Some s1 /\
          is_Some (analysis !! s0) /\ is_Some (analysis !! s1))).
Proof.
  rewrite <- calc_modifier_is_Some. unfold calc_fitness.
  destruct (calc_modifier _ analysis) as [m|] eqn:Hm; cbn.
  2: { split; [by intros [? ?] | by intros [[? ?] _]]. }
  destruct (disqualified analysis) as [[]|] eqn:Hd; cbn.
  - apply disqualified_true in Hd as (dd & Hdd & Hdis).
    split; [|by eexists]. intros _. split; [by eexists|].
    exists dd. split; [done|]. destruct Hdis as [? | (ebd & ? & ?)]; [by left|].
    right. exists ebd. split; [done|]. by left.
  - apply disqualified_false in Hd as (dd & ebd & Hdd & Hebd & Hlt & Hge).
    split.
    + intros [w Hw]. split; [by eexists|]. exists dd. split; [done|]. right.
      exists ebd. split; [done|]. right.
      destruct (scoring (optimize config) !! 0%nat) as [s0|]; [|done]. cbn in Hw.
      destruct (analysis !! s0) as [v0|] eqn:Hv0; [|done]. cbn in Hw.
      destruct (scoring (optimize config) !! 1%nat) as [s1|]; [|done]. cbn in Hw.
      destruct (analysis !! s1) as [v1|] eqn:Hv1; [|done].
      exists s0, s1. rewrite Hv0, Hv1. repeat split; by eexists.
    + intros (_ & dd' & Hdd' & Hcase). rewrite Hdd in Hdd'. injection Hdd' as <-.
      destruct Hcase as [Hle | (ebd' & Hebd' & Hcase)]; [lra|].
      rewrite Hebd in Hebd'. injection Hebd' as <-.
      destruct Hcase as [? | (s0 & s1 & -> & -> & [v0 Hv0] & [v1 Hv1])]; [lra|].
      cbn. rewrite Hv0. cbn. rewrite Hv1. by eexists.
  - split; [by intros [? ?]|].
    intros (_ & dd & Hdd & Hcase). exfalso.
    unfold disqualified in Hd. rewrite Hdd in Hd. cbn in Hd.
    destruct (Qle_bool 1 dd) eqn:E; [done|].
    destruct Hcase as [Hle%Qle_bool_iff | (ebd & Hebd & _)]; [congruence|].
    rewrite Hebd in Hd. done.
Qed.

(** X4.  A record that respects every bound and is not disqualified scores
    the negated values of the two configured metrics. *)
Theorem compliant_scores_negate_metrics config analysis w0 w1 s0 s1 v0 v1 :
  calc_fitness config analysis = Some (w0, w1) ->
  disqualified analysis = Some false ->
  (forall ik lb a, ik ∈ constrained ->
     limits (optimize config) !! lower_bound_key ik.2 = Some lb ->
     analysis !! ik.2 = Some a -> (a <= lb)%Q) ->
  scoring (optimize config) !! 0%nat = Some s0 -> analysis !! s0 = Some v0 ->
  scoring (optimize config) !! 1%nat = Some s1 -> analysis !! s1 = Some v1 ->
  (w0 == - v0)%Q /\ (w1 == - v1)%Q.
Proof.
  intros Hfit Hd Hle Hs0 Hv0 Hs1 Hv1. unfold calc_fitness in Hfit.
  destruct (calc_modifier _ analysis) as [m|] eqn:Hm; [|done]. cbn in Hfit.
  rewrite Hd in Hfit. cbn in Hfit. rewrite Hs0 in Hfit. cbn in Hfit.
  rewrite Hv0 in Hfit. cbn in Hfit. rewrite Hs1 in Hfit. cbn in Hfit.
  rewrite Hv1 in Hfit. cbn in Hfit. injection Hfit as <- <-.
  assert (m == 0)%Q as Hz.
  { apply calc_modifier_Some in Hm as (v4 & v3 & v2 & H4 & H3 & H2 & ->).
    apply violation_Some in H4 as (lb4 & a4 & Hl4 & Ha4 & ->).
    apply violation_Some in H3 as (lb3 & a3 & Hl3 & Ha3 & ->).
    apply violation_Some in H2 as (lb2 & a2 & Hl2 & Ha2 & ->).
    rewrite (excess_zero lb4 a4), (excess_zero lb3 a3), (excess_zero lb2 a2).
    - lra.
    - by apply (Hle _ lb2 a2 constrained_loss_profit).
    - by apply (Hle _ lb3 a3 constrained_diff_mean).
    - by apply (Hle _ lb4 a4 constrained_drawdown). }
  rewrite Hz. split; lra.
Qed.

End FitnessMore.

(** ** More on the genome codec *)

Section CodecMore.
Import Codec.

Lemma length_sorted_items {A} (d : gmap string A) : length (sorted_items d) = size d.
Proof. by rewrite sorted_items_perm, length_map_to_list. Qed.

Lemma sorted_items_lookup {A} (d : gmap string A) j key :
  sorted_keys d !! j = Some key ->
  exists v, sorted_items d !! j = Some (key, v) /\ d !! key = Some v.
Proof.
  rewrite <- sorted_items_keys, list_lookup_fmap.
  destruct (sorted_items d !! j) as [[k v]|] eqn:E; [|done].
  cbn. intros [= ->]. exists v. split; [done|].
  apply elem_of_sorted_items. by eapply list_elem_of_lookup_2.
Qed.

(** The values of a dict in key order are determined by its lookups. *)
Lemma sorted_values_eq {A} (d : gmap string A) (vs : list A) :
  length vs = size d ->
  (forall j key, sorted_keys d !! j = Some key -> d !! key = vs !! j) ->
  (sorted_items d).*2 = vs.
Proof.
  intros Hlen Hval. apply list_eq_same_length with (size d).
  - done.
  - by rewrite length_fmap, length_sorted_items.
  - intros j x y Hj Hx Hy.
    destruct (lookup_lt_is_Some_2 (sorted_keys d) j) as [key Hkey].
    { by rewrite length_sorted_keys. }
    destruct (sorted_items_lookup d j key Hkey) as (v & Hitem & Hv).
    rewrite list_lookup_fmap, Hitem in Hx. cbn in Hx. injection Hx as <-.
    rewrite (Hval j key Hkey), Hy in Hv. by injection Hv.
Qed.

(** X5.  [config_to_individual] returns exactly when both sides exist, and
    the genome then has one entry per parameter of each side. *)
Theorem encode_length config :
  (is_Some (config_to_individual config) <->
   is_Some (bot config !! "long") /\ is_Some (bot config !! "short")) /\
  (forall individual long short,
     config_to_individual config = Some individual ->
     bot config !! "long" = Some long -> bot config !! "short" = Some short ->
     length individual = (size long + size short)%nat).
Proof.
  unfold config_to_individual. split.
  - destruct (bot config !! "long") as [l|]; cbn.
    2: { split; [by intros [? ?] | by intros [[? ?] _]]. }
    destruct (bot config !! "short") as [s|]; cbn.
    + split; [intros _; by split; eexists | by eexists].
    + split; [by intros [? ?] | by intros [_ [? ?]]].
  - intros individual long short Henc Hl Hs. rewrite Hl, Hs in Henc. cbn in Henc.
    injection Henc as <-. by rewrite length_app, !length_fmap, !length_sorted_items.
Qed.

(** Assigning keys paired with values: a key outside the list keeps its
    value, the [j]-th key gets the [j]-th value. *)
Lemma foldl_insert_zip_notin {A} (ks : list string) (vs : list A) (m : gmap string A) key :
  key ∉ ks -> foldl (fun m kv => <[kv.1 := kv.2]> m) m (zip ks vs) !! key = m !! key.
Proof.
  revert vs m. induction ks as [|k ks IH]; intros [|v vs] m Hnin; cbn; try done.
  apply not_elem_of_cons in Hnin as [Hne Hnin].
  rewrite IH by done. by apply lookup_insert_ne.
Qed.

Lemma foldl_insert_zip_lookup {A} (ks : list string) (vs : list A) (m : gmap string A)
    j key v :
  NoDup ks -> ks !! j = Some key -> vs !! j = Some v ->
  foldl (fun m kv => <[kv.1 := kv.2]> m) m (zip ks vs) !! key = Some v.
Proof.
  revert vs m j. induction ks as [|k ks IH]; intros [|v0 vs] m j Hnd Hk Hv;
    try done.
  apply NoDup_cons in Hnd as [Hk0 Hnd]. destruct j as [|j]; cbn in *.
  - injection Hk as ->. injection Hv as ->.
    rewrite foldl_insert_zip_notin by done. apply lookup_insert_eq.
  - by eapply IH.
Qed.

Lemma write_side_None_pure individual keys pside :
  write_side individual keys None pside = None.
Proof. unfold write_side. by induction keys. Qed.

(** What a completed inner loop implies: every key consumed one genome
    entry, the side existed, and nothing outside that side changed. *)
Lemma write_side_inv_pure individual keys pside config i config' i' :
  write_side individual keys (Some (config, i)) pside = Some (config', i') ->
  i' = (i + length keys)%nat /\
  (keys <> [] -> (i' <= length individual)%nat /\ is_Some (bot config !! pside)) /\
  optimize config' = optimize config /\
  results_filename config' = results_filename config /\
  (forall side, side <> pside -> bot config' !! side = bot config !! side).
Proof.
  unfold write_side. revert config i.
  induction keys as [|k keys IH]; intros config i; cbn [foldl].
  - intros [= <- <-]. rewrite Nat.add_0_r. by repeat split.
  - unfold write_param at 2. cbn.
    destruct (individual !! i) as [v|] eqn:Hv; cbn.
    2: { fold (write_side individual keys None pside).
         by rewrite write_side_None_pure. }
    unfold set_param. destruct (bot config !! pside) as [side|] eqn:Hside; cbn.
    2: { fold (write_side individual keys None pside).
         by rewrite write_side_None_pure. }
    intros Hrest. apply IH in Hrest as (-> & Hne & Hopt & Hres & Hother). cbn in *.
    split; [lia|]. split; [|split; [done | split; [done|]]].
    + intros _. split; [|by eexists].
      destruct keys as [|k' keys'].
      * cbn. apply lookup_lt_Some in Hv. lia.
      * destruct Hne as [Hle _]; [done|]. cbn in *. lia.
    + intros side' Hne'. rewrite Hother by done. by apply lookup_insert_ne.
Qed.

(** The decoder in closed form, for a template with both sides and a genome
    of at least twice as many entries as there are parameter names. *)
Lemma decode_closed_form get_template individual template tl ts :
  bot template !! "long" = Some tl -> bot template !! "short" = Some ts ->
  (2 * size tl <= length individual)%nat ->
  individual_to_config get_template individual (Some template) =
  Some {| bot :=
            <["short" := foldl (fun m kv => <[kv.1 := kv.2]> m) ts
                           (zip (sorted_keys tl) (drop (size tl) individual))]>
              (<["long" := foldl (fun m kv => <[kv.1 := kv.2]> m) tl
                             (zip (sorted_keys tl) individual)]> (bot template));
          optimize := optimize template;
          results_filename := results_filename template |}.
Proof.
  intros Htl Hts Hlen. unfold individual_to_config. cbn [default from_option id].
  rewrite Htl. cbn.
  pose proof (length_sorted_keys tl) as Hk.
  rewrite (write_side_spec _ _ _ _ _ tl Htl) by lia.
  rewrite (write_side_spec _ _ _ _ _ ts); [| cbn; by rewrite lookup_insert_ne | cbn; lia].
  cbn. by rewrite drop_0, Hk.
Qed.

Lemma decode_Some_inv get_template individual template config :
  individual_to_config get_template individual (Some template) = Some config ->
  exists tl, bot template !! "long" = Some tl /\
    (size tl = 0%nat \/
     (is_Some (bot template !! "short") /\ (2 * size tl <= length individual)%nat)).
Proof.
  intros Hdec. unfold individual_to_config in Hdec.
  cbn [default from_option id] in Hdec.
  destruct (bot template !! "long") as [tl|] eqn:Htl; [|done]. cbn in Hdec.
  exists tl. split; [done|].
  destruct (write_side individual (sorted_keys tl) (Some (template, 0%nat)) "long")
    as [[c1 i1]|] eqn:H1.
  2: { by rewrite write_side_None_pure in Hdec. }
  destruct (write_side individual (sorted_keys tl) (Some (c1, i1)) "short")
    as [[c2 i2]|] eqn:H2; [|done].
  apply write_side_inv_pure in H1 as (-> & _ & _ & _ & Hother).
  apply write_side_inv_pure in H2 as (-> & Hne & _).
  pose proof (length_sorted_keys tl) as Hk.
  destruct (sorted_keys tl) as [|k ks] eqn:Hkeys.
  - left. by rewrite <- Hk.
  - right. destruct Hne as [Hle Hshort]; [done|].
    rewrite Hother in Hshort by done. split; [done|]. cbn in *. lia.
Qed.

(** X6.  When [individual_to_config] returns rather than raising KeyError
    or IndexError: the template needs a "long" side; unless that side is
    empty it also needs a "short" side and a genome of at least twice as
    many entries as "long" has parameters. *)
Theorem decode_returns_iff get_template individual template :
  is_Some (individual_to_config get_template individual (Some template)) <->
  exists tl, bot template !! "long" = Some tl /\
    (size tl = 0%nat \/
     (is_Some (bot template !! "short") /\ (2 * size tl <= length individual)%nat)).
Proof.
  split.
  - intros [config Hdec]. by eapply decode_Some_inv.
  - intros (tl & Htl & [Hzero | [[ts Hts] Hlen]]).
    + unfold individual_to_config. cbn [default from_option id]. rewrite Htl. cbn.
      assert (sorted_keys tl = []) as ->.
      { apply length_zero_iff_nil. by rewrite length_sorted_keys. }
      by eexists.
    + rewrite (decode_closed_form _ _ _ tl ts) by done. by eexists.
Qed.

(** X7.  Where the genome goes: with [k] parameter names, entry [j] of the
    genome becomes the value of the [j]-th name (in sorted order) on side
    "long" and entry [k + j] its value on side "short"; names of "short"
    that "long" does not have keep their values. *)
Theorem decode_places_genome get_template individual template tl ts config :
  bot template !! "long" = Some tl -> bot template !! "short" = Some ts ->
  individual_to_config get_template individual (Some template) = Some config ->
  size tl <> 0%nat ->
  exists long short,
    bot config !! "long" = Some long /\ bot config !! "short" = Some short /\
    (forall j key, sorted_keys tl !! j = Some key ->
       long !! key = individual !! j /\
       short !! key = individual !! (size tl + j)%nat) /\
    (forall key, key ∉ dom tl -> long !! key = None /\ short !! key = ts !! key).
Proof.
  intros Htl Hts Hdec Hnz.
  assert (2 * size tl <= length individual)%nat as Hlen.
  { destruct (decode_Some_inv _ _ _ _ Hdec) as (tl' & Htl' & Hcase).
    rewrite Htl in Htl'. injection Htl' as <-.
    by destruct Hcase as [Hz | [_ Hl]]. }
  rewrite (decode_closed_form _ _ _ tl ts) in Hdec by done. injection Hdec as <-.
  pose proof (length_sorted_keys tl) as Hk.
  eexists _, _. cbn.
  split; [by rewrite lookup_insert_ne, lookup_insert_eq|].
  split; [by rewrite lookup_insert_eq|]. split.
  - intros j key Hkey.
    assert (j < size tl)%nat as Hj by (rewrite <- Hk; by eapply lookup_lt_Some).
    destruct (lookup_lt_is_Some_2 individual j ltac:(lia)) as [v Hv].
    destruct (lookup_lt_is_Some_2 individual (size tl + j) ltac:(lia)) as [v' Hv'].
    split.
    + rewrite Hv. eapply foldl_insert_zip_lookup; [apply sorted_keys_NoDup | done..].
    + rewrite Hv'. eapply foldl_insert_zip_lookup; [apply sorted_keys_NoDup | done |].
      by rewrite lookup_drop.
  - intros key Hkey.
    assert (key ∉ sorted_keys tl) as Hnin by (by rewrite elem_of_sorted_keys).
    rewrite !foldl_insert_zip_notin by done. split; [|done].
    by apply not_elem_of_dom.
Qed.

(** X8.  Encoding what was decoded gives the genome back, cut to the [2k]
    entries the decoder reads, when "short" has no names beyond those of
    "long". *)
Theorem encode_decode_roundtrip get_template individual template tl ts :
  bot template !! "long" = Some tl -> bot template !! "short" = Some ts ->
  dom ts ⊆ dom tl ->
  (2 * size tl <= length individual)%nat ->
  exists config,
    individual_to_config get_template individual (Some template) = Some config /\
    config_to_individual config = Some (take (2 * size tl) individual).
Proof.
  intros Htl Hts Hsub Hlen.
  rewrite (decode_closed_form _ _ _ tl ts) by done. eexists. split; [done|].
  unfold config_to_individual. cbn [bot].
  rewrite (lookup_insert_ne _ "short" "long") by done.
  rewrite lookup_insert_eq. cbn [mbind option_bind].
  rewrite lookup_insert_eq. cbn [mbind option_bind]. f_equal.
  set (keys := sorted_keys tl).
  pose proof (length_sorted_keys tl) as Hk. fold keys in Hk.
  set (long := foldl _ tl (zip keys individual)).
  set (short := foldl _ ts (zip keys (drop (size tl) individual))).
  assert (forall j key, keys !! j = Some key ->
            long !! key = individual !! j /\
            short !! key = individual !! (size tl + j)%nat) as Hval.
  { intros j key Hkey.
    assert (j < size tl)%nat as Hj by (rewrite <- Hk; by eapply lookup_lt_Some).
    destruct (lookup_lt_is_Some_2 individual j ltac:(lia)) as [v Hv].
    destruct (lookup_lt_is_Some_2 individual (size tl + j) ltac:(lia)) as [v' Hv'].
    split.
    - rewrite Hv. eapply foldl_insert_zip_lookup; [apply sorted_keys_NoDup | done..].
    - rewrite Hv'. eapply foldl_insert_zip_lookup; [apply sorted_keys_NoDup | done |].
      by rewrite lookup_drop. }
  assert (forall (m : gmap string Q) (vs : list Q)
            (d := foldl (fun m kv => <[kv.1 := kv.2]> m) m (zip keys vs)),
            dom m ⊆ dom tl -> (size tl <= length vs)%nat -> dom d = dom tl) as Hdom.
  { intros m vs d Hm Hvs. apply set_eq. intros key. rewrite !elem_of_dom.
    destruct (decide (key ∈ keys)) as [Hin | Hnin].
    - apply list_elem_of_lookup in Hin as [j Hj].
      assert (j < size tl)%nat by (rewrite <- Hk; by eapply lookup_lt_Some).
      destruct (lookup_lt_is_Some_2 vs j ltac:(lia)) as [v Hv].
      unfold d. rewrite (foldl_insert_zip_lookup keys vs m j key v);
        [|apply sorted_keys_NoDup | done..].
      split; intros _; [|by eexists].
      apply elem_of_dom, elem_of_sorted_keys. by eapply list_elem_of_lookup_2.
    - unfold d. rewrite foldl_insert_zip_notin by done.
      assert (key ∉ dom tl) as Hnd by (by rewrite <- elem_of_sorted_keys).
      split; intros Hs; exfalso; apply Hnd.
      + apply Hm. by apply elem_of_dom.
      + by apply elem_of_dom. }
  assert (dom long = dom tl) as Hdl by (apply Hdom; [done | lia]).
  assert (dom short = dom tl) as Hds by (apply Hdom; [done | rewrite length_drop; lia]).
  assert (sorted_keys long = keys) as Hkl by (by apply sorted_keys_dom).
  assert (sorted_keys short = keys) as Hks by (by apply sorted_keys_dom).
  assert (size long = size tl) as Hsl by (by rewrite <- !length_sorted_keys, Hkl).
  assert (size short = size tl) as Hss by (by rewrite <- !length_sorted_keys, Hks).
  rewrite (sorted_values_eq long (take (size tl) individual)).
  - rewrite (sorted_values_eq short (take (size tl) (drop (size tl) individual))).
    + replace (2 * size tl)%nat with (size tl + size tl)%nat by lia.
      rewrite <- (take_drop (size tl) (take (size tl + size tl) individual)).
      rewrite take_take, Nat.min_l by lia. f_equal.
      by rewrite take_drop_commute.
    + rewrite length_take, length_drop. lia.
    + intros j key. rewrite Hks. intros Hkey.
      assert (j < size tl)%nat by (rewrite <- Hk; by eapply lookup_lt_Some).
      rewrite lookup_take_lt by done. rewrite lookup_drop. by apply Hval.
  - rewrite length_take. lia.
  - intros j key. rewrite Hkl. intros Hkey.
    assert (j < size tl)%nat by (rewrite <- Hk; by eapply lookup_lt_Some).
    rewrite lookup_take_lt by done. by apply Hval.
Qed.

(** X9.  Decoding touches the two parameter dicts only: the other sections
    of the configuration and any other entry under "bot" are those of the
    template, whatever the genome. *)
Theorem decode_frame get_template individual template config :
  individual_to_config get_template individual (Some template) = Some config ->
  optimize config = optimize template /\
  results_filename config = results_filename template /\
  (forall side, side <> "long" -> side <> "short" ->
     bot config !! side = bot template !! side).
Proof.
  unfold individual_to_config. cbn [default from_option id].
  destruct (bot template !! "long") as [tl|]; [|done]. cbn.
  destruct (write_side individual (sorted_keys tl) (Some (template, 0%nat)) "long")
    as [[c1 i1]|] eqn:H1.
  2: { by rewrite write_side_None_pure. }
  destruct (write_side individual (sorted_keys tl) (Some (c1, i1)) "short")
    as [[c2 i2]|] eqn:H2; [|done].
  cbn. intros [= <-].
  apply write_side_inv_pure in H1 as (_ & _ & Ho1 & Hr1 & Hb1).
  apply write_side_inv_pure in H2 as (_ & _ & Ho2 & Hr2 & Hb2).
  split; [congruence|]. split; [congruence|].
  intros side Hl Hs. rewrite Hb2, Hb1 by done. done.
Qed.

(** X10.  Among configurations with the same parameter names, the genome
    determines the parameter values: equal genomes come from equal "long"
    and "short" dicts. *)
Theorem encode_injective c1 c2 l1 s1 l2 s2 individual :
  bot c1 !! "long" = Some l1 -> bot c1 !! "short" = Some s1 ->
  bot c2 !! "long" = Some l2 -> bot c2 !! "short" = Some s2 ->
  dom l1 = dom l2 -> dom s1 = dom s2 ->
  config_to_individual c1 = Some individual ->
  config_to_individual c2 = Some individual ->
  l1 = l2 /\ s1 = s2.
Proof.
  intros Hl1 Hs1 Hl2 Hs2 Hdl Hds. unfold config_to_individual.
  rewrite Hl1, Hs1, Hl2, Hs2. cbn. intros [= <-] [= Heq].
  assert (forall (d1 d2 : gmap string Q),
            dom d1 = dom d2 -> (sorted_items d1).*2 = (sorted_items d2).*2 -> d1 = d2)
    as Hinj.
  { intros d1 d2 Hdom Hvals.
    assert (sorted_items d1 = sorted_items d2) as Hitems.
    { rewrite <- (zip_fst_snd (sorted_items d1)), <- (zip_fst_snd (sorted_items d2)).
      rewrite !sorted_items_keys, Hvals. by rewrite (sorted_keys_dom d1 d2). }
    apply map_eq. intros k. apply option_eq. intros v.
    by rewrite <- !elem_of_sorted_items, Hitems. }
  apply app_inj_1 in Heq as [Hl Hs].
  - split; apply Hinj; done.
  - rewrite !length_fmap, !length_sorted_items.
    by rewrite <- !length_sorted_keys, (sorted_keys_dom l1 l2).
Qed.

End CodecMore.

(** ** More on the bounded operators *)

Section OperatorsMore.
Import Operators.





Section Contract.
Variable mutPolynomialBounded :
  list Q -> Q -> list Q -> list Q -> Q -> option (list Q).
Variable cxSimulatedBinaryBounded :
  list Q -> list Q -> Q -> list Q -> list Q -> option (list Q * list Q).






End Contract.
End OperatorsMore.

(** ** More on seeds and the initial population *)

Section StartingMore.
Import Start.
Variable isdir : string -> bool.
Variable listdir : string -> list string.
Variable load_hjson_config : string -> option Config.

Lemma foldl_load_into cfgs paths :
  foldl (load_into load_hjson_config) cfgs paths = cfgs ++ omap load_hjson_config paths.
Proof.
  revert cfgs. induction paths as [|p paths IH]; intros cfgs; cbn.
  - by rewrite app_nil_r.
  - rewrite IH. unfold load_into. destruct (load_hjson_config p); [|done].
    by rewrite <- app_assoc.
Qed.

(** X14.  [get_starting_configs] returns the configurations of the files
    that load, in listing order: a file that fails to load is skipped and
    neither aborts the run nor drops another file's configuration.  Without
    a path there are no starting configurations. *)
Theorem starting_configs_are_the_loadable_files starting_configs :
  get_starting_configs isdir listdir load_hjson_config starting_configs =
  match starting_configs with
  | None => []
  | Some path =>
      omap load_hjson_config
        (if isdir path then path_join path <$> listdir path else [path])
  end.
Proof.
  destruct starting_configs as [path|]; [|done].
  unfold get_starting_configs, filenames. by rewrite foldl_load_into.
Qed.

End StartingMore.

Section DedupMore.
Import Seeds.
Context {H : Type} `{EqDecision H}.
Variable calc_hash : list Q -> H.
Variable format_config : Config -> option Config.

Lemma elem_of_dict_set k v (inds : list (H * list Q)) k0 v0 :
  NoDup inds.*1 ->
  (k0, v0) ∈ dict_set k v inds ->
  (k0 = k /\ v0 = v) \/ (k0 <> k /\ (k0, v0) ∈ inds).
Proof.
  induction inds as [|[k' v'] inds IH]; cbn; intros Hnd.
  - intros [= -> ->]%list_elem_of_singleton. by left.
  - apply NoDup_cons in Hnd as [Hk' Hnd].
    destruct (decide (k' = k)) as [-> | Hne].
    + intros [[= -> ->] | Hin]%elem_of_cons; [by left|].
      right. split; [|by right]. intros ->. apply Hk'.
      apply list_elem_of_fmap. by exists (k, v0).
    + intros [[= -> ->] | Hin]%elem_of_cons.
      * right. split; [done | by left].
      * destruct (IH Hnd Hin) as [? | [? ?]]; [by left|]. right. split; [done | by right].
Qed.

(** Invariant of the loop, for the seeds [cfgs] read so far: every entry
    holds the encoding of the last seed among them that has its hash. *)
Lemma add_seed_unfold inds cfg :
  add_seed calc_hash format_config inds cfg =
  match seed_individual format_config cfg with
  | Some individual => dict_set (calc_hash individual) individual inds
  | None => inds
  end.
Proof. done. Qed.

Lemma foldl_add_seed_last cfgs :
  NoDup (foldl (add_seed calc_hash format_config) [] cfgs).*1 /\
  forall k v, (k, v) ∈ foldl (add_seed calc_hash format_config) [] cfgs ->
    k = calc_hash v /\
    exists before cfg after,
      cfgs = before ++ cfg :: after /\ seed_individual format_config cfg = Some v /\
      forall c v', c ∈ after -> seed_individual format_config c = Some v' -> calc_hash v' <> calc_hash v.
Proof.
  induction cfgs as [|cfg cfgs IH] using rev_ind; cbn.
  - split; [apply NoDup_nil_2|]. by intros k v ?%elem_of_nil.
  - rewrite foldl_app. cbn [foldl]. destruct IH as [Hnd Hlast].
    set (inds := foldl (add_seed calc_hash format_config) [] cfgs) in *.
    rewrite add_seed_unfold.
    destruct (seed_individual format_config cfg) as [individual|] eqn:Henc.
    + split; [by apply dict_set_NoDup|].
      intros k v Hin. apply elem_of_dict_set in Hin as [[-> ->] | [Hne Hin]]; [| |done].
      * split; [done|]. exists cfgs, cfg, []. split; [done|]. split; [done|].
        by intros c v' ?%elem_of_nil.
      * destruct (Hlast k v Hin) as (-> & before & c0 & after & -> & Hc0 & Hafter).
        split; [done|]. exists before, c0, (after ++ [cfg]).
        split; [by rewrite <- app_assoc|]. split; [done|].
        intros c v' [Hc | ->%list_elem_of_singleton]%elem_of_app Hv'.
        -- by eapply Hafter.
        -- rewrite Henc in Hv'. injection Hv' as <-. done.
    + split; [done|]. intros k v Hin.
      destruct (Hlast k v Hin) as (-> & before & c0 & after & -> & Hc0 & Hafter).
      split; [done|]. exists before, c0, (after ++ [cfg]).
      split; [by rewrite <- app_assoc|]. split; [done|].
      intros c v' [Hc | ->%list_elem_of_singleton]%elem_of_app Hv'.
      * by eapply Hafter.
      * rewrite Henc in Hv'. done.
Qed.

(** X15.  Among seeds with the same hash the last one wins: every individual
    returned by [configs_to_individuals] is the encoding of a seed after
    which no seed of the list encodes to the same hash. *)
Theorem last_duplicate_seed_wins cfgs individual :
  individual ∈ configs_to_individuals calc_hash format_config cfgs ->
  exists before cfg after,
    cfgs = before ++ cfg :: after /\ seed_individual format_config cfg = Some individual /\
    forall c v', c ∈ after -> seed_individual format_config c = Some v' ->
      calc_hash v' <> calc_hash individual.
Proof.
  unfold configs_to_individuals. intros ([k v] & -> & Hin)%list_elem_of_fmap.
  destruct (foldl_add_seed_last cfgs) as [_ Hlast].
  by destruct (Hlast k v Hin) as (_ & Hex).
Qed.

Lemma foldl_add_seed_filter cfgs inds :
  foldl (add_seed calc_hash format_config) inds
        (filter (fun cfg => is_Some (seed_individual format_config cfg)) cfgs)
  = foldl (add_seed calc_hash format_config) inds cfgs.
Proof.
  revert inds. induction cfgs as [|cfg cfgs IH]; intros inds; [done|].
  destruct (seed_individual format_config cfg) as [v|] eqn:Henc.
  - rewrite filter_cons_True by (by rewrite Henc). cbn. apply IH.
  - rewrite filter_cons_False by (rewrite Henc; by intros [? ?]). cbn.
    rewrite IH. f_equal. by rewrite add_seed_unfold, Henc.
Qed.

Lemma length_dict_set_le k v (inds : list (H * list Q)) :
  (length (dict_set k v inds) <= S (length inds))%nat.
Proof.
  induction inds as [|[k' v'] inds IH]; cbn; [lia|].
  destruct (decide (k' = k)); cbn; lia.
Qed.

Lemma length_foldl_add_seed cfgs inds :
  (length (foldl (add_seed calc_hash format_config) inds cfgs)
   <= length inds + length (filter (fun cfg => is_Some (seed_individual format_config cfg)) cfgs))%nat.
Proof.
  revert inds. induction cfgs as [|cfg cfgs IH]; intros inds; [cbn; lia|].
  cbn [foldl]. etrans; [apply IH|]. rewrite add_seed_unfold.
  destruct (seed_individual format_config cfg) as [v|] eqn:Henc.
  - rewrite filter_cons_True by (by rewrite Henc). cbn.
    pose proof (length_dict_set_le (calc_hash v) v inds). lia.
  - rewrite filter_cons_False by (rewrite Henc; by intros [? ?]). lia.
Qed.

(** X16.  Seeds that fail to load leave no trace: the result is the one the
    loadable seeds alone would give, and it has at most as many individuals
    as there are loadable seeds. *)
Theorem unloadable_seeds_are_ignored cfgs :
  configs_to_individuals calc_hash format_config cfgs =
  configs_to_individuals calc_hash format_config
    (filter (fun cfg => is_Some (seed_individual format_config cfg)) cfgs) /\
  (length (configs_to_individuals calc_hash format_config cfgs)
   <= length (filter (fun cfg => is_Some (seed_individual format_config cfg)) cfgs))%nat.
Proof.
  unfold configs_to_individuals. split.
  - by rewrite foldl_add_seed_filter.
  - rewrite length_fmap. apply (length_foldl_add_seed cfgs []).
Qed.

End DedupMore.

(** ** More on the initial population and the generation budget *)

Section PopulationMore.
Import Seeds.

Lemma toolbox_population_lookup create n i :
  (i < n)%nat -> toolbox_population create n !! i = Some (create i).
Proof.
  intros Hi. unfold toolbox_population.
  by rewrite list_lookup_fmap, lookup_seq_lt.
Qed.

(** Shape of the initial population, whatever the number of seeds. *)
Lemma initial_population_shape create population_size seeds bounds :
  Forall (fun seed => (length seed <= length bounds)%nat) seeds ->
  exists population,
    initial_population create population_size seeds bounds
      = Some (population_size `max` length seeds, population) /\
    length population = population_size `max` length seeds /\
    (forall i seed, seeds !! i = Some seed ->
       exists adjusted, adjust bounds seed = Some adjusted /\
         population !! i = Some adjusted) /\
    (forall i, (length seeds <= i < population_size `max` length seeds)%nat ->
       population !! i = Some (create i)).
Proof.
  intros Hall. unfold initial_population.
  set (n := if decide (population_size < length seeds)%nat
            then length seeds else population_size).
  assert (n = population_size `max` length seeds) as Hn.
  { unfold n. case_decide; lia. }
  destruct (overwrite_prefix bounds seeds (toolbox_population create n) (length seeds))
    as (pop & Hfold & Hl & Hlow & Hhigh); [done | lia | |].
  { rewrite length_toolbox_population. lia. }
  rewrite length_toolbox_population in Hl. rewrite <- Hn.
  destruct seeds as [|s0 seeds'] eqn:Hseeds.
  - cbn. eexists. split; [done|]. split; [apply length_toolbox_population|].
    split; [by intros i seed ?|].
    intros i Hi. apply toolbox_population_lookup. lia.
  - rewrite <- Hseeds in *. rewrite Hfold. cbn. exists pop.
    split; [done|]. split; [done|]. split.
    + intros i seed Hseed. apply (Hlow i seed); [|done]. by eapply lookup_lt_Some.
    + intros i Hi. rewrite Hhigh by lia. apply toolbox_population_lookup. lia.
Qed.

(** X17.  The initial population for any number of seeds: its size is the
    larger of the configured size and the number of seeds; slot [i] holds
    seed [i] clamped, for every seed; every later slot holds the random
    individual sampled for it. *)
Theorem initial_population_layout create population_size seeds bounds :
  Forall (fun seed => (length seed <= length bounds)%nat) seeds ->
  exists population,
    initial_population create population_size seeds bounds
      = Some (population_size `max` length seeds, population) /\
    length population = population_size `max` length seeds /\
    (forall i seed, seeds !! i = Some seed ->
       exists adjusted, adjust bounds seed = Some adjusted /\
         population !! i = Some adjusted) /\
    (forall i, (length seeds <= i < population_size `max` length seeds)%nat ->
       population !! i = Some (create i)).
Proof. apply initial_population_shape. Qed.

Lemma adjust_is_Some bounds seed :
  is_Some (adjust bounds seed) <-> (length seed <= length bounds)%nat.
Proof.
  split.
  - intros [adjusted Hadj]. unfold adjust in Hadj. apply mapM_Some in Hadj.
    destruct (decide (length seed <= length bounds)%nat) as [|Hgt]; [done|].
    destruct (lookup_lt_is_Some_2 seed (length bounds) ltac:(lia)) as [x Hx].
    destruct (Forall2_lookup_l _ _ _ (length bounds) (length bounds, x) Hadj)
      as (y & _ & Hc).
    { by rewrite list_lookup_imap, Hx. }
    unfold clamp in Hc. cbn in Hc.
    rewrite (lookup_ge_None_2 bounds (length bounds)) in Hc by lia. done.
  - intros Hlen. destruct (adjust_spec bounds seed Hlen) as (adjusted & -> & _).
    by eexists.
Qed.

Lemma foldl_overwrite_None bounds seeds idx :
  foldl (overwrite bounds seeds) None idx = None.
Proof. by induction idx. Qed.

Lemma foldl_overwrite_Some bounds seeds population k population' :
  foldl (overwrite bounds seeds) (Some population) (seq 0 k) = Some population' ->
  forall i, (i < k)%nat ->
    exists seed, seeds !! i = Some seed /\ is_Some (adjust bounds seed).
Proof.
  revert population'. induction k as [|k IH]; intros pop' Hfold i Hi; [lia|].
  rewrite seq_S, foldl_app in Hfold. cbn [foldl] in Hfold.
  destruct (foldl (overwrite bounds seeds) (Some population) (seq 0 k)) as [pop|] eqn:E;
    [|done].
  destruct (decide (i = k)) as [-> | Hne]; [|apply (IH pop eq_refl); lia].
  unfold overwrite in Hfold. cbn in Hfold.
  destruct (seeds !! k) as [seed|]; [|done]. cbn in Hfold.
  destruct (adjust bounds seed) as [adjusted|] eqn:Hadj; [|done].
  exists seed. split; [done|]. by eexists.
Qed.

Lemma initial_population_returns_length_aux create population_size seeds bounds r :
  initial_population create population_size seeds bounds = Some r ->
  Forall (fun seed => (length seed <= length bounds)%nat) seeds.
Proof.
  intros Hinit. unfold initial_population in Hinit.
  destruct seeds as [|s0 seeds'] eqn:Hseeds; [constructor|].
  rewrite <- Hseeds in *.
  destruct (foldl _ _ (seq 0 (length seeds))) as [pop'|] eqn:Hfold; [|done].
  apply Forall_forall. intros seed Hin.
  apply list_elem_of_lookup in Hin as [i Hi].
  destruct (foldl_overwrite_Some _ _ _ _ _ Hfold i) as (seed' & Hseed' & Hsome).
  { by eapply lookup_lt_Some. }
  rewrite Hi in Hseed'. injection Hseed' as <-. by apply adjust_is_Some.
Qed.

(** X18.  The initial population is built exactly when no seed is longer
    than the list of bounds; a longer seed makes [bounds[z]] raise
    IndexError.  A shorter seed is accepted. *)
Theorem initial_population_returns_iff create population_size seeds bounds :
  is_Some (initial_population create population_size seeds bounds) <->
  Forall (fun seed => (length seed <= length bounds)%nat) seeds.
Proof.
  split.
  - intros [r Hinit]. by eapply initial_population_returns_length_aux.
  - intros Hall.
    destruct (initial_population_shape create population_size seeds bounds Hall)
      as (pop & -> & _). by eexists.
Qed.

Lemma clamp_within_id x lo hi : (lo <= x <= hi)%Q -> pymax (pymin x hi) lo = x.
Proof.
  intros [Hlo Hhi]. unfold pymin.
  assert (Qltb hi x = false) as -> by (by apply Qltb_ge).
  unfold pymax. by assert (Qltb x lo = false) as -> by (by apply Qltb_ge).
Qed.

Lemma adjust_within_id bounds seed :
  (length seed <= length bounds)%nat ->
  within bounds.*1 bounds.*2 seed ->
  adjust bounds seed = Some seed.
Proof.
  intros Hlen Hin.
  destruct (adjust_spec bounds seed Hlen) as (adjusted & -> & Hl & Hval).
  f_equal. apply list_eq_same_length with (length seed); [done..|].
  intros z y x Hz Hy Hx.
  destruct (lookup_lt_is_Some_2 bounds z ltac:(lia)) as [[lo hi] Hb].
  rewrite (Hval z x lo hi Hx Hb) in Hy. injection Hy as <-.
  apply clamp_within_id. apply (Hin z lo hi x); [| |done].
  - by rewrite list_lookup_fmap, Hb.
  - by rewrite list_lookup_fmap, Hb.
Qed.

(** X19.  Seeds that already lie within the bounds enter the initial
    population unchanged. *)
Theorem seeds_within_bounds_are_kept create population_size seeds bounds :
  Forall (fun seed => (length seed <= length bounds)%nat) seeds ->
  Forall (within bounds.*1 bounds.*2) seeds ->
  exists n population,
    initial_population create population_size seeds bounds = Some (n, population) /\
    forall i seed, seeds !! i = Some seed -> population !! i = Some seed.
Proof.
  intros Hlen Hin.
  destruct (initial_population_shape create population_size seeds bounds Hlen)
    as (pop & Hinit & _ & Hseeds & _).
  eexists _, pop. split; [done|]. intros i seed Hseed.
  destruct (Hseeds i seed Hseed) as (adjusted & Hadj & Hpop).
  rewrite adjust_within_id in Hadj.
  - by injection Hadj as <-.
  - rewrite Forall_forall in Hlen. apply Hlen. by eapply list_elem_of_lookup_2.
  - rewrite Forall_forall in Hin. apply Hin. by eapply list_elem_of_lookup_2.
Qed.

Lemma adjust_within bounds seed adjusted :
  Forall (fun b : Q * Q => (b.1 <= b.2)%Q) bounds ->
  adjust bounds seed = Some adjusted ->
  within bounds.*1 bounds.*2 adjusted.
Proof.
  intros Hord Hadj i a b x Ha Hb Hx.
  rewrite list_lookup_fmap in Ha, Hb.
  destruct (bounds !! i) as [[lo hi]|] eqn:Hbi; [|done].
  cbn in Ha, Hb. injection Ha as <-. injection Hb as <-.
  assert (length seed <= length bounds)%nat as Hlen.
  { apply adjust_is_Some. by eexists. }
  destruct (adjust_spec bounds seed Hlen) as (adj' & Hadj' & Hl & Hval).
  rewrite Hadj in Hadj'. injection Hadj' as <-.
  destruct (lookup_lt_is_Some_2 seed i) as [x0 Hx0].
  { rewrite <- Hl. by eapply lookup_lt_Some. }
  rewrite (Hval i x0 lo hi Hx0 Hbi) in Hx. injection Hx as <-.
  apply clamp_in_bounds.
  rewrite Forall_forall in Hord. apply (Hord (lo, hi)). by eapply list_elem_of_lookup_2.
Qed.

(** X20.  If [np.random.uniform(low, high)] draws between its arguments,
    every individual of the initial population, sampled or seeded, lies
    within the bounds in every dimension. *)
Theorem initial_population_within_bounds uniform population_size seeds bounds n population :
  (forall d lo hi, (lo <= hi)%Q -> (lo <= uniform d lo hi <= hi)%Q) ->
  Forall (fun b : Q * Q => (b.1 <= b.2)%Q) bounds ->
  initial_population (Start.create_individual uniform bounds) population_size seeds bounds
    = Some (n, population) ->
  Forall (within bounds.*1 bounds.*2) population.
Proof.
  intros Huni Hord Hinit.
  assert (Forall (fun seed => (length seed <= length bounds)%nat) seeds) as Hlen.
  { by eapply initial_population_returns_length_aux. }
  destruct (initial_population_shape (Start.create_individual uniform bounds)
              population_size seeds bounds Hlen)
    as (pop & Hinit' & Hl & Hseeds & Hrandom).
  rewrite Hinit in Hinit'. injection Hinit' as -> ->.
  apply Forall_forall. intros ind Hin.
  apply list_elem_of_lookup in Hin as [i Hi].
  destruct (decide (i < length seeds)%nat) as [Hlt | Hge].
  - destruct (lookup_lt_is_Some_2 seeds i Hlt) as [seed Hseed].
    destruct (Hseeds i seed Hseed) as (adjusted & Hadj & Hpop).
    rewrite Hi in Hpop. injection Hpop as ->. by eapply adjust_within.
  - rewrite Hrandom in Hi.
    2: { split; [lia|]. rewrite <- Hl. by eapply lookup_lt_Some. }
    injection Hi as <-. intros z a b x Ha Hb Hx.
    rewrite list_lookup_fmap in Ha, Hb. unfold Start.create_individual in Hx.
    rewrite list_lookup_imap in Hx.
    destruct (bounds !! z) as [[lo hi]|] eqn:Hbz; [|done].
    cbn in *. injection Ha as <-. injection Hb as <-. injection Hx as <-.
    apply Huni. rewrite Forall_forall in Hord. apply (Hord (lo, hi)).
    by eapply list_elem_of_lookup_2.
Qed.

End PopulationMore.

(** ** More on the generation budget *)

Section BudgetMore.
Import Budget.

(** X21.  More iterations, or a smaller population, never give fewer
    generations. *)
Theorem ngen_monotone iters iters' n n' g g' :
  ngen iters n = Some g -> ngen iters' n' = Some g' ->
  (iters <= iters')%Z -> (n' <= n)%nat ->
  (g <= g')%Z.
Proof.
  unfold ngen. case_decide as Hn; [done|]. case_decide as Hn'; [done|].
  intros [= <-] [= <-] Hi Hnn.
  destruct (Z.le_gt_cases iters 0) as [Hneg | Hpos].
  - pose proof (quot_nonpos iters (Z.of_nat n) Hneg ltac:(lia)). lia.
  - assert (iters ÷ Z.of_nat n <= iters ÷ Z.of_nat n')%Z.
    { apply Z.quot_le_compat_l; lia. }
    assert (iters ÷ Z.of_nat n' <= iters' ÷ Z.of_nat n')%Z.
    { apply Z.quot_le_mono; lia. }
    lia.
Qed.

(** X22.  The budget after seeding: with a positive population size or at
    least one seed the population is not empty, so the budget is defined, is
    at least one generation, and spends at most [max(iters, len(population))]
    evaluations per [len(population)] offspring; with size 0 and no seed the
    division by [len(population)] raises. *)
Theorem budget_after_seeding create population_size seeds bounds n population iters :
  Seeds.initial_population create population_size seeds bounds = Some (n, population) ->
  (population_size = 0%nat /\ seeds = [] -> ngen iters (length population) = None) /\
  ((0 < population_size)%nat \/ seeds <> [] ->
   exists g, ngen iters (length population) = Some g /\ (1 <= g)%Z /\
     (g * Z.of_nat (length population) <= iters `max` Z.of_nat (length population))%Z).
Proof.
  intros Hinit.
  pose proof (initial_population_returns_length_aux _ _ _ _ _ Hinit) as Hlen.
  destruct (initial_population_shape create population_size seeds bounds Hlen)
    as (pop & Hinit' & Hl & _).
  rewrite Hinit in Hinit'. injection Hinit' as Hn Hp. subst n pop.
  split.
  - intros [-> ->]. cbn in Hl. unfold ngen. by rewrite Hl.
  - intros Hne.
    assert (length population <> 0%nat) as Hpos.
    { rewrite Hl. destruct Hne as [? | Hs]; [lia|]. destruct seeds; [done | cbn; lia]. }
    rewrite (ngen_Some iters _ Hpos). eexists. split; [done|].
    set (b := Z.of_nat (length population)). assert (0 < b)%Z by (unfold b; lia).
    split; [lia|].
    destruct (Z.le_gt_cases iters 0) as [Hneg | Hp].
    + pose proof (quot_nonpos iters b Hneg ltac:(lia)).
      rewrite Z.max_l by lia. lia.
    + rewrite quot_floor by lia.
      pose proof (Z.mul_div_le iters b ltac:(lia)).
      pose proof (Z.div_pos iters b ltac:(lia) ltac:(lia)).
      destruct (Z.max_spec 1 (iters / b)) as [[_ ->] | [_ ->]]; lia.
Qed.

End BudgetMore.

(** ** More on the teardown *)

Section RunMore.
Import Run.



End RunMore.

(** ** Evaluator.evaluate *)

Section EvaluateFacts.
Import Evaluator Evaluation.
Variable get_template_live_config : Config.
Variable run_backtest : Config -> option (gmap string Q).

(** [calc_fitness] reads the analysis only at the constrained statistics,
    at "equity_balance_diff_max" and at the two scoring keys. *)
Lemma calc_fitness_agree config A B :
  "w_0" ∉ scoring (optimize config) -> "w_1" ∉ scoring (optimize config) ->
  (forall k, k <> "w_0" -> k <> "w_1" -> A !! k = B !! k) ->
  calc_fitness config A = calc_fitness config B.
Proof.
  intros H0 H1 Hagree.
  assert (Hm : calc_modifier (limits (optimize config)) A
               = calc_modifier (limits (optimize config)) B).
  { unfold calc_modifier, constrained, violation. cbn [foldl snd fst].
    by rewrite !Hagree by done. }
  assert (Hd : disqualified A = disqualified B).
  { unfold disqualified. by rewrite !Hagree by done. }
  unfold calc_fitness. rewrite Hm, Hd.
  destruct (calc_modifier _ B) as [m|]; [|done]. cbn [mbind option_bind].
  destruct (disqualified B) as [[]|]; [done| |done]. cbn [mbind option_bind].
  destruct (scoring (optimize config) !! 0%nat) as [s0|] eqn:E0; [|done].
  cbn [mbind option_bind].
  assert (A !! s0 = B !! s0) as ->.
  { apply Hagree; intros ->; [apply H0 | apply H1]; by eapply list_elem_of_lookup_2. }
  destruct (B !! s0) as [v0|]; [|done]. cbn [mbind option_bind].
  destruct (scoring (optimize config) !! 1%nat) as [s1|] eqn:E1; [|done].
  cbn [mbind option_bind].
  assert (A !! s1 = B !! s1) as ->.
  { apply Hagree; intros ->; [apply H0 | apply H1]; by eapply list_elem_of_lookup_2. }
  done.
Qed.

(** X25.  [evaluate] either raises and leaves the results file as it was, or
    appends exactly one line after the earlier ones.  The line holds the
    decoded configuration and the backtest's analysis with the two returned
    scores under "w_0" and "w_1"; when neither name is a scoring key,
    scoring the logged analysis again gives the logged scores. *)
Theorem evaluate_logs_its_scores self_config individual file r file' :
  "w_0" ∉ scoring (optimize self_config) ->
  "w_1" ∉ scoring (optimize self_config) ->
  evaluate get_template_live_config run_backtest self_config individual file = (r, file') ->
  (r = None -> file' = file) /\
  (forall w_0 w_1, r = Some (w_0, w_1) ->
     exists config stats analysis,
       Codec.individual_to_config get_template_live_config individual (Some self_config)
         = Some config /\
       run_backtest config = Some stats /\
       file' = file ++ [(analysis, config)] /\
       analysis !! "w_0" = Some w_0 /\ analysis !! "w_1" = Some w_1 /\
       (forall k, k <> "w_0" -> k <> "w_1" -> analysis !! k = stats !! k) /\
       calc_fitness self_config analysis = Some (w_0, w_1)).
Proof.
  intros H0 H1. unfold evaluate.
  destruct (Codec.individual_to_config _ _ _) as [config|] eqn:Ec; cbn [mbind option_bind];
    [|intros [= <- <-]; by split].
  destruct (run_backtest config) as [stats|] eqn:Eb; cbn [mbind option_bind];
    [|intros [= <- <-]; by split].
  destruct (calc_fitness self_config stats) as [[w_0 w_1]|] eqn:Ef; cbn [mbind option_bind];
    [|intros [= <- <-]; by split].
  intros [= <- <-]. split; [done|]. intros ? ? [= <- <-].
  assert (Hagree : forall k, k <> "w_0" -> k <> "w_1" ->
            (<["w_1" := w_1]> (<["w_0" := w_0]> stats) : gmap string Q) !! k = stats !! k).
  { intros k ? ?. by rewrite !lookup_insert_ne. }
  exists config, stats, (<["w_1" := w_1]> (<["w_0" := w_0]> stats)).
  repeat split; try done.
  - rewrite lookup_insert_ne by done. apply lookup_insert_eq.
  - apply lookup_insert_eq.
  - rewrite <- Ef. by apply calc_fitness_agree.
Qed.

End EvaluateFacts.

(** ** main: the template of the command line options *)

Section OptionsFacts.
Import Options.
Context {V : Type}.

Lemma foldl_strip_step_None (ks : list string) :
  foldl (strip_step (V:=V)) None ks = None.
Proof. by induction ks. Qed.

(** Deleting while iterating over the keys taken beforehand never raises. *)
Lemma foldl_strip_step (ks : list string) (live : gmap string V) :
  NoDup ks -> (forall k, k ∈ ks -> is_Some (live !! k)) ->
  exists live', foldl strip_step (Some live) ks = Some live' /\
    forall k, live' !! k =
      if bool_decide (k ∈ ks) && negb (bool_decide (k ∈ keep_live_keys))
      then None else live !! k.
Proof.
  revert live. induction ks as [|k0 ks IH]; intros live Hnd Hin.
  - exists live. split; [done|]. intros k.
    rewrite bool_decide_eq_false_2; [done | apply not_elem_of_nil].
  - apply NoDup_cons in Hnd as [Hk0 Hnd]. cbn [foldl].
    unfold strip_step at 2. cbn [mbind option_bind].
    destruct (bool_decide (k0 ∈ keep_live_keys)) eqn:Ekeep.
    + destruct (IH live Hnd) as (live' & Hf & Hl).
      { intros k Hk. apply Hin. by right. }
      exists live'. split; [done|]. intros k. rewrite Hl.
      destruct (decide (k = k0)) as [->|Hne].
      * rewrite (bool_decide_eq_false_2 (k0 ∈ ks)) by done.
        rewrite (bool_decide_eq_true_2 (k0 ∈ k0 :: ks)) by left.
        by rewrite Ekeep.
      * destruct (decide (k ∈ ks)) as [Hk|Hk].
        -- rewrite (bool_decide_eq_true_2 (k ∈ ks)) by done.
           by rewrite (bool_decide_eq_true_2 (k ∈ k0 :: ks)) by (by right).
        -- rewrite (bool_decide_eq_false_2 (k ∈ ks)) by done.
           rewrite (bool_decide_eq_false_2 (k ∈ k0 :: ks)); [done|].
           by intros [->|?]%elem_of_cons.
    + unfold del. destruct (Hin k0) as [v Hv]; [left|]. rewrite Hv.
      destruct (IH (delete k0 live) Hnd) as (live' & Hf & Hl).
      { intros k Hk. rewrite lookup_delete_ne; [apply Hin; by right|].
        by intros ->. }
      exists live'. split; [done|]. intros k. rewrite Hl.
      destruct (decide (k = k0)) as [->|Hne].
      * rewrite (bool_decide_eq_false_2 (k0 ∈ ks)) by done.
        rewrite (bool_decide_eq_true_2 (k0 ∈ k0 :: ks)) by left.
        rewrite Ekeep. cbn. apply lookup_delete_eq.
      * rewrite lookup_delete_ne by done.
        destruct (decide (k ∈ ks)) as [Hk|Hk].
        -- rewrite (bool_decide_eq_true_2 (k ∈ ks)) by done.
           by rewrite (bool_decide_eq_true_2 (k ∈ k0 :: ks)) by (by right).
        -- rewrite (bool_decide_eq_false_2 (k ∈ ks)) by done.
           rewrite (bool_decide_eq_false_2 (k ∈ k0 :: ks)); [done|].
           by intros [->|?]%elem_of_cons.
Qed.

Lemma strip_live_spec (live : gmap string V) :
  exists live', strip_live live = Some live' /\
    forall k, live' !! k = if bool_decide (k ∈ keep_live_keys) then live !! k else None.
Proof.
  destruct (foldl_strip_step (sorted_keys live) live) as (live' & Hf & Hl).
  { apply sorted_keys_NoDup. }
  { intros k Hk. by apply elem_of_dom, elem_of_sorted_keys. }
  exists live'. split; [done|]. intros k. rewrite Hl.
  destruct (bool_decide (k ∈ keep_live_keys)); cbn.
  - by rewrite andb_false_r.
  - rewrite andb_true_r. destruct (decide (k ∈ sorted_keys live)) as [Hk|Hk].
    + by rewrite bool_decide_eq_true_2.
    + rewrite bool_decide_eq_false_2 by done.
      apply not_elem_of_dom. by rewrite <- elem_of_sorted_keys.
Qed.

(** X26.  Preparing the command line template raises exactly when the
    template lacks a "bot" or a "live" section.  Otherwise the result has no
    "bot" section, its "live" section is the template's restricted to the
    four kept keys, and every other section is as it was. *)
Theorem strip_template_spec (template_config : gmap string (gmap string V)) :
  (is_Some (strip_template template_config) <->
   is_Some (template_config !! "bot") /\ is_Some (template_config !! "live")) /\
  (forall stripped, strip_template template_config = Some stripped ->
     stripped !! "bot" = None /\
     (forall section, section <> "bot" -> section <> "live" ->
        stripped !! section = template_config !! section) /\
     exists live live',
       template_config !! "live" = Some live /\ stripped !! "live" = Some live' /\
       forall k, live' !! k =
         if bool_decide (k ∈ keep_live_keys) then live !! k else None).
Proof.
  unfold strip_template, del.
  destruct (template_config !! "bot") as [b|] eqn:Eb; cbn [mbind option_bind].
  2:{ split; [|done]. split; [by intros [? ?] | by intros [[? ?] _]]. }
  rewrite (lookup_delete_ne template_config "bot" "live") by done.
  destruct (template_config !! "live") as [live|] eqn:El; cbn [mbind option_bind].
  2:{ split; [|done]. split; [by intros [? ?] | by intros [_ [? ?]]]. }
  destruct (strip_live_spec live) as (live' & -> & Hl). cbn [mbind option_bind].
  split; [split; [by split | by eexists]|].
  intros stripped [= <-]. split; [|split].
  - rewrite lookup_insert_ne by done. apply lookup_delete_eq.
  - intros s Hs1 Hs2. rewrite lookup_insert_ne by done. by rewrite lookup_delete_ne.
  - exists live, live'. split; [done|]. split; [apply lookup_insert_eq | done].
Qed.

End OptionsFacts.

(** ** main.py: check_compilation_needed *)

Section BuildFacts.
Import Build.
Variable path_exists : string -> bool.
Variable getmtime : string -> option Q.
Variable walk : string -> list (string * list string).

Lemma foldl_pymax_ge x l : (x <= foldl pymax x l)%Q.
Proof.
  revert x. induction l as [|y l IH]; intros x; cbn [foldl]; [apply Qle_refl|].
  eapply Qle_trans; [apply pymax_ge_l | apply IH].
Qed.

Lemma foldl_pymax_elem x l : foldl pymax x l ∈ x :: l.
Proof.
  revert x. induction l as [|y l IH]; intros x; cbn [foldl]; [left|].
  specialize (IH (pymax x y)). apply elem_of_cons in IH as [-> | IH].
  - unfold pymax. destruct (Qltb x y); [right; left | left].
  - right. by right.
Qed.

Lemma foldl_pymax_upper x l y : y ∈ x :: l -> (y <= foldl pymax x l)%Q.
Proof.
  revert x. induction l as [|z l IH]; intros x Hin; cbn [foldl].
  - apply list_elem_of_singleton in Hin as ->. apply Qle_refl.
  - apply elem_of_cons in Hin as [-> | [-> | Hin]%elem_of_cons].
    + eapply Qle_trans; [apply pymax_ge_l | apply foldl_pymax_ge].
    + eapply Qle_trans; [apply pymax_ge_r | apply foldl_pymax_ge].
    + apply IH. by right.
Qed.

(** The maximum is an element of the list and bounds every element. *)
Lemma pymax_list_spec l m :
  pymax_list l = Some m -> m ∈ l /\ forall y, y ∈ l -> (y <= m)%Q.
Proof.
  destruct l as [|x l]; [done|]. intros [= <-].
  split; [apply foldl_pymax_elem | apply foldl_pymax_upper].
Qed.

Lemma newer_source_false compiled_time paths :
  newer_source getmtime compiled_time paths = Some false <->
  forall p, p ∈ paths -> exists t, getmtime p = Some t /\ (t <= compiled_time)%Q.
Proof.
  induction paths as [|p paths IH]; cbn [newer_source].
  - split; [|done]. intros _ p Hp. by apply elem_of_nil in Hp.
  - destruct (getmtime p) as [t|] eqn:Et; cbn [mbind option_bind].
    + destruct (Qltb compiled_time t) eqn:Elt.
      * split; [done|]. intros H. destruct (H p) as (t' & Ht' & Hle); [left|].
        rewrite Et in Ht'. injection Ht' as <-. apply Qltb_lt in Elt. lra.
      * rewrite IH. split.
        -- intros H q [-> | Hq]%elem_of_cons; [|by apply H].
           exists t. split; [done|]. by apply Qltb_ge.
        -- intros H q Hq. apply H. by right.
    + split; [done|]. intros H. destruct (H p) as (t' & Ht' & _); [left|].
      by rewrite Et in Ht'.
Qed.

Lemma elem_of_source_files p :
  p ∈ source_files walk <->
  exists root files file, (root, files) ∈ walk RUST_SOURCE_DIR /\ file ∈ files /\
    endswith file ".rs" = true /\ p = Start.path_join root file.
Proof.
  unfold source_files. rewrite list_elem_of_bind. split.
  - intros ([root files] & Hp & Hw). apply list_elem_of_bind in Hp as (file & Hp & Hf).
    destruct (endswith file ".rs") eqn:E; [|by apply elem_of_nil in Hp].
    apply list_elem_of_singleton in Hp. by exists root, files, file.
  - intros (root & files & file & Hw & Hf & E & ->). exists (root, files).
    split; [|done]. apply list_elem_of_bind. exists file. split; [|done].
    rewrite E. by left.
Qed.

(** X27.  [check_compilation_needed] answers "no" exactly when a compiled
    extension exists, the modification time of every existing extension can
    be read, and every ".rs" file under the source directory has a readable
    modification time that is not later than that of some existing
    extension.  In every other case, also on an error, it answers "yes". *)
Theorem check_compilation_needed_false :
  check_compilation_needed path_exists getmtime walk = false <->
  (exists path, path ∈ COMPILED_EXTENSION_PATHS /\ path_exists path = true) /\
  (forall path, path ∈ COMPILED_EXTENSION_PATHS -> path_exists path = true ->
     is_Some (getmtime path)) /\
  (forall root files file,
     (root, files) ∈ walk RUST_SOURCE_DIR -> file ∈ files -> endswith file ".rs" = true ->
     exists t, getmtime (Start.path_join root file) = Some t /\
       exists path t', path ∈ COMPILED_EXTENSION_PATHS /\ path_exists path = true /\
         getmtime path = Some t' /\ (t <= t')%Q).
Proof.
  unfold check_compilation_needed, check_body.
  set (compiled_files := filter _ COMPILED_EXTENSION_PATHS).
  assert (Hcf : forall p, p ∈ compiled_files <->
            p ∈ COMPILED_EXTENSION_PATHS /\ path_exists p = true).
  { intros p. unfold compiled_files. rewrite list_elem_of_filter, Is_true_true. tauto. }
  assert (Hne : compiled_files = [] \/ compiled_files <> []).
  { destruct compiled_files; [by left | by right]. }
  destruct Hne as [Hnil | Hne].
  { rewrite Hnil. cbn. split; [done|]. intros [(p & Hp) _].
    apply Hcf in Hp. rewrite Hnil in Hp. by apply elem_of_nil in Hp. }
  transitivity (default true (times ← mapM getmtime compiled_files;
                              compiled_time ← pymax_list times;
                              newer_source getmtime compiled_time (source_files walk))
                = false).
  { by destruct compiled_files. }
  assert (Hex : exists path, path ∈ COMPILED_EXTENSION_PATHS /\ path_exists path = true).
  { destruct compiled_files as [|c0 cs] eqn:E; [done|]. exists c0. apply Hcf. left. }
  destruct (mapM getmtime compiled_files) as [times|] eqn:Em; cbn [mbind option_bind].
  2:{ cbn [default from_option]. split; [done|]. intros (_ & Hread & _). exfalso.
      assert (is_Some (mapM getmtime compiled_files)) as [? ?]; [|congruence].
      apply mapM_is_Some. rewrite Forall_forall. intros p [? ?]%Hcf. by apply Hread. }
  apply mapM_Some in Em.
  assert (Htimes : forall t, t ∈ times <->
            exists path, path ∈ compiled_files /\ getmtime path = Some t).
  { intros t. split.
    - intros (i & Hi)%list_elem_of_lookup_1.
      destruct (Forall2_lookup_r _ _ _ _ _ Em Hi) as (p & Hp & Hg).
      exists p. split; [by eapply list_elem_of_lookup_2 | done].
    - intros (p & (i & Hi)%list_elem_of_lookup_1 & Hg).
      destruct (Forall2_lookup_l _ _ _ _ _ Em Hi) as (t' & Ht' & Hg').
      rewrite Hg in Hg'. injection Hg' as <-. by eapply list_elem_of_lookup_2. }
  destruct (pymax_list times) as [compiled_time|] eqn:Emax; cbn [mbind option_bind].
  2:{ exfalso. destruct times; [|done]. apply Forall2_nil_inv_r in Em. done. }
  apply pymax_list_spec in Emax as [Hmax_in Hmax_ub].
  apply Htimes in Hmax_in as (pmax & Hpmax & Hgmax).
  transitivity (newer_source getmtime compiled_time (source_files walk) = Some false).
  { destruct (newer_source _ _ _) as [[]|]; cbn; split; congruence. }
  rewrite newer_source_false. split.
  - intros Hsrc. split; [done|]. split.
    + intros p Hp Hx. assert (Hin : p ∈ compiled_files) by by apply Hcf.
      apply list_elem_of_lookup_1 in Hin as (i & Hi).
      destruct (Forall2_lookup_l _ _ _ _ _ Em Hi) as (t' & _ & ->). by eexists.
    + intros root files file Hw Hf Hrs.
      destruct (Hsrc (Start.path_join root file)) as (t & Ht & Hle).
      { apply elem_of_source_files. by exists root, files, file. }
      exists t. split; [done|]. apply Hcf in Hpmax as [? ?].
      by exists pmax, compiled_time.
  - intros (_ & _ & Hsrc) p (root & files & file & Hw & Hf & Hrs & ->)%elem_of_source_files.
    destruct (Hsrc root files file Hw Hf Hrs) as (t & Ht & path & t' & Hp & Hx & Hg & Hle).
    exists t. split; [done|]. eapply Qle_trans; [exact Hle|].
    apply Hmax_ub, Htimes. exists path. split; [by apply Hcf | done].
Qed.

End BuildFacts.

(** ** More examples *)

Section MoreExamples.

Lemma modifier_monotone_witness :
  exists mA mB,
    Evaluator.calc_modifier Ex.lims Ex.compliant = Some mA /\
    Evaluator.calc_modifier Ex.lims Ex.healthy = Some mB /\
    (mA <= mB)%Q.
Proof.
  eexists _, _. split; [vm_compute; reflexivity|]. split; [vm_compute; reflexivity|].
  eapply (modifier_monotone Ex.lims Ex.compliant Ex.healthy);
    try (vm_compute; reflexivity).
  intros ik a b Hin. unfold Evaluator.constrained in Hin.
  repeat (apply elem_of_cons in Hin as [-> | Hin]); [ | | | by apply elem_of_nil in Hin];
    vm_compute; intros [= <-] [= <-]; discriminate.
Defined.

(** A drawdown of 0.5 against a bound of 0.25 makes the modifier positive. *)
Lemma modifier_positive_iff_witness :
  exists m, Evaluator.calc_modifier Ex.lims Ex.healthy = Some m /\ (0 < m)%Q.
Proof.
  eexists. split; [vm_compute; reflexivity|].
  apply (proj2 (modifier_positive_iff Ex.lims Ex.healthy _ ltac:(vm_compute; reflexivity))).
  exists (4%Z, "drawdown_worst"), (1 # 4)%Q, (1 # 2)%Q.
  split; [left|]. repeat split; vm_compute; reflexivity.
Defined.

Lemma compliant_scores_negate_metrics_witness :
  exists w0 w1,
    Evaluator.calc_fitness Ex.template Sample.sound = Some (w0, w1) /\
    (w0 == - (1 # 100))%Q /\ (w1 == - (2 # 1))%Q.
Proof.
  eexists _, _. split; [vm_compute; reflexivity|].
  eapply (compliant_scores_negate_metrics Ex.template Sample.sound _ _ "mdg" "sharpe_ratio");
    try (vm_compute; reflexivity).
  intros ik lb a Hin. unfold Evaluator.constrained in Hin.
  repeat (apply elem_of_cons in Hin as [-> | Hin]); [ | | | by apply elem_of_nil in Hin];
    vm_compute; intros [= <-] [= <-]; discriminate.
Defined.

(** Decoding [9; 8; 7; 6] against the example template: entry 0 goes to
    "long", entry 2 to "short". *)
Lemma decode_places_genome_witness :
  exists long short,
    bot Sample.decoded !! "long" = Some long /\
    bot Sample.decoded !! "short" = Some short /\
    long !! "n_positions" = Some 9%Q /\ short !! "n_positions" = Some 7%Q.
Proof.
  destruct (decode_places_genome Ex.template [9; 8; 7; 6]%Q Ex.template
              Sample.long_side Sample.short_side Sample.decoded)
    as (long & short & Hl & Hs & Hj & _);
    [reflexivity | reflexivity | reflexivity | vm_compute; discriminate | ].
  exists long, short. split; [exact Hl|]. split; [exact Hs|].
  exact (Hj 0%nat "n_positions" ltac:(vm_compute; reflexivity)).
Defined.

(** A genome with a fifth entry: the decoder reads four, and encoding gives
    those four back. *)
Lemma encode_decode_roundtrip_witness :
  exists config,
    Codec.individual_to_config Ex.template [9; 8; 7; 6; 5]%Q (Some Ex.template)
      = Some config /\
    Codec.config_to_individual config = Some [9; 8; 7; 6]%Q.
Proof.
  destruct (encode_decode_roundtrip Ex.template [9; 8; 7; 6; 5]%Q Ex.template
              Sample.long_side Sample.short_side)
    as (config & Hd & He);
    [reflexivity | reflexivity
    | apply (bool_decide_unpack _); vm_compute; reflexivity | vm_compute; lia | ].
  exists config. split; [exact Hd|]. rewrite He. vm_compute. reflexivity.
Defined.

Lemma decode_frame_witness :
  optimize Sample.decoded = Ex.opt /\
  results_filename Sample.decoded = "optimize_results/run.txt" /\
  (forall side, side <> "long" -> side <> "short" ->
     bot Sample.decoded !! side = bot Ex.template !! side).
Proof.
  apply (decode_frame Ex.template [9; 8; 7; 6]%Q Ex.template Sample.decoded).
  reflexivity.
Defined.

(** The same genome from the same names: the dicts are equal, in whatever
    order they were written. *)
Lemma encode_injective_witness :
  (list_to_map [("wallet_exposure", 6%Q); ("n_positions", 5%Q)] : gmap string Q)
    = list_to_map [("n_positions", 5%Q); ("wallet_exposure", 6%Q)] /\
  (list_to_map [("wallet_exposure", 8%Q); ("n_positions", 7%Q)] : gmap string Q)
    = list_to_map [("n_positions", 7%Q); ("wallet_exposure", 8%Q)].
Proof.
  apply (encode_injective Ex.seed Sample.seed_sorted _ _ _ _ [5; 6; 7; 8]%Q);
    [reflexivity | reflexivity | reflexivity | reflexivity | reflexivity | reflexivity
    | vm_compute; reflexivity | vm_compute; reflexivity].
Defined.






(** The seed and the template have genomes of the same length, hence the
    same hash: the template, which comes last, is the one kept. *)
Lemma last_duplicate_seed_wins_witness :
  exists before cfg after,
    [Ex.seed; Ex.template] = before ++ cfg :: after /\
    seed_individual Some cfg = Some [1; 2; 3; 4]%Q /\
    forall c v', c ∈ after -> seed_individual Some c = Some v' ->
      Ex.length_hash v' <> Ex.length_hash [1; 2; 3; 4]%Q.
Proof.
  apply (last_duplicate_seed_wins Ex.length_hash Some [Ex.seed; Ex.template] [1; 2; 3; 4]%Q).
  replace (Seeds.configs_to_individuals Ex.length_hash Some [Ex.seed; Ex.template])
    with [[1; 2; 3; 4]%Q] by (vm_compute; reflexivity).
  left.
Defined.

(** One seed for a population of three: slot 0 holds the clamped seed,
    slot 2 the individual sampled for it. *)
Lemma initial_population_layout_witness :
  exists population,
    Seeds.initial_population Ex.random_individual 3 [[-1; 9]%Q] Ex.bounds
      = Some (3%nat, population) /\
    length population = 3%nat /\
    population !! 0%nat = Some [0; 5]%Q /\
    population !! 2%nat = Some (Ex.random_individual 2).
Proof.
  destruct (initial_population_layout Ex.random_individual 3 [[-1; 9]%Q] Ex.bounds)
    as (population & Hinit & Hlen & Hseeds & Hrandom).
  { repeat constructor. }
  exists population. split; [exact Hinit|]. split; [exact Hlen|]. split.
  - destruct (Hseeds 0%nat [-1; 9]%Q eq_refl) as (adjusted & Hadj & Hpop).
    rewrite Hpop. rewrite <- Hadj. vm_compute. reflexivity.
  - apply Hrandom. cbn. lia.
Defined.

Lemma seeds_within_bounds_are_kept_witness :
  exists n population,
    Seeds.initial_population Ex.random_individual 2 [[0; 3]%Q] Ex.bounds
      = Some (n, population) /\
    population !! 0%nat = Some [0; 3]%Q.
Proof.
  destruct (seeds_within_bounds_are_kept Ex.random_individual 2 [[0; 3]%Q] Ex.bounds)
    as (n & population & Hinit & Hkept).
  - repeat constructor.
  - constructor; [|constructor]. unfold within.
    intros [|[|i]] a b x; cbn; intros [= <-] [= <-] [= <-]; split;
      vm_compute; discriminate.
  - exists n, population. split; [exact Hinit|]. by apply Hkept.
Defined.

(** With a sampler that draws the lower end, a population of two around one
    seed that is out of bounds. *)
Lemma initial_population_within_bounds_witness :
  Seeds.initial_population (Start.create_individual Sample.lower_draw Ex.bounds) 2
    [[-1; 9]%Q] Ex.bounds
    = Some (2%nat, [[0; 5]; [0; 1]]%Q) /\
  Forall (within Ex.bounds.*1 Ex.bounds.*2) [[0; 5]; [0; 1]]%Q.
Proof.
  split; [vm_compute; reflexivity|].
  apply (initial_population_within_bounds Sample.lower_draw 2 [[-1; 9]%Q] Ex.bounds
           2 [[0; 5]; [0; 1]]%Q).
  - intros d lo hi Hle. unfold Sample.lower_draw. split; [apply Qle_refl | exact Hle].
  - repeat constructor; vm_compute; discriminate.
  - vm_compute. reflexivity.
Defined.

(** 10 evaluations over 4 individuals: 2 generations; 20 over 2: 10. *)
Lemma ngen_monotone_witness :
  Budget.ngen 10 4 = Some 2%Z /\ Budget.ngen 20 2 = Some 10%Z /\ (2 <= 10)%Z.
Proof.
  split; [reflexivity|]. split; [reflexivity|].
  apply (ngen_monotone 10 20 4 2 2 10); [reflexivity | reflexivity | lia | lia].
Defined.

(** Two seeds for a population of one and 10 iterations: 5 generations of
    2 individuals. *)
Lemma budget_after_seeding_witness :
  exists g, Budget.ngen 10 2 = Some g /\ (1 <= g)%Z /\ (g * 2 <= 10 `max` 2)%Z.
Proof.
  refine (proj2 (budget_after_seeding Ex.random_individual 1 [[-1; 9]; [0; 3]]%Q Ex.bounds
                   2 [[0; 5]; [0; 3]]%Q 10 _) _).
  - vm_compute. reflexivity.
  - left. lia.
Defined.

(** One evaluation on an empty results file. *)
Lemma evaluate_logs_its_scores_witness :
  exists config stats analysis,
    Codec.individual_to_config Ex.template [9; 8; 7; 6]%Q (Some Ex.template)
      = Some config /\
    Sample.backtest config = Some stats /\
    [(Sample.logged, Sample.decoded)] = [] ++ [(analysis, config)] /\
    analysis !! "w_0" = Some Sample.w_0 /\ analysis !! "w_1" = Some Sample.w_1 /\
    (forall k, k <> "w_0" -> k <> "w_1" -> analysis !! k = stats !! k) /\
    Evaluator.calc_fitness Ex.template analysis = Some (Sample.w_0, Sample.w_1).
Proof.
  refine (proj2 (evaluate_logs_its_scores Ex.template Sample.backtest Ex.template
                   [9; 8; 7; 6]%Q [] (Some (Sample.w_0, Sample.w_1))
                   [(Sample.logged, Sample.decoded)] _ _ _)
            Sample.w_0 Sample.w_1 eq_refl).
  - cbn. rewrite !not_elem_of_cons. repeat split; [done | done | apply not_elem_of_nil].
  - cbn. rewrite !not_elem_of_cons. repeat split; [done | done | apply not_elem_of_nil].
  - reflexivity.
Defined.

End MoreExamples.
